(** * markdown-utils: presentation diffing, verified over a shallow embedding

    The development follows the TypeScript sources:
    - [src/diff/textDiff.ts]          ([diffText], [normalizeText]),
    - [src/diff/matchSlides.ts]       ([matchSlides], [slidesAreEqual]),
    - [src/diff/diffPresentations.ts] ([createSlideDiff], [diffPresentations]),
    - [src/diff/diffSummary.ts]       ([calculateDiffSummary]),
    - [src/utils/presentation.ts]     ([extractSlideTitle],
                                       [updatePresentationSlide]).

    A JavaScript string is a sequence of UTF-16 code units; it is modelled as
    a list of code units, each a number in [N].  [undefined] is [None]. *)

From Stdlib Require Import NArith ZArith String Ascii.
From Stdlib Require Import DecimalString DecimalNat DecimalFacts.
From stdpp Require Import list gmap sorting.

#[local] Set Warnings "-clear-no-such-hyp".
Local Open Scope nat_scope.

(** ** JavaScript strings *)

Module JS.

Abbreviation jsstring := (list N).

(** A string literal of the source, as code units. *)
Definition lit (s : string) : jsstring :=
  map N_of_ascii (list_ascii_of_string s).

Definition LF : N := 10%N.
Definition CR : N := 13%N.
Definition SP : N := 32%N.
Definition HASH : N := 35%N.

(** ECMAScript [WhiteSpace] and [LineTerminator] code points; together
    they are what [String.prototype.trim], [trimEnd] and the regular
    expression class [\s] recognise. *)
Definition isLineTerminator (c : N) : bool :=
  (c =? 10)%N || (c =? 13)%N || (c =? 8232)%N || (c =? 8233)%N.

Definition isWhiteSpace (c : N) : bool :=
  (c =? 9)%N || (c =? 11)%N || (c =? 12)%N || (c =? 32)%N || (c =? 160)%N
  || (c =? 5760)%N || ((8192 <=? c)%N && (c <=? 8202)%N)
  || (c =? 8239)%N || (c =? 8287)%N || (c =? 12288)%N || (c =? 65279)%N
  || isLineTerminator c.

Fixpoint take_while {A} (p : A -> bool) (l : list A) : list A :=
  match l with
  | [] => []
  | x :: l' => if p x then x :: take_while p l' else []
  end.

Fixpoint drop_while {A} (p : A -> bool) (l : list A) : list A :=
  match l with
  | [] => []
  | x :: l' => if p x then drop_while p l' else l
  end.

(** [s.trimStart()] *)
Definition trimStart (s : jsstring) : jsstring := drop_while isWhiteSpace s.

(** [s.trimEnd()]: the longest prefix that does not end in white space. *)
Fixpoint trimEnd (s : jsstring) : jsstring :=
  match s with
  | [] => []
  | c :: s' =>
      match trimEnd s' with
      | [] => if isWhiteSpace c then [] else [c]
      | t => c :: t
      end
  end.

(** [s.trim()] *)
Definition trim (s : jsstring) : jsstring := trimEnd (trimStart s).

(** [s.split(sep)] for a one-unit separator: never the empty array. *)
Fixpoint split (sep : N) (s : jsstring) : list jsstring :=
  match s with
  | [] => [[]]
  | c :: s' =>
      if (c =? sep)%N then [] :: split sep s'
      else match split sep s' with
           | l :: ls => (c :: l) :: ls
           | [] => [[c]]
           end
  end.

(** [parts.join(sep)] for a one-unit separator. *)
Fixpoint join (sep : N) (parts : list jsstring) : jsstring :=
  match parts with
  | [] => []
  | [l] => l
  | l :: ls => l ++ sep :: join sep ls
  end.

(** [s.replace(/\r\n/g, '\n')] *)
Fixpoint replaceCRLF (s : jsstring) : jsstring :=
  match s with
  | [] => []
  | c :: s' =>
      match s' with
      | d :: s'' =>
          if (c =? CR)%N && (d =? LF)%N
          then LF :: replaceCRLF s''
          else c :: replaceCRLF s'
      | [] => [c]
      end
  end.

End JS.

Import JS.

(** ** [src/diff/textDiff.ts]: text normalisation *)

(** [normalizeText]:
    [text.replace(/\r\n/g, '\n').split('\n').map(line => line.trimEnd())
         .join('\n').trim()] *)
Definition normalizeText (text : jsstring) : jsstring :=
  trim (join LF (map trimEnd (split LF (replaceCRLF text)))).

(** [normalizedTextEquals] *)
Definition normalizedTextEquals (text1 text2 : jsstring) : bool :=
  bool_decide (normalizeText text1 = normalizeText text2).

(** A text is _tidy_ when none of its lines ends in white space. *)
Definition tidy (s : jsstring) : Prop :=
  Forall (fun l => trimEnd l = l) (split LF s).

(** ** [src/diff/textDiff.ts]: the line differ *)

(** [TextDiff] of [src/types/diff.ts]. *)
Inductive TextDiffType := add | remove | unchanged.

Record TextDiff := mkTextDiff {
  type : TextDiffType;
  value : jsstring;
  lineNumber : option nat
}.

#[global] Instance TextDiffType_eq_dec : EqDecision TextDiffType.
Proof. solve_decision. Defined.

#[global] Instance TextDiff_eq_dec : EqDecision TextDiff.
Proof. solve_decision. Defined.

(** The table [lcs: number[][]]; [lcs[i][j]] reads a cell, [lcs[i][j] = v]
    writes one.  Every access of the source is within the table (the loops
    run over [1..m] and [1..n], the backtracking guards [i > 0] and
    [j > 0] before it reads); reads default to [0]. *)
Definition cell (lcs : list (list nat)) (i j : nat) : nat :=
  (lcs !!! i) !!! j.

Definition set_cell (lcs : list (list nat)) (i j v : nat) : list (list nat) :=
  <[i := <[j := v]> (lcs !!! i)]> lcs.

(** Body of the inner loop of [longestCommonSubsequence].  A line read
    [lines[k]] is an [option]: [None] is [undefined]. *)
Definition lcs_body (beforeLines afterLines : list jsstring)
    (lcs : list (list nat)) (i j : nat) : list (list nat) :=
  if bool_decide (beforeLines !! (i - 1) = afterLines !! (j - 1))
  then set_cell lcs i j (cell lcs (i - 1) (j - 1) + 1)
  else set_cell lcs i j (Nat.max (cell lcs (i - 1) j) (cell lcs i (j - 1))).

(** [longestCommonSubsequence]: the table of zeros, then
    [for i = 1..m] [for j = 1..n]. *)
Definition longestCommonSubsequence (beforeLines afterLines : list jsstring)
    : list (list nat) :=
  let m := length beforeLines in
  let n := length afterLines in
  let lcs0 := replicate (m + 1) (replicate (n + 1) 0) in
  foldl (fun lcs i => foldl (fun lcs j => lcs_body beforeLines afterLines lcs i j)
                            lcs (seq 1 n))
        lcs0 (seq 1 m).

(** State of the backtracking loop of [buildDiffFromLCS]. *)
Record Backtrack := mkBacktrack {
  bt_i : nat;
  bt_j : nat;
  bt_result : list TextDiff
}.

(** One iteration of the [while] body: the three branches of the source
    in their order; when none applies the state is left as it is. *)
Definition backtrack_step (beforeLines afterLines : list jsstring)
    (lcs : list (list nat)) (st : Backtrack) : Backtrack :=
  let i := bt_i st in
  let j := bt_j st in
  if (0 <? i) && (0 <? j)
     && bool_decide (beforeLines !! (i - 1) = afterLines !! (j - 1))
  then mkBacktrack (i - 1) (j - 1)
         (mkTextDiff unchanged (beforeLines !!! (i - 1)) None :: bt_result st)
  else if (0 <? j) && ((i =? 0) || (cell lcs (i - 1) j <=? cell lcs i (j - 1)))
  then mkBacktrack i (j - 1)
         (mkTextDiff add (afterLines !!! (j - 1)) None :: bt_result st)
  else if (0 <? i) && ((j =? 0) || (cell lcs i (j - 1) <? cell lcs (i - 1) j))
  then mkBacktrack (i - 1) j
         (mkTextDiff remove (beforeLines !!! (i - 1)) None :: bt_result st)
  else st.

(** [while (i > 0 || j > 0)]: the loop, bounded by [fuel] iterations;
    [None] when the bound is reached before the loop exits. *)
Fixpoint backtrack_loop (fuel : nat) (beforeLines afterLines : list jsstring)
    (lcs : list (list nat)) (st : Backtrack) : option (list TextDiff) :=
  if (0 <? bt_i st) || (0 <? bt_j st) then
    match fuel with
    | 0 => None
    | S fuel' =>
        backtrack_loop fuel' beforeLines afterLines lcs
          (backtrack_step beforeLines afterLines lcs st)
    end
  else Some (bt_result st).

(** [result.map((diff, index) => ({...diff, lineNumber: index + 1}))] *)
Definition number_lines (result : list TextDiff) : list TextDiff :=
  imap (fun index diff => mkTextDiff (type diff) (value diff) (Some (index + 1)))
       result.

(** [buildDiffFromLCS]; the loop gets one iteration per line of the two
    inputs, which [buildDiffFromLCS_spec] shows is enough. *)
Definition buildDiffFromLCS (beforeLines afterLines : list jsstring)
    (lcs : list (list nat)) : option (list TextDiff) :=
  result ← backtrack_loop (length beforeLines + length afterLines)
             beforeLines afterLines lcs
             (mkBacktrack (length beforeLines) (length afterLines) []);
  Some (number_lines result).

(** [content === '' ? [] : content.split('\n')] *)
Definition lines_of (content : jsstring) : list jsstring :=
  if bool_decide (content = []) then [] else split LF content.

(** [diffText] *)
Definition diffText (beforeContent afterContent : jsstring)
    : option (list TextDiff) :=
  if bool_decide (beforeContent = []) && bool_decide (afterContent = [])
  then Some []
  else
    let beforeLines := lines_of beforeContent in
    let afterLines := lines_of afterContent in
    let lcs := longestCommonSubsequence beforeLines afterLines in
    buildDiffFromLCS beforeLines afterLines lcs.

(** Projections of a diff onto the two inputs. *)
Definition is_unchanged (d : TextDiff) : bool :=
  bool_decide (type d = unchanged).

Definition in_before (d : TextDiff) : bool :=
  bool_decide (type d = remove) || bool_decide (type d = unchanged).

Definition in_after (d : TextDiff) : bool :=
  bool_decide (type d = add) || bool_decide (type d = unchanged).

Definition unchanged_count (r : list TextDiff) : nat :=
  length (List.filter is_unchanged r).

Definition before_lines_of_diff (r : list TextDiff) : list jsstring :=
  map value (List.filter in_before r).

Definition after_lines_of_diff (r : list TextDiff) : list jsstring :=
  map value (List.filter in_after r).

(** The recurrence the table implements, on prefix lengths. *)
Fixpoint lcs_rec (b a : list jsstring) (i j : nat) : nat :=
  match i with
  | 0 => 0
  | S i' =>
      (fix row (j : nat) : nat :=
         match j with
         | 0 => 0
         | S j' =>
             if bool_decide (b !! i' = a !! j')
             then lcs_rec b a i' j' + 1
             else Nat.max (lcs_rec b a i' (S j')) (row j')
         end) j
  end.

(** Specification side: [n] is the length of a longest common
    subsequence of [b] and [a]. *)
Definition is_lcs_length (b a : list jsstring) (n : nat) : Prop :=
  (exists c, sublist c b /\ sublist c a /\ length c = n) /\
  (forall c, sublist c b -> sublist c a -> length c <= n).

(** Table invariants used in the proofs: the shape of the table, and which
    cells already hold their final value while the loops run (all rows
    above [i], and row [i] up to column [j]). *)
Definition table_shape (m n : nat) (lcs : list (list nat)) : Prop :=
  length lcs = m + 1 /\ forall r, r <= m -> length (lcs !!! r) = n + 1.

Definition table_filled (b a : list jsstring) (lcs : list (list nat))
    (i j : nat) : Prop :=
  forall r c, r <= length b -> c <= length a ->
    r < i \/ (r = i /\ c <= j) \/ r = 0 \/ c = 0 ->
    cell lcs r c = lcs_rec b a r c.

Definition table_ok (b a : list jsstring) (lcs : list (list nat)) : Prop :=
  forall r c, r <= length b -> c <= length a -> cell lcs r c = lcs_rec b a r c.

(** The entry built for an unchanged line while backtracking. *)
Definition unchanged_entry (v : jsstring) : TextDiff := mkTextDiff unchanged v None.

(** A diff shows the replacement of [old] by [new] as a [remove] entry
    immediately followed by an [add] entry. *)
Definition remove_then_add (r : list TextDiff) (old new : jsstring) : Prop :=
  exists r1 r2 n1 n2,
    r = r1 ++ mkTextDiff remove old n1 :: mkTextDiff add new n2 :: r2.

(** Sample inputs: the "mixed additions and deletions" case of
    [textDiff.test.ts], and a replaced line that repeats the line before. *)
Definition sample_before : jsstring :=
  join LF [lit "line 1"; lit "line 2"; lit "line 3"].
Definition sample_after : jsstring :=
  join LF [lit "line 1"; lit "line 2.5"; lit "line 3"].

Definition repeated_before : jsstring := join LF [lit "a"; lit "a"].
Definition repeated_after : jsstring := join LF [lit "a"; lit "y"].

(** ** [src/types/presentation.ts], [src/types/chunks.ts] *)

Record BaseChunk := mkBaseChunk {
  chunk_type : jsstring;
  chunk_content : jsstring;
  chunk_id : jsstring
}.

Record MarkdownSlideLocation := mkLocation {
  startLine : Z;
  endLine : Z;
  content : jsstring
}.

(** [MarkdownSlide]; the field [id] of the source is [slide_id] here. *)
Record MarkdownSlide := mkSlide {
  slide_id : jsstring;
  title : jsstring;
  location : MarkdownSlideLocation;
  chunks : list BaseChunk
}.

Record RepositoryInfo := mkRepositoryInfo {
  owner : jsstring;
  repo : jsstring;
  branch : option jsstring;
  basePath : option jsstring
}.

Inductive MarkdownSourceType :=
  | WORKSPACE_FILE | REMOTE_FILE | GITHUB_FILE | DRAFT
  | GITHUB_ISSUE | GITHUB_PULL_REQUEST | GITHUB_GIST.

Record MarkdownSource := mkSource {
  source_type : MarkdownSourceType;
  source_content : jsstring;
  filePath : option jsstring;
  workspaceRoot : option jsstring;
  editable : option bool;
  deletable : option bool;
  source_repositoryInfo : option RepositoryInfo
}.

Record MarkdownPresentation := mkPresentation {
  source : option MarkdownSource;
  slides : list MarkdownSlide;
  originalContent : jsstring;
  repositoryInfo : option RepositoryInfo
}.

(** ** [src/diff/matchSlides.ts] *)

Inductive MatchedBy := by_title | by_position | by_none.

#[global] Instance MatchedBy_eq_dec : EqDecision MatchedBy.
Proof. solve_decision. Defined.

Record SlideMatch := mkSlideMatch {
  beforeSlide : option MarkdownSlide;
  afterSlide : option MarkdownSlide;
  beforeIndex : option nat;
  afterIndex : option nat;
  matchedBy : MatchedBy
}.

(** [s.replace(/\s+/g, ' ')]: every maximal run of white space becomes one
    space (a white-space unit followed by another one is dropped, the last
    of the run is replaced). *)
Fixpoint collapseWhiteSpace (s : jsstring) : jsstring :=
  match s with
  | [] => []
  | c :: s' =>
      if isWhiteSpace c then
        match s' with
        | d :: _ => if isWhiteSpace d then collapseWhiteSpace s'
                    else SP :: collapseWhiteSpace s'
        | [] => [SP]
        end
      else c :: collapseWhiteSpace s'
  end.

(** [slidesAreEqual], [normalizeSlideContent] *)
Definition normalizeSlideContent (slide : MarkdownSlide) : jsstring :=
  normalizeText (content (location slide)).

Definition slidesAreEqual (slide1 slide2 : MarkdownSlide) : bool :=
  bool_decide (normalizeSlideContent slide1 = normalizeSlideContent slide2).

(** The local state of [matchSlides]: the array [matches] and the two sets
    of matched indices. *)
Record MatchState := mkMatchState {
  matches : list SlideMatch;
  matchedBeforeIndices : gset nat;
  matchedAfterIndices : gset nat
}.

(** [matches.push(m); matchedBeforeIndices.add(bi); matchedAfterIndices.add(ai)] *)
Definition push_matched (st : MatchState) (m : SlideMatch) (bi ai : nat)
    : MatchState :=
  mkMatchState (matches st ++ [m])
               ({[bi]} ∪ matchedBeforeIndices st)
               ({[ai]} ∪ matchedAfterIndices st).

(** [matches.push(m)] *)
Definition push_only (st : MatchState) (m : SlideMatch) : MatchState :=
  mkMatchState (matches st ++ [m])
               (matchedBeforeIndices st) (matchedAfterIndices st).

(** [a.beforeIndex ?? a.afterIndex ?? 0] *)
Definition sort_index (m : SlideMatch) : nat :=
  default (default 0 (afterIndex m)) (beforeIndex m).

(** [matches.sort((a, b) => aIndex - bIndex)]: [Array.prototype.sort] is
    stable, so the result is the one of inserting the elements from the
    last to the first, each before the first element that does not compare
    below it. *)
Fixpoint sort_insert (x : SlideMatch) (l : list SlideMatch) : list SlideMatch :=
  match l with
  | [] => [x]
  | y :: l' =>
      if sort_index x <=? sort_index y then x :: l
      else y :: sort_insert x l'
  end.

Definition sort_matches (l : list SlideMatch) : list SlideMatch :=
  foldr sort_insert [] l.

Section MatchSlides.

(** [String.prototype.toLowerCase], whose Unicode case tables are outside
    the repository: any function on strings. *)
Variable toLowerCase : jsstring -> jsstring.

(** [normalizeTitleForMatching] *)
Definition normalizeTitleForMatching (title : jsstring) : jsstring :=
  toLowerCase (collapseWhiteSpace (trim title)).

(** Phase 1, inner loop: [for (afterIndex = 0; ...)] over the slides of
    [afterSlides] from [afterIndex] on, with its [continue] and [break]. *)
Fixpoint phase1_scan (beforeSlide : MarkdownSlide) (beforeIndex : nat)
    (rest : list MarkdownSlide) (afterIndex : nat) (st : MatchState)
    : MatchState :=
  match rest with
  | [] => st
  | afterSlide :: rest' =>
      if bool_decide (afterIndex ∈ matchedAfterIndices st)
      then phase1_scan beforeSlide beforeIndex rest' (S afterIndex) st
      else if bool_decide (normalizeTitleForMatching (title beforeSlide)
                           = normalizeTitleForMatching (title afterSlide))
      then push_matched st
             (mkSlideMatch (Some beforeSlide) (Some afterSlide)
                           (Some beforeIndex) (Some afterIndex) by_title)
             beforeIndex afterIndex
      else phase1_scan beforeSlide beforeIndex rest' (S afterIndex) st
  end.

(** Phase 1, outer loop over the slides of [beforeSlides] from
    [beforeIndex] on. *)
Fixpoint phase1 (rest : list MarkdownSlide) (beforeIndex : nat)
    (afterSlides : list MarkdownSlide) (st : MatchState) : MatchState :=
  match rest with
  | [] => st
  | beforeSlide :: rest' =>
      phase1 rest' (S beforeIndex) afterSlides
        (phase1_scan beforeSlide beforeIndex afterSlides 0 st)
  end.

(** [slides.map((_, i) => i).filter(i => !matched.has(i))] *)
Definition unmatched_indices (slides : list MarkdownSlide) (matched : gset nat)
    : list nat :=
  List.filter (fun i => negb (bool_decide (i ∈ matched)))
              (imap (fun i _ => i) slides).

(** Phase 2: the loop [for (i = 0; i < minUnmatched; i++)]. *)
Definition phase2 (beforeSlides afterSlides : list MarkdownSlide)
    (st : MatchState) : MatchState :=
  let unmatchedBeforeIndices :=
    unmatched_indices beforeSlides (matchedBeforeIndices st) in
  let unmatchedAfterIndices :=
    unmatched_indices afterSlides (matchedAfterIndices st) in
  let minUnmatched :=
    Nat.min (length unmatchedBeforeIndices) (length unmatchedAfterIndices) in
  foldl (fun st i =>
           let beforeIndex := unmatchedBeforeIndices !!! i in
           let afterIndex := unmatchedAfterIndices !!! i in
           push_matched st
             (mkSlideMatch (beforeSlides !! beforeIndex)
                           (afterSlides !! afterIndex)
                           (Some beforeIndex) (Some afterIndex) by_position)
             beforeIndex afterIndex)
        st (seq 0 minUnmatched).

(** Phase 3: the two loops over all indices. *)
Definition phase3_removed (beforeSlides : list MarkdownSlide)
    (st : MatchState) : MatchState :=
  foldl (fun st beforeIndex =>
           if negb (bool_decide (beforeIndex ∈ matchedBeforeIndices st))
           then push_only st
                  (mkSlideMatch (beforeSlides !! beforeIndex) None
                                (Some beforeIndex) None by_none)
           else st)
        st (seq 0 (length beforeSlides)).

Definition phase3_added (afterSlides : list MarkdownSlide)
    (st : MatchState) : MatchState :=
  foldl (fun st afterIndex =>
           if negb (bool_decide (afterIndex ∈ matchedAfterIndices st))
           then push_only st
                  (mkSlideMatch None (afterSlides !! afterIndex)
                                None (Some afterIndex) by_none)
           else st)
        st (seq 0 (length afterSlides)).

(** [matchSlides] *)
Definition matchSlides (beforeSlides afterSlides : list MarkdownSlide)
    : list SlideMatch :=
  let st0 := mkMatchState [] ∅ ∅ in
  let st1 := phase1 beforeSlides 0 afterSlides st0 in
  let st2 := phase2 beforeSlides afterSlides st1 in
  let st3 := phase3_added afterSlides (phase3_removed beforeSlides st2) in
  sort_matches (matches st3).

End MatchSlides.

(** ** [src/types/diff.ts] *)

(** [DiffStatus]; the names are those of the source, in a name space of
    their own since [unchanged] is also a [TextDiffType]. *)
Module DiffStatus.
Inductive t := added | removed | modified | unchanged | moved.
End DiffStatus.

#[global] Instance DiffStatus_eq_dec : EqDecision DiffStatus.t.
Proof. solve_decision. Defined.

Record SlideDiff := mkSlideDiff {
  status : DiffStatus.t;
  diff_beforeSlide : option MarkdownSlide;
  diff_afterSlide : option MarkdownSlide;
  diff_beforeIndex : option nat;
  diff_afterIndex : option nat;
  contentChanges : option (list TextDiff);
  titleChanged : bool
}.

Module DiffSummary.
Record t := mk {
  totalSlidesBefore : nat;
  totalSlidesAfter : nat;
  added : nat;
  removed : nat;
  modified : nat;
  unchanged : nat;
  moved : nat
}.
End DiffSummary.

Record PresentationDiff := mkPresentationDiff {
  before : MarkdownPresentation;
  after : MarkdownPresentation;
  slideDiffs : list SlideDiff;
  summary : DiffSummary.t
}.

(** ** [src/diff/diffPresentations.ts] *)

(** [createSlideDiff].  A slide is an object, so [!beforeSlide] holds
    exactly when the field is [undefined].  The result is [None] only if
    [diffText] does not return. *)
Definition createSlideDiff (m : SlideMatch) : option SlideDiff :=
  match beforeSlide m, afterSlide m with
  | None, Some _ =>
      Some (mkSlideDiff DiffStatus.added (beforeSlide m) (afterSlide m)
              (beforeIndex m) (afterIndex m) None false)
  | Some _, None =>
      Some (mkSlideDiff DiffStatus.removed (beforeSlide m) (afterSlide m)
              (beforeIndex m) (afterIndex m) None false)
  | Some b, Some a =>
      let contentEqual := slidesAreEqual b a in
      let positionChanged := negb (bool_decide (beforeIndex m = afterIndex m)) in
      let titleChanged := negb (bool_decide (title b = title a)) in
      if contentEqual then
        Some (mkSlideDiff
                (if positionChanged then DiffStatus.moved else DiffStatus.unchanged)
                (beforeSlide m) (afterSlide m) (beforeIndex m) (afterIndex m)
                None titleChanged)
      else
        changes ← diffText (content (location b)) (content (location a));
        Some (mkSlideDiff DiffStatus.modified
                (beforeSlide m) (afterSlide m) (beforeIndex m) (afterIndex m)
                (Some changes) titleChanged)
  | None, None =>
      Some (mkSlideDiff DiffStatus.unchanged (beforeSlide m) (afterSlide m)
              (beforeIndex m) (afterIndex m) None false)
  end.

(** ** [src/diff/diffSummary.ts] *)

(** One iteration of [for (const slideDiff of diff.slideDiffs)]: the
    [switch] on the status. *)
Definition count_status (s : DiffSummary.t) (slideDiff : SlideDiff)
    : DiffSummary.t :=
  let '(DiffSummary.mk tb ta a r mo u mv) := s in
  match status slideDiff with
  | DiffStatus.added => DiffSummary.mk tb ta (a + 1) r mo u mv
  | DiffStatus.removed => DiffSummary.mk tb ta a (r + 1) mo u mv
  | DiffStatus.modified => DiffSummary.mk tb ta a r (mo + 1) u mv
  | DiffStatus.unchanged => DiffSummary.mk tb ta a r mo (u + 1) mv
  | DiffStatus.moved => DiffSummary.mk tb ta a r mo u (mv + 1)
  end.

(** [calculateDiffSummary] *)
Definition calculateDiffSummary (diff : PresentationDiff) : DiffSummary.t :=
  foldl count_status
    (DiffSummary.mk (length (slides (before diff)))
                    (length (slides (after diff))) 0 0 0 0 0)
    (slideDiffs diff).

(** The sum of the five status counts of a summary. *)
Definition summary_total (s : DiffSummary.t) : nat :=
  DiffSummary.added s + DiffSummary.removed s + DiffSummary.modified s
  + DiffSummary.unchanged s + DiffSummary.moved s.

Section DiffPresentations.

Variable toLowerCase : jsstring -> jsstring.

(** [diffPresentations] *)
Definition diffPresentations (before after : MarkdownPresentation)
    : option PresentationDiff :=
  let matches := matchSlides toLowerCase (slides before) (slides after) in
  slideDiffs ← mapM createSlideDiff matches;
  let presentationDiff :=
    mkPresentationDiff before after slideDiffs
      (DiffSummary.mk 0 0 0 0 0 0 0) in
  Some (mkPresentationDiff before after slideDiffs
          (calculateDiffSummary presentationDiff)).

End DiffPresentations.

(** The before- and after-indices that occur in a list of matches. *)
Definition before_indices (ms : list SlideMatch) : list nat :=
  omap beforeIndex ms.

Definition after_indices (ms : list SlideMatch) : list nat :=
  omap afterIndex ms.

(** Sample slides: the duplicate-titles scenario of
    [diffPresentations.test.ts]. *)
Definition sample_slide (t c : string) : MarkdownSlide :=
  mkSlide (lit "slide") (lit t) (mkLocation 0 0 (lit c)) [].

Definition dup_before : MarkdownPresentation :=
  mkPresentation None
    [sample_slide "Same Title" "Content 1"; sample_slide "Same Title" "Content 2"]
    [] None.

Definition dup_after : MarkdownPresentation :=
  mkPresentation None
    [sample_slide "Same Title" "Content 1 Modified";
     sample_slide "Same Title" "Content 2"]
    [] None.

(** Invariant of the state of [matchSlides] through phases 1 and 2: the
    two sets hold exactly the indices that occur in [matches], no index
    occurs twice, and all are within the two arrays. *)
Definition indices_ok (nb na : nat) (st : MatchState) : Prop :=
  NoDup (before_indices (matches st)) /\
  NoDup (after_indices (matches st)) /\
  (forall i, i ∈ before_indices (matches st) <-> i ∈ matchedBeforeIndices st) /\
  (forall i, i ∈ after_indices (matches st) <-> i ∈ matchedAfterIndices st) /\
  (forall i, i ∈ matchedBeforeIndices st -> i < nb) /\
  (forall i, i ∈ matchedAfterIndices st -> i < na).

Section TitleMatching.

Variable toLowerCase : jsstring -> jsstring.
Variables beforeSlides afterSlides : list MarkdownSlide.

(** [ms] pairs before-slide [bi] with after-slide [aj] by title. *)
Definition title_pair (ms : list SlideMatch) (bi aj : nat) : Prop :=
  exists m, m ∈ ms /\ matchedBy m = by_title /\
            beforeIndex m = Some bi /\ afterIndex m = Some aj /\
            beforeSlide m = beforeSlides !! bi /\
            afterSlide m = afterSlides !! aj.

(** The two slides exist and their normalised titles are equal. *)
Definition titles_agree (bi aj : nat) : Prop :=
  exists b a, beforeSlides !! bi = Some b /\ afterSlides !! aj = Some a /\
              normalizeTitleForMatching toLowerCase (title b)
              = normalizeTitleForMatching toLowerCase (title a).

(** After-slide [aj] was already paired when before-slide [bi] is scanned:
    a before-slide of lower index holds it. *)
Definition taken_earlier (ms : list SlideMatch) (bi aj : nat) : Prop :=
  exists bi', bi' < bi /\ title_pair ms bi' aj.

(** [aj] is the lowest-indexed after-slide with a title equal to that of
    [bi] that is not taken by an earlier before-slide. *)
Definition first_free (ms : list SlideMatch) (bi aj : nat) : Prop :=
  titles_agree bi aj /\ ~ taken_earlier ms bi aj /\
  forall aj', aj' < aj -> titles_agree bi aj' -> taken_earlier ms bi aj'.

(** Invariant of phase 1 when the before-slides below [k] are done. *)
Definition title_inv (k : nat) (st : MatchState) : Prop :=
  (forall bi aj, title_pair (matches st) bi aj -> bi < k) /\
  (forall aj, aj ∈ matchedAfterIndices st <->
              exists bi, title_pair (matches st) bi aj) /\
  (forall bi aj, bi < k ->
     (title_pair (matches st) bi aj <-> first_free (matches st) bi aj)).

End TitleMatching.

(** ** [src/utils/presentation.ts] *)

(** Capture group 1 of [line.match(/^#+\s+(.+)$/)], [None] when the line
    does not match.  [#+] takes every leading [#]; [\s+] takes the white
    space that follows, at least one unit; [(.+)$] must then reach the end
    of the line without meeting a line terminator, which [.] does not
    match.  When nothing follows the white space, backtracking hands the
    last unit of the white space over to [(.+)], if [\s+] keeps one. *)
Definition headingMatch (line : jsstring) : option jsstring :=
  let hashes := take_while (N.eqb HASH) line in
  let rest := drop_while (N.eqb HASH) line in
  let spaces := take_while isWhiteSpace rest in
  let text := drop_while isWhiteSpace rest in
  if bool_decide (hashes = []) || bool_decide (spaces = []) then None
  else if negb (forallb (fun c => negb (isLineTerminator c)) text) then None
  else match text with
       | _ :: _ => Some text
       | [] =>
           match rev spaces with
           | c :: _ :: _ => if isLineTerminator c then None else Some [c]
           | _ => None
           end
       end.

(** [for (const line of lines)]: the first heading, trimmed. *)
Fixpoint first_heading (lines : list jsstring) : option jsstring :=
  match lines with
  | [] => None
  | line :: lines' =>
      match headingMatch line with
      | Some captured => Some (trim captured)
      | None => first_heading lines'
      end
  end.

(** [extractSlideTitle] *)
Definition extractSlideTitle (content : jsstring) : jsstring :=
  let lines :=
    List.filter (fun line => negb (bool_decide (trim line = [])))
                (split LF content) in
  match first_heading lines with
  | Some t => t
  | None =>
      match lines with
      | firstLine :: _ =>
          if 50 <? length firstLine
          then take 47 firstLine ++ lit "..."
          else firstLine
      | [] => lit "Untitled Slide"
      end
  end.

(** [serializePresentationToMarkdown], on the array of slides. *)
Definition serializePresentationToMarkdown (slides : list MarkdownSlide)
    : jsstring :=
  join LF (map (fun slide => content (location slide)) slides).

(** Exceptions. *)
Inductive JSError :=
  | Error (message : jsstring)
  | TypeError.

(** Arrays of slides are mutable objects: a store maps references to
    their contents, and a presentation object holds the reference of its
    [slides] array. *)
Abbreviation loc := positive.

Record PresentationObject := mkPresentationObject {
  obj_source : option MarkdownSource;
  obj_slides : loc;
  obj_originalContent : jsstring;
  obj_repositoryInfo : option RepositoryInfo
}.

(** The presentation value an object stands for in a store. *)
Definition presentation_value (h : gmap loc (list MarkdownSlide))
    (p : PresentationObject) : option MarkdownPresentation :=
  arr ← h !! obj_slides p;
  Some (mkPresentation (obj_source p) arr (obj_originalContent p)
                       (obj_repositoryInfo p)).

Section UpdatePresentationSlide.

(** [customParsers?: Array<(content, idPrefix) => T[]>] *)
Variable CustomParser : Type.

(** [parseMarkdownChunks] of [src/utils/markdown-parser.ts]: it catches
    whatever is thrown inside it and always returns an array of chunks;
    its result is only stored here. *)
Variable parseMarkdownChunks :
  jsstring -> jsstring -> option (list CustomParser) -> list BaseChunk.

(** [updatePresentationSlide], on an integer [slideIndex].  It returns the
    store after the call and either the exception thrown or the object
    returned.  [[...presentation.slides]] allocates a new array, and the
    assignment [updatedSlides[slideIndex] = ...] writes to that one. *)
Definition updatePresentationSlide (h : gmap loc (list MarkdownSlide))
    (presentation : PresentationObject) (slideIndex : Z)
    (newContent : jsstring) (customParsers : option (list CustomParser))
    : gmap loc (list MarkdownSlide) * (JSError + PresentationObject) :=
  match h !! obj_slides presentation with
  | None => (h, inl TypeError)
  | Some slides =>
      if (slideIndex <? 0)%Z || (Z.of_nat (length slides) <=? slideIndex)%Z
      then (h, inl (Error (lit "Invalid slide index")))
      else
        let updatedSlides := fresh (dom h) in
        let h1 := <[updatedSlides := slides]> h in
        match slides !! Z.to_nat slideIndex with
        | None => (h1, inl TypeError)
        | Some slide =>
            let newChunks :=
              parseMarkdownChunks newContent (slide_id slide) customParsers in
            let slide' :=
              mkSlide (slide_id slide) (extractSlideTitle newContent)
                (mkLocation (startLine (location slide))
                            (endLine (location slide)) newContent)
                newChunks in
            let contents := <[Z.to_nat slideIndex := slide']> slides in
            let h2 := <[updatedSlides := contents]> h1 in
            (h2, inr (mkPresentationObject
                        (obj_source presentation)
                        updatedSlides
                        (serializePresentationToMarkdown contents)
                        (obj_repositoryInfo presentation)))
        end
  end.

End UpdatePresentationSlide.

(** [toLowerCase] on strings of ASCII letters, for the examples. *)
Definition toLowerCaseASCII (s : jsstring) : jsstring :=
  map (fun c => if (65 <=? c)%N && (c <=? 90)%N then (c + 32)%N else c) s.

(** Two one-slide presentations as the parser builds them from the
    documents [" Hello"] and ["Hello"]: the title of each slide is
    [extractSlideTitle] of its content. *)
Definition indented_slide : MarkdownSlide :=
  mkSlide (lit "slide-0") (extractSlideTitle (lit " Hello"))
          (mkLocation 0 0 (lit " Hello")) [].

Definition plain_slide : MarkdownSlide :=
  mkSlide (lit "slide-0") (extractSlideTitle (lit "Hello"))
          (mkLocation 0 0 (lit "Hello")) [].

Definition indented_match : SlideMatch :=
  mkSlideMatch (Some indented_slide) (Some plain_slide) (Some 0) (Some 0) by_title.

(** A store with one presentation of two slides, for the examples; the
    chunk parser of the examples returns no chunk. *)
Definition sample_store : gmap loc (list MarkdownSlide) :=
  {[ 1%positive := [sample_slide "Slide 1" "# Slide 1"; sample_slide "Slide 2" "# Slide 2"] ]}.

Definition sample_object : PresentationObject :=
  mkPresentationObject None 1%positive (lit "# Slide 1" ++ LF :: lit "# Slide 2") None.

Definition no_chunks (content idPrefix : jsstring) (customParsers : option (list unit))
    : list BaseChunk := [].

Definition one_slide (t c : string) : MarkdownPresentation :=
  mkPresentation None [sample_slide t c] [] None.

(** The entries built for an added and for a removed line. *)
Definition add_entry (v : jsstring) : TextDiff := mkTextDiff add v None.
Definition remove_entry (v : jsstring) : TextDiff := mkTextDiff remove v None.

(** The code units of a text that are not white space, in order. *)
Definition non_white_space (s : jsstring) : jsstring :=
  List.filter (fun c => negb (isWhiteSpace c)) s.

(** A correspondence is well formed for the two arrays of slides: an index
    that is present lies within its array and the slide stored with it is
    the slide at that index, a side that has no index has no slide, at
    least one side is present, and [matchedBy] is ['none'] exactly when one
    side is missing. *)
Definition match_wf (beforeSlides afterSlides : list MarkdownSlide)
    (m : SlideMatch) : Prop :=
  match beforeIndex m with
  | Some i => i < length beforeSlides /\ beforeSlide m = beforeSlides !! i
  | None => beforeSlide m = None
  end /\
  match afterIndex m with
  | Some j => j < length afterSlides /\ afterSlide m = afterSlides !! j
  | None => afterSlide m = None
  end /\
  match beforeIndex m, afterIndex m with
  | Some _, Some _ => matchedBy m = by_title \/ matchedBy m = by_position
  | None, None => False
  | _, _ => matchedBy m = by_none
  end.

(** The order of the final sort. *)
Definition sort_le (m1 m2 : SlideMatch) : Prop := sort_index m1 <= sort_index m2.

(** The correspondence of slide [i] with itself, and the ones of a slide
    that is only in the after array or only in the before array. *)
Definition same_match (slides : list MarkdownSlide) (i : nat) : SlideMatch :=
  mkSlideMatch (slides !! i) (slides !! i) (Some i) (Some i) by_title.

Definition added_match (afterSlides : list MarkdownSlide) (i : nat) : SlideMatch :=
  mkSlideMatch None (afterSlides !! i) None (Some i) by_none.

Definition removed_match (beforeSlides : list MarkdownSlide) (i : nat) : SlideMatch :=
  mkSlideMatch (beforeSlides !! i) None (Some i) None by_none.

(** A correspondence with both sides. *)
Definition paired (m : SlideMatch) : Prop :=
  is_Some (beforeIndex m) /\ is_Some (afterIndex m).

(** ** [src/diff/diffSummary.ts], continued *)

(** [hasChanges] *)
Definition hasChanges (diff : PresentationDiff) : bool :=
  let summary := summary diff in
  (0 <? DiffSummary.added summary) || (0 <? DiffSummary.removed summary)
  || (0 <? DiffSummary.modified summary) || (0 <? DiffSummary.moved summary).

(** [getTotalChangedSlides] *)
Definition getTotalChangedSlides (summary : DiffSummary.t) : nat :=
  DiffSummary.added summary + DiffSummary.removed summary
  + DiffSummary.modified summary + DiffSummary.moved summary.

(** The string of a count in a template literal: its decimal digits. *)
Definition decimal (n : nat) : jsstring :=
  lit (NilZero.string_of_uint (Nat.to_uint n)).

(** [parts.join(sep)] for a separator string. *)
Fixpoint join_with (sep : jsstring) (parts : list jsstring) : jsstring :=
  match parts with
  | [] => []
  | [p] => p
  | p :: ps => p ++ sep ++ join_with sep ps
  end.

(** [formatDiffSummary] *)
Definition formatDiffSummary (summary : DiffSummary.t) : jsstring :=
  let parts :=
    (if 0 <? DiffSummary.added summary
     then [decimal (DiffSummary.added summary) ++ lit " added"] else [])
    ++ (if 0 <? DiffSummary.removed summary
        then [decimal (DiffSummary.removed summary) ++ lit " removed"] else [])
    ++ (if 0 <? DiffSummary.modified summary
        then [decimal (DiffSummary.modified summary) ++ lit " modified"] else [])
    ++ (if 0 <? DiffSummary.moved summary
        then [decimal (DiffSummary.moved summary) ++ lit " moved"] else []) in
  if length parts =? 0 then lit "No changes"
  else join_with (lit ", ") parts.

(** The number of slide diffs of a given status. *)
Definition status_count (st : DiffStatus.t) (ds : list SlideDiff) : nat :=
  length (List.filter (fun d => bool_decide (status d = st)) ds).

(** The slide diff of a slide that is the same on both sides. *)
Definition same_diff (slides : list MarkdownSlide) (i : nat) : SlideDiff :=
  mkSlideDiff DiffStatus.unchanged (slides !! i) (slides !! i)
              (Some i) (Some i) None false.

(** A slide diff is consistent: the status tells which slides are present,
    [contentChanges] is there exactly for [modified], where it is the line
    diff of the two raw contents, and [titleChanged] compares the titles of
    a matched pair. *)
Definition slide_diff_wf (d : SlideDiff) : Prop :=
  (status d = DiffStatus.added <-> diff_beforeSlide d = None) /\
  (status d = DiffStatus.removed <-> diff_afterSlide d = None) /\
  (is_Some (contentChanges d) <-> status d = DiffStatus.modified) /\
  match diff_beforeSlide d, diff_afterSlide d with
  | Some b, Some a =>
      titleChanged d = negb (bool_decide (title b = title a)) /\
      (status d = DiffStatus.modified ->
       contentChanges d = diffText (content (location b)) (content (location a)))
  | _, _ => titleChanged d = false
  end.

(** ** [src/utils/presentation.ts]: parsing a document into slides *)

(** [ToInt32]: the value of a 32-bit operation such as [<<] or [&]. *)
Definition to_int32 (z : Z) : Z :=
  ((z + 2147483648) mod 4294967296 - 2147483648)%Z.

(** The digit of [d < 36] in [Number.prototype.toString(36)]. *)
Definition digit36 (d : N) : N :=
  if (d <? 10)%N then (48 + d)%N else (87 + d)%N.

(** The digits of [n] in base 36, most significant first, in front of
    [acc]; [fuel] bounds the number of digits. *)
Fixpoint radix36_digits (fuel : nat) (n : N) (acc : jsstring) : jsstring :=
  match fuel with
  | 0 => acc
  | S fuel' =>
      let acc' := digit36 (n mod 36) :: acc in
      if (n / 36 =? 0)%N then acc'
      else radix36_digits fuel' (n / 36)%N acc'
  end.

(** [n.toString(36)] for a non-negative integer; a number has no more
    base-36 digits than bits. *)
Definition toString36 (n : N) : jsstring :=
  radix36_digits (S (N.to_nat (N.log2 n))) n [].

(** The number a string of base-36 digits denotes. *)
Definition digit36_value (c : N) : N :=
  if (c <? 58)%N then (c - 48)%N else (c - 87)%N.

Definition radix36_value (s : jsstring) : N :=
  foldl (fun v c => (36 * v + digit36_value c)%N) 0%N s.

(** [hashMarkdownString]: [hash = (hash << 5) - hash + char; hash = hash & hash]
    over the code units, then [Math.abs(hash).toString(36)]. *)
Definition hash_step (hash : Z) (char : N) : Z :=
  to_int32 (to_int32 (Z.shiftl hash 5) - hash + Z.of_N char).

Definition hashMarkdownString (str : jsstring) : jsstring :=
  toString36 (Z.to_N (Z.abs (foldl hash_step 0%Z str))).

(** [s.startsWith(prefix)] *)
Definition startsWith (s prefix : jsstring) : bool :=
  bool_decide (take (length prefix) s = prefix).

(** The code-block tracking shared by [detectMultipleHeaders] and
    [parseMarkdownIntoPresentation]: [inCodeBlock] and
    [codeBlockDelimiter], updated at a line. *)
Definition fence_step (line : jsstring) (st : bool * jsstring) : bool * jsstring :=
  let '(inCodeBlock, codeBlockDelimiter) := st in
  if startsWith (trim line) (lit "```") || startsWith (trim line) (lit "~~~")
  then
    if negb inCodeBlock then (true, take 3 (trim line))
    else if startsWith (trim line) codeBlockDelimiter then (false, [])
    else st
  else st.

(** [line.trim().startsWith('#') && !line.trim().startsWith('###')] *)
Definition is_header_line (line : jsstring) : bool :=
  startsWith (trim line) (lit "#") && negb (startsWith (trim line) (lit "###")).

(** [detectMultipleHeaders]: the loop over the lines, with the state
    [(h1Count, h2Count, inCodeBlock, codeBlockDelimiter)]. *)
Definition detect_step (st : nat * nat * (bool * jsstring)) (line : jsstring)
    : nat * nat * (bool * jsstring) :=
  let '(h1Count, h2Count, fence) := st in
  let fence' := fence_step line fence in
  if negb (fst fence') then
    if is_header_line line then
      if negb (startsWith (trim line) (lit "##"))
      then (h1Count + 1, h2Count, fence')
      else (h1Count, h2Count + 1, fence')
    else (h1Count, h2Count, fence')
  else (h1Count, h2Count, fence').

Definition detectMultipleHeaders (markdownContent : jsstring) : bool :=
  let '(h1Count, h2Count, _) :=
    foldl detect_step (0, 0, (false, [])) (split LF markdownContent) in
  let totalHeaders := h1Count + h2Count in
  1 <? totalHeaders.

Section ParseMarkdownIntoPresentation.

Variable CustomParser : Type.
Variable parseMarkdownChunks :
  jsstring -> jsstring -> option (list CustomParser) -> list BaseChunk.
Variable customParsers : option (list CustomParser).

(** The slide object built from [slideContent], as slide number [index],
    covering the lines [startLine] to [endLine]. *)
Definition slide_of_content (index : nat) (slideContent : jsstring)
    (startLine endLine : Z) : MarkdownSlide :=
  let slideId :=
    lit "slide-" ++ decimal index ++ lit "-" ++ hashMarkdownString slideContent in
  let chunks := parseMarkdownChunks slideContent slideId customParsers in
  mkSlide slideId (extractSlideTitle slideContent)
          (mkLocation startLine endLine slideContent) chunks.

(** The slide pushed for the lines [slideLines]:
    [slideContent = currentSlideLines.join('\n')]. *)
Definition make_slide (index : nat) (slideLines : list jsstring)
    (startLine endLine : Z) : MarkdownSlide :=
  slide_of_content index (join LF slideLines) startLine endLine.

(** State of the loop of [parseMarkdownIntoPresentation]. *)
Record ParseState := mkParseState {
  ps_slides : list MarkdownSlide;
  ps_currentSlideLines : list jsstring;
  ps_currentSlideStartLine : Z;
  ps_fence : bool * jsstring
}.

(** The body of the loop at line [i]. *)
Definition parse_step (line : jsstring) (i : nat) (st : ParseState) : ParseState :=
  let fence := fence_step line (ps_fence st) in
  let isDelimiter := negb (fst fence) && is_header_line line in
  if isDelimiter && (0 <? length (ps_currentSlideLines st))
  then mkParseState
         (ps_slides st ++
          [make_slide (length (ps_slides st)) (ps_currentSlideLines st)
             (ps_currentSlideStartLine st) (Z.of_nat i - 1)])
         [line] (Z.of_nat i) fence
  else mkParseState (ps_slides st) (ps_currentSlideLines st ++ [line])
         (ps_currentSlideStartLine st) fence.

(** [for (let i = 0; i < lines.length; i++)], over the lines from [i] on. *)
Fixpoint parse_loop (rest : list jsstring) (i : nat) (st : ParseState)
    : ParseState :=
  match rest with
  | [] => st
  | line :: rest' => parse_loop rest' (S i) (parse_step line i st)
  end.

(** [parseMarkdownIntoPresentation] *)
Definition parseMarkdownIntoPresentation (markdownContent : jsstring)
    (repositoryInfo : option RepositoryInfo) : MarkdownPresentation :=
  let hasMultipleHeaders := detectMultipleHeaders markdownContent in
  if negb hasMultipleHeaders then
    mkPresentation None
      [slide_of_content 0 markdownContent 0
         (Z.of_nat (length (split LF markdownContent)) - 1)]
      markdownContent repositoryInfo
  else
    let lines := split LF markdownContent in
    let st := parse_loop lines 0 (mkParseState [] [] 0 (false, [])) in
    let slides :=
      if 0 <? length (ps_currentSlideLines st)
      then ps_slides st ++
           [make_slide (length (ps_slides st)) (ps_currentSlideLines st)
              (ps_currentSlideStartLine st) (Z.of_nat (length lines) - 1)]
      else ps_slides st in
    mkPresentation None slides markdownContent repositoryInfo.

(** [parseMarkdownIntoPresentationFromSource] *)
Definition parseMarkdownIntoPresentationFromSource (source : MarkdownSource)
    : MarkdownPresentation :=
  let presentation :=
    parseMarkdownIntoPresentation (source_content source)
                                  (source_repositoryInfo source) in
  mkPresentation (Some source) (slides presentation)
                 (originalContent presentation) (repositoryInfo presentation).

(** The slides that groups of consecutive lines give, numbered from
    [index], the first group starting at line [start]. *)
Fixpoint slides_of_groups (index start : nat) (groups : list (list jsstring))
    : list MarkdownSlide :=
  match groups with
  | [] => []
  | g :: groups' =>
      make_slide index g (Z.of_nat start) (Z.of_nat (start + length g) - 1)
      :: slides_of_groups (S index) (start + length g) groups'
  end.

End ParseMarkdownIntoPresentation.

(** The number of lines that may start a slide -- header lines outside code
    blocks -- from the code-block state [fence] on. *)
Fixpoint header_count (fence : bool * jsstring) (lines : list jsstring) : nat :=
  match lines with
  | [] => 0
  | line :: lines' =>
      let fence' := fence_step line fence in
      (if negb (fst fence') && is_header_line line then 1 else 0)
      + header_count fence' lines'
  end.

(** A group of lines whose first line is a [#] or [##] header. *)
Definition starts_with_header (g : list jsstring) : Prop :=
  match g with
  | line :: _ => is_header_line line = true
  | [] => False
  end.

(** Documents for the examples of parsing. *)
Definition two_sections : jsstring :=
  join LF [lit "# One"; lit "text"; lit "## Two"; lit "more"].

Definition blank_document : jsstring := join LF [lit "  "; []; lit " "].

(** The polynomial [s[0]*31^(n-1) + ... + s[n-1]] of the code units of a
    string, as an unbounded integer. *)
Definition polynomial_hash (str : jsstring) : Z :=
  foldl (fun h c => (31 * h + Z.of_N c)%Z) 0%Z str.

Definition plain_document : jsstring :=
  join LF [[]; lit "A first line of plain text that is longer than fifty code units";
           lit "second line"].

(** A store that holds the slides parsed from [two_sections], and the
    presentation object that refers to them. *)
Definition parsed_store : gmap loc (list MarkdownSlide) :=
  {[ 1%positive :=
       slides (parseMarkdownIntoPresentation unit no_chunks None two_sections None) ]}.

Definition parsed_object : PresentationObject :=
  mkPresentationObject None 1%positive two_sections None.

(** A matched pair of slides whose second line differs. *)
Definition edited_match : SlideMatch :=
  mkSlideMatch (Some (mkSlide (lit "slide") (lit "T")
                        (mkLocation 0 1 (join LF [lit "# T"; lit "old"])) []))
               (Some (mkSlide (lit "slide") (lit "T")
                        (mkLocation 0 1 (join LF [lit "# T"; lit "new"])) []))
               (Some 0) (Some 0) by_title.

(* ================================================================== *)
(** * Properties *)
(* ================================================================== *)

(** ** String primitives *)

Lemma isWhiteSpace_LF : isWhiteSpace LF = true.
Proof. reflexivity. Qed.

Lemma isWhiteSpace_CR : isWhiteSpace CR = true.
Proof. reflexivity. Qed.

Lemma drop_while_length {A} (p : A -> bool) l :
  length (drop_while p l) <= length l.
Proof. induction l as [|x l IH]; simpl; [lia|]. destruct (p x); simpl; lia. Qed.

Lemma take_drop_while {A} (p : A -> bool) l :
  take_while p l ++ drop_while p l = l.
Proof. induction l as [|x l IH]; simpl; [done|]. destruct (p x); simpl; congruence. Qed.

Lemma drop_while_idem {A} (p : A -> bool) l :
  drop_while p (drop_while p l) = drop_while p l.
Proof.
  induction l as [|x l IH]; simpl; [done|].
  destruct (p x) eqn:E; [done|]. simpl. by rewrite E.
Qed.

Lemma drop_while_fix_cons {A} (p : A -> bool) x l :
  drop_while p (x :: l) = x :: l -> p x = false.
Proof.
  simpl. destruct (p x); [|done]. intros H.
  pose proof (drop_while_length p l) as Hl. rewrite H in Hl. simpl in Hl. lia.
Qed.

Lemma trimEnd_head s d t : trimEnd s = d :: t -> exists s', s = d :: s'.
Proof.
  destruct s as [|c s]; simpl; [done|].
  destruct (trimEnd s) as [|e u]; simpl.
  - destruct (isWhiteSpace c); [done|]. intros [= -> <-]. eauto.
  - intros [= -> <-]. eauto.
Qed.

Lemma trimEnd_idem s : trimEnd (trimEnd s) = trimEnd s.
Proof.
  induction s as [|c s IH]; simpl; [done|].
  destruct (trimEnd s) as [|e u] eqn:E.
  - destruct (isWhiteSpace c) eqn:W; simpl; [done|]. by rewrite W.
  - change (trimEnd (c :: e :: u)) with
      (match trimEnd (e :: u) with
       | [] => if isWhiteSpace c then [] else [c]
       | t => c :: t end).
    by rewrite IH.
Qed.

Lemma drop_while_snoc {A} (p : A -> bool) l c :
  drop_while p (l ++ [c]) =
  match drop_while p l with
  | [] => if p c then [] else [c]
  | t => t ++ [c]
  end.
Proof.
  induction l as [|x l IH]; simpl; [done|].
  destruct (p x); [done|]. done.
Qed.

(** [trimEnd] drops the white space at the end: it is [trimStart] read from
    the right. *)
Lemma trimEnd_rev s : trimEnd s = rev (drop_while isWhiteSpace (rev s)).
Proof.
  induction s as [|c s IH]; [done|].
  cbn [trimEnd rev]. rewrite drop_while_snoc, IH.
  destruct (drop_while isWhiteSpace (rev s)) as [|x t]; cbn [rev].
  - by destruct (isWhiteSpace c).
  - rewrite rev_app_distr. cbn. by destruct (rev t).
Qed.

Lemma trimEnd_elem s c : c ∈ trimEnd s -> c ∈ s.
Proof.
  induction s as [|d s IH]; simpl; [done|].
  destruct (trimEnd s) as [|e u].
  - destruct (isWhiteSpace d); [by intros ?%elem_of_nil|].
    intros ->%list_elem_of_singleton. left.
  - intros [->|H]%elem_of_cons; [left|right; auto].
Qed.

Lemma trimEnd_fix_cons c l :
  trimEnd (c :: l) = c :: l <->
  (l = [] /\ isWhiteSpace c = false) \/ (l <> [] /\ trimEnd l = l).
Proof.
  simpl. destruct (trimEnd l) as [|e u] eqn:E.
  - destruct l as [|d l]; destruct (isWhiteSpace c); naive_solver.
  - destruct l as [|d l]; [done|]. naive_solver.
Qed.

Lemma trimStart_idem s : trimStart (trimStart s) = trimStart s.
Proof. apply drop_while_idem. Qed.

Lemma trimEnd_trimStart_fix s :
  trimStart s = s -> trimStart (trimEnd s) = trimEnd s.
Proof.
  intros H. destruct (trimEnd s) as [|d t] eqn:E; [done|].
  destruct (trimEnd_head _ _ _ E) as [s' ->].
  apply drop_while_fix_cons in H. unfold trimStart. simpl. by rewrite H.
Qed.

Lemma trim_idem s : trim (trim s) = trim s.
Proof.
  unfold trim. rewrite trimEnd_trimStart_fix by apply trimStart_idem.
  apply trimEnd_idem.
Qed.

Lemma split_nonempty sep s : split sep s <> [].
Proof.
  destruct s as [|c s]; simpl; [done|].
  destruct (c =? sep)%N; [done|]. by destruct (split sep s).
Qed.

Lemma split_cons sep c s :
  split sep (c :: s) =
  if (c =? sep)%N then [] :: split sep s
  else match split sep s with
       | l :: ls => (c :: l) :: ls
       | [] => [[c]]
       end.
Proof. reflexivity. Qed.

Lemma join_split sep s : join sep (split sep s) = s.
Proof.
  induction s as [|c s IH]; simpl; [done|].
  destruct (c =? sep)%N eqn:E.
  - apply N.eqb_eq in E as ->.
    pose proof (split_nonempty sep s).
    destruct (split sep s) as [|l ls]; [done|]. simpl in *. by rewrite IH.
  - pose proof (split_nonempty sep s).
    destruct (split sep s) as [|l ls]; [done|].
    destruct ls; simpl in *; by rewrite <- IH.
Qed.

Lemma split_no_sep sep s : Forall (fun l => sep ∉ l) (split sep s).
Proof.
  induction s as [|c s IH]; simpl.
  - constructor; [apply not_elem_of_nil|constructor].
  - destruct (c =? sep)%N eqn:E.
    + constructor; [apply not_elem_of_nil|done].
    + apply N.eqb_neq in E. destruct (split sep s) as [|l ls].
      * constructor; [|constructor].
        rewrite elem_of_cons. intros [?|?%elem_of_nil]; [congruence|done].
      * inversion IH; subst. constructor; [|done].
        rewrite elem_of_cons. intros [?|?]; [congruence|done].
Qed.

Lemma split_app_no_sep sep l s :
  sep ∉ l ->
  split sep (l ++ sep :: s) = l :: split sep s.
Proof.
  induction l as [|c l IH]; simpl; intros H.
  - by rewrite N.eqb_refl.
  - rewrite not_elem_of_cons in H. destruct H as [Hc Hl].
    destruct (c =? sep)%N eqn:E; [apply N.eqb_eq in E; congruence|].
    by rewrite IH.
Qed.

Lemma split_single_no_sep sep l : sep ∉ l -> split sep l = [l].
Proof.
  induction l as [|c l IH]; simpl; intros H; [done|].
  rewrite not_elem_of_cons in H. destruct H as [Hc Hl].
  destruct (c =? sep)%N eqn:E; [apply N.eqb_eq in E; congruence|].
  by rewrite IH.
Qed.

Lemma split_join sep ls :
  ls <> [] -> Forall (fun l => sep ∉ l) ls -> split sep (join sep ls) = ls.
Proof.
  induction ls as [|l ls IH]; [done|]. intros _ H.
  inversion H as [|? ? Hl Hls]; subst.
  destruct ls as [|l' ls].
  - simpl. by apply split_single_no_sep.
  - change (join sep (l :: l' :: ls)) with (l ++ sep :: join sep (l' :: ls)).
    rewrite split_app_no_sep by done. by rewrite IH.
Qed.

(** ** Normalisation: tidy texts are the fixed points *)

Lemma split_head_nil sep e u ls :
  split sep (e :: u) = [] :: ls -> e = sep.
Proof.
  simpl. destruct (e =? sep)%N eqn:E; [by apply N.eqb_eq in E|].
  destruct (split sep u); intros [=].
Qed.

Lemma tidy_nil : tidy [].
Proof. unfold tidy. simpl. by constructor. Qed.

Lemma tidy_cons_inv c s : tidy (c :: s) -> tidy s.
Proof.
  unfold tidy. simpl. destruct (c =? LF)%N.
  - by inversion 1.
  - pose proof (split_nonempty LF s).
    destruct (split LF s) as [|l ls]; [done|].
    inversion 1 as [|? ? Hl Hls]; subst. constructor; [|done].
    apply trimEnd_fix_cons in Hl as [[-> _]|[_ ?]]; done.
Qed.

Lemma tidy_trimStart s : tidy s -> tidy (trimStart s).
Proof.
  unfold trimStart. induction s as [|c s IH]; simpl; [done|].
  intros H. destruct (isWhiteSpace c); [|done].
  apply IH. by eapply tidy_cons_inv.
Qed.

Lemma tidy_trimEnd s : tidy s -> tidy (trimEnd s).
Proof.
  induction s as [|c s IH]; [done|]. intros H.
  pose proof (tidy_cons_inv _ _ H) as Hs. specialize (IH Hs).
  simpl. destruct (trimEnd s) as [|e u] eqn:E.
  - destruct (isWhiteSpace c) eqn:W; [apply tidy_nil|].
    unfold tidy. simpl.
    destruct (c =? LF)%N eqn:EL.
    { apply N.eqb_eq in EL. subst. by rewrite isWhiteSpace_LF in W. }
    constructor; [|constructor]. simpl. by rewrite W.
  - destruct (trimEnd_head _ _ _ E) as [s' ->].
    unfold tidy in *. rewrite (split_cons LF c). rewrite (split_cons LF c) in H.
    destruct (c =? LF)%N eqn:EL; [by constructor|].
    pose proof (split_nonempty LF (e :: u)) as Hne.
    destruct (split LF (e :: u)) as [|l ls] eqn:Eu; [done|].
    inversion IH as [|? ? Hl Hls]; subst.
    constructor; [|done].
    apply trimEnd_fix_cons.
    destruct l as [|x l]; [left|right; done].
    split; [done|].
    apply split_head_nil in Eu as ->.
    rewrite split_cons, N.eqb_refl in H.
    inversion H as [|? ? Hc _]; subst.
    apply trimEnd_fix_cons in Hc as [[_ ?]|[? _]]; done.
Qed.

Lemma tidy_lines u : tidy (join LF (map trimEnd (split LF u))).
Proof.
  unfold tidy. rewrite split_join.
  - apply Forall_fmap, Forall_true. intros l. apply trimEnd_idem.
  - pose proof (split_nonempty LF u). by destruct (split LF u).
  - apply Forall_fmap. eapply Forall_impl; [apply split_no_sep|].
    intros l Hl Hin. by apply Hl, trimEnd_elem.
Qed.

Lemma tidy_lines_id s : tidy s -> join LF (map trimEnd (split LF s)) = s.
Proof.
  unfold tidy. intros H.
  rewrite <- (join_split LF s) at 2. f_equal.
  induction H as [|l ls Hl _ IH]; simpl; congruence.
Qed.

Lemma tidy_replaceCRLF s : tidy s -> replaceCRLF s = s.
Proof.
  induction s as [|c s IH]; [done|]. intros H.
  pose proof (tidy_cons_inv _ _ H) as Hs. specialize (IH Hs).
  destruct s as [|d s]; [done|].
  change (replaceCRLF (c :: d :: s)) with
    (if (c =? CR)%N && (d =? LF)%N
     then LF :: replaceCRLF s else c :: replaceCRLF (d :: s)).
  destruct ((c =? CR)%N && (d =? LF)%N) eqn:E; [|by rewrite IH].
  apply andb_true_iff in E as [->%N.eqb_eq ->%N.eqb_eq].
  unfold tidy in H. simpl in H. inversion H as [|? ? Hc _]. done.
Qed.

Lemma tidy_normalizeText s : tidy (normalizeText s).
Proof. apply tidy_trimEnd, tidy_trimStart, tidy_lines. Qed.

(** C7. [normalizeText] is idempotent: normalising an already normalised
    text returns it unchanged, for every string. *)
Theorem normalizeText_idempotent (s : jsstring) :
  normalizeText (normalizeText s) = normalizeText s.
Proof.
  pose proof (tidy_normalizeText s) as H.
  unfold normalizeText at 1.
  rewrite (tidy_replaceCRLF _ H), (tidy_lines_id _ H).
  unfold normalizeText. apply trim_idem.
Qed.

(** ** The table of [longestCommonSubsequence] *)

Lemma lcs_rec_0_r b a i : lcs_rec b a i 0 = 0.
Proof. by destruct i. Qed.

Lemma lcs_rec_S b a i j :
  lcs_rec b a (S i) (S j) =
  if bool_decide (b !! i = a !! j)
  then lcs_rec b a i j + 1
  else Nat.max (lcs_rec b a i (S j)) (lcs_rec b a (S i) j).
Proof. reflexivity. Qed.

Lemma cell_set_cell m n lcs i j v r c :
  table_shape m n lcs -> i <= m -> j <= n ->
  cell (set_cell lcs i j v) r c =
  if bool_decide (r = i /\ c = j) then v else cell lcs r c.
Proof.
  intros [Hlen Hrow] Hi Hj. unfold cell, set_cell.
  destruct (decide (r = i)) as [->|Hr].
  - rewrite list_lookup_total_insert_eq by lia.
    destruct (decide (c = j)) as [->|Hc].
    + rewrite list_lookup_total_insert_eq by (rewrite Hrow; lia).
      by rewrite bool_decide_eq_true_2.
    + rewrite list_lookup_total_insert_ne by done.
      rewrite bool_decide_eq_false_2; [done|]. by intros [_ ?].
  - rewrite list_lookup_total_insert_ne by done.
    rewrite bool_decide_eq_false_2; [done|]. by intros [? _].
Qed.

Lemma set_cell_shape m n lcs i j v :
  table_shape m n lcs -> table_shape m n (set_cell lcs i j v).
Proof.
  intros [Hlen Hrow]. unfold set_cell. split.
  - by rewrite length_insert.
  - intros r Hr. destruct (decide (r = i)) as [->|Hne].
    + rewrite list_lookup_total_insert_eq by lia.
      rewrite length_insert. by apply Hrow.
    + rewrite list_lookup_total_insert_ne by done. by apply Hrow.
Qed.

Lemma lcs_body_filled b a lcs i j :
  table_shape (length b) (length a) lcs ->
  1 <= i <= length b -> 1 <= j <= length a ->
  table_filled b a lcs i (j - 1) ->
  table_shape (length b) (length a) (lcs_body b a lcs i j) /\
  table_filled b a (lcs_body b a lcs i j) i j.
Proof.
  intros Hsh Hi Hj Hf. split.
  { unfold lcs_body. case_bool_decide; by apply set_cell_shape. }
  intros r c Hr Hc Hk.
  assert (Hv : lcs_body b a lcs i j =
               set_cell lcs i j (lcs_rec b a i j)).
  { unfold lcs_body. destruct i as [|i']; [lia|]. destruct j as [|j']; [lia|].
    rewrite lcs_rec_S. replace (S i' - 1) with i' by lia.
    replace (S j' - 1) with j' by lia.
    unfold table_filled in Hf.
    rewrite (Hf i' j'), (Hf i' (S j')), (Hf (S i') j') by lia.
    by case_bool_decide. }
  rewrite Hv, (cell_set_cell (length b) (length a)) by (done || lia).
  case_bool_decide as Heq; [by destruct Heq as [-> ->]|].
  apply Hf; [done|done|]. lia.
Qed.

Lemma lcs_row_filled b a i k lcs j :
  table_shape (length b) (length a) lcs ->
  1 <= i <= length b -> j + k <= length a ->
  table_filled b a lcs i j ->
  let lcs' := foldl (fun lcs j => lcs_body b a lcs i j) lcs (seq (S j) k) in
  table_shape (length b) (length a) lcs' /\ table_filled b a lcs' i (j + k).
Proof.
  revert lcs j. induction k as [|k IH]; intros lcs j Hsh Hi Hj Hf; simpl.
  - by rewrite Nat.add_0_r.
  - destruct (lcs_body_filled b a lcs i (S j)) as [Hsh' Hf'];
      [done|lia|lia|by rewrite Nat.sub_succ, Nat.sub_0_r|].
    replace (j + S k) with (S j + k) by lia. apply IH; [done|lia|lia|done].
Qed.

Lemma lcs_rows_filled b a k lcs i :
  table_shape (length b) (length a) lcs ->
  i + k <= length b ->
  table_filled b a lcs i (length a) ->
  let lcs' := foldl (fun lcs i =>
                foldl (fun lcs j => lcs_body b a lcs i j) lcs (seq 1 (length a)))
              lcs (seq (S i) k) in
  table_shape (length b) (length a) lcs' /\
  table_filled b a lcs' (i + k) (length a).
Proof.
  revert lcs i. induction k as [|k IH]; intros lcs i Hsh Hi Hf; simpl.
  - by rewrite Nat.add_0_r.
  - destruct (lcs_row_filled b a (S i) (length a) lcs 0) as [Hsh' Hf'];
      [done|lia|lia| |].
    { intros r c Hr Hc Hk. apply Hf; [done|done|lia]. }
    replace (i + S k) with (S i + k) by lia. apply IH; [done|lia|done].
Qed.

Lemma longestCommonSubsequence_ok b a :
  table_ok b a (longestCommonSubsequence b a).
Proof.
  unfold longestCommonSubsequence.
  destruct (lcs_rows_filled b a (length b)
              (replicate (length b + 1) (replicate (length a + 1) 0)) 0)
    as [_ Hf].
  - split; [by rewrite length_replicate|].
    intros r Hr. rewrite lookup_total_replicate_2 by lia.
    by rewrite length_replicate.
  - lia.
  - intros r c Hr Hc Hk. unfold cell.
    rewrite !lookup_total_replicate_2 by lia.
    destruct Hk as [?|[[-> _]|[ -> | -> ]]]; [lia|done|done|by rewrite lcs_rec_0_r].
  - intros r c Hr Hc. apply Hf; [done|done|lia].
Qed.

(** ** The recurrence computes the length of a longest common subsequence *)

Lemma sublist_snoc_inv {A} (c l : list A) x :
  sublist c (l ++ [x]) ->
  sublist c l \/ exists c', c = c' ++ [x] /\ sublist c' l.
Proof.
  intros (c1 & c2 & -> & H1 & H2)%sublist_app_r.
  apply sublist_cons_r in H2 as [H2|(c2' & -> & H2)].
  - apply sublist_nil_r in H2 as ->. left. by rewrite app_nil_r.
  - apply sublist_nil_r in H2 as ->. right. eauto.
Qed.

Lemma sublist_snoc_drop {A} (c l : list A) x :
  sublist (c ++ [x]) l -> sublist c l.
Proof. intros H. etrans; [|exact H]. apply sublist_inserts_r. reflexivity. Qed.

Lemma is_lcs_length_nil_l a : is_lcs_length [] a 0.
Proof.
  split.
  - exists []. split_and!; [done|apply sublist_nil_l|done].
  - intros c ->%sublist_nil_r _. done.
Qed.

Lemma is_lcs_length_nil_r b : is_lcs_length b [] 0.
Proof.
  split.
  - exists []. split_and!; [apply sublist_nil_l|done|done].
  - intros c _ ->%sublist_nil_r. done.
Qed.

Lemma is_lcs_length_snoc_eq b a x n :
  is_lcs_length b a n -> is_lcs_length (b ++ [x]) (a ++ [x]) (n + 1).
Proof.
  intros [(c & Hb & Ha & Hn) Hmax]. split.
  - exists (c ++ [x]). split_and!; [by apply sublist_app..|].
    rewrite length_app. simpl. lia.
  - intros d [Hdb|(d' & -> & Hdb)]%sublist_snoc_inv
             [Hda|(d'' & Hd & Hda)]%sublist_snoc_inv.
    + specialize (Hmax d Hdb Hda). lia.
    + subst d. rewrite length_app. simpl.
      specialize (Hmax d'' (sublist_snoc_drop _ _ _ Hdb) Hda). lia.
    + rewrite length_app. simpl.
      specialize (Hmax d' Hdb (sublist_snoc_drop _ _ _ Hda)). lia.
    + apply app_inj_tail in Hd as [<- _]. rewrite length_app. simpl.
      specialize (Hmax d' Hdb Hda). lia.
Qed.

Lemma is_lcs_length_snoc_ne b a x y n1 n2 :
  x <> y ->
  is_lcs_length b (a ++ [y]) n1 ->
  is_lcs_length (b ++ [x]) a n2 ->
  is_lcs_length (b ++ [x]) (a ++ [y]) (Nat.max n1 n2).
Proof.
  intros Hxy [(c1 & Hb1 & Ha1 & Hn1) Hmax1] [(c2 & Hb2 & Ha2 & Hn2) Hmax2].
  split.
  - destruct (Nat.max_spec n1 n2) as [[_ ->]|[_ ->]].
    + exists c2. split_and!; [done| |done].
      etrans; [exact Ha2|]. apply sublist_inserts_r. reflexivity.
    + exists c1. split_and!; [|done|done].
      etrans; [exact Hb1|]. apply sublist_inserts_r. reflexivity.
  - intros d Hdb Hda.
    destruct (sublist_snoc_inv _ _ _ Hdb) as [Hdb'|(d' & -> & Hdb')].
    + specialize (Hmax1 d Hdb' Hda). lia.
    + destruct (sublist_snoc_inv _ _ _ Hda) as [Hda'|(d'' & Hd & Hda')].
      * specialize (Hmax2 _ Hdb Hda'). lia.
      * apply app_inj_tail in Hd as [_ ?]. done.
Qed.

Lemma lcs_rec_is_lcs_length b a i j :
  i <= length b -> j <= length a ->
  is_lcs_length (take i b) (take j a) (lcs_rec b a i j).
Proof.
  revert j. induction i as [|i IHi]; intros j Hi Hj.
  { apply is_lcs_length_nil_l. }
  induction j as [|j IHj].
  { rewrite lcs_rec_0_r. apply is_lcs_length_nil_r. }
  destruct (lookup_lt_is_Some_2 b i) as [x Hx]; [lia|].
  destruct (lookup_lt_is_Some_2 a j) as [y Hy]; [lia|].
  rewrite (take_S_r _ _ _ Hx), (take_S_r _ _ _ Hy), lcs_rec_S, Hx, Hy.
  case_bool_decide as Heq.
  - injection Heq as ->. apply is_lcs_length_snoc_eq, IHi; lia.
  - apply is_lcs_length_snoc_ne.
    + congruence.
    + rewrite <- (take_S_r _ _ _ Hy). apply IHi; lia.
    + rewrite <- (take_S_r _ _ _ Hx). apply IHj; lia.
Qed.

Lemma is_lcs_length_unique b a n1 n2 :
  is_lcs_length b a n1 -> is_lcs_length b a n2 -> n1 = n2.
Proof.
  intros [(c1 & Hb1 & Ha1 & <-) Hm1] [(c2 & Hb2 & Ha2 & <-) Hm2].
  apply Nat.le_antisymm; auto.
Qed.

Lemma lcs_rec_full b a :
  is_lcs_length b a (lcs_rec b a (length b) (length a)).
Proof.
  pose proof (lcs_rec_is_lcs_length b a (length b) (length a)) as H.
  rewrite !firstn_all in H. apply H; lia.
Qed.

(** ** Backtracking *)

Lemma backtrack_step_cases b a lcs i j res :
  0 < i \/ 0 < j ->
  (0 < i /\ 0 < j /\ b !! (i - 1) = a !! (j - 1) /\
   backtrack_step b a lcs (mkBacktrack i j res) =
   mkBacktrack (i - 1) (j - 1)
     (mkTextDiff unchanged (b !!! (i - 1)) None :: res)) \/
  (0 < j /\
   (i = 0 \/ (b !! (i - 1) <> a !! (j - 1) /\
              cell lcs (i - 1) j <= cell lcs i (j - 1))) /\
   backtrack_step b a lcs (mkBacktrack i j res) =
   mkBacktrack i (j - 1) (mkTextDiff add (a !!! (j - 1)) None :: res)) \/
  (0 < i /\
   (j = 0 \/ (b !! (i - 1) <> a !! (j - 1) /\
              cell lcs i (j - 1) < cell lcs (i - 1) j)) /\
   backtrack_step b a lcs (mkBacktrack i j res) =
   mkBacktrack (i - 1) j (mkTextDiff remove (b !!! (i - 1)) None :: res)).
Proof.
  intros Hpos. unfold backtrack_step. cbn [bt_i bt_j bt_result].
  destruct (Nat.ltb_spec 0 i) as [Hi|Hi]; destruct (Nat.ltb_spec 0 j) as [Hj|Hj];
    cbn [andb orb].
  - case_bool_decide as Heq; [left; done|]. right.
    destruct (Nat.eqb_spec i 0) as [?|_]; [lia|].
    destruct (Nat.eqb_spec j 0) as [?|_]; [lia|]. cbn [orb].
    destruct (Nat.leb_spec (cell lcs (i - 1) j) (cell lcs i (j - 1))) as [Hle|Hlt].
    + left. split_and!; [done|right; done|done].
    + right. destruct (Nat.ltb_spec (cell lcs i (j - 1)) (cell lcs (i - 1) j));
        [|lia]. split_and!; [done|right; done|done].
  - right. right. destruct (Nat.eqb_spec j 0) as [_|?]; [|lia].
    split_and!; [done|left; lia|done].
  - right. left. destruct (Nat.eqb_spec i 0) as [_|?]; [|lia].
    split_and!; [done|left; lia|done].
  - lia.
Qed.

Lemma take_pred_snoc {A} `{!Inhabited A} (l : list A) i :
  0 < i -> i <= length l -> take (i - 1) l ++ [l !!! (i - 1)] = take i l.
Proof.
  intros Hi Hl. destruct i as [|i]; [lia|].
  rewrite Nat.sub_succ, Nat.sub_0_r.
  symmetry. apply take_S_r, list_lookup_lookup_total_lt. lia.
Qed.

Lemma lookup_pred_eq_total (b a : list jsstring) i j :
  0 < i -> i <= length b -> b !! (i - 1) = a !! (j - 1) ->
  a !!! (j - 1) = b !!! (i - 1).
Proof.
  intros Hi Hl Heq.
  destruct (lookup_lt_is_Some_2 b (i - 1)) as [x Hx]; [lia|].
  rewrite Hx in Heq. symmetry in Heq.
  by rewrite (list_lookup_total_correct _ _ _ Hx),
             (list_lookup_total_correct _ _ _ Heq).
Qed.

Lemma diff_cons_unchanged v n res :
  before_lines_of_diff (mkTextDiff unchanged v n :: res)
    = v :: before_lines_of_diff res /\
  after_lines_of_diff (mkTextDiff unchanged v n :: res)
    = v :: after_lines_of_diff res /\
  unchanged_count (mkTextDiff unchanged v n :: res) = S (unchanged_count res).
Proof. done. Qed.

Lemma diff_cons_add v n res :
  before_lines_of_diff (mkTextDiff add v n :: res) = before_lines_of_diff res /\
  after_lines_of_diff (mkTextDiff add v n :: res)
    = v :: after_lines_of_diff res /\
  unchanged_count (mkTextDiff add v n :: res) = unchanged_count res.
Proof. done. Qed.

Lemma diff_cons_remove v n res :
  before_lines_of_diff (mkTextDiff remove v n :: res)
    = v :: before_lines_of_diff res /\
  after_lines_of_diff (mkTextDiff remove v n :: res) = after_lines_of_diff res /\
  unchanged_count (mkTextDiff remove v n :: res) = unchanged_count res.
Proof. done. Qed.

Lemma backtrack_loop_spec b a lcs fuel i j res :
  table_ok b a lcs ->
  i <= length b -> j <= length a -> i + j <= fuel ->
  exists r,
    backtrack_loop fuel b a lcs (mkBacktrack i j res) = Some r /\
    before_lines_of_diff r = take i b ++ before_lines_of_diff res /\
    after_lines_of_diff r = take j a ++ after_lines_of_diff res /\
    unchanged_count r = lcs_rec b a i j + unchanged_count res.
Proof.
  intros Hok. revert i j res.
  induction fuel as [|fuel IH]; intros i j res Hi Hj Hf.
  { assert (i = 0) as -> by lia. assert (j = 0) as -> by lia.
    exists res. by rewrite !take_0. }
  destruct (decide (i = 0 /\ j = 0)) as [[-> ->]|Hne].
  { exists res. by rewrite !take_0. }
  assert (Hpos : 0 < i \/ 0 < j) by lia.
  assert (Hloop : backtrack_loop (S fuel) b a lcs (mkBacktrack i j res) =
                  backtrack_loop fuel b a lcs
                    (backtrack_step b a lcs (mkBacktrack i j res))).
  { cbn [backtrack_loop bt_i bt_j].
    destruct (Nat.ltb_spec 0 i); destruct (Nat.ltb_spec 0 j); try done; lia. }
  rewrite Hloop.
  destruct (backtrack_step_cases b a lcs i j res Hpos)
    as [(Hi0 & Hj0 & Heq & ->)|[(Hj0 & Hc & ->)|(Hi0 & Hc & ->)]].
  - destruct (IH (i - 1) (j - 1)
                (mkTextDiff unchanged (b !!! (i - 1)) None :: res))
      as (r & -> & Hb & Ha & Hu); [lia..|].
    exists r. split; [done|]. rewrite Hb, Ha, Hu.
    destruct (diff_cons_unchanged (b !!! (i - 1)) None res) as (-> & -> & ->).
    rewrite <- (take_pred_snoc b i), <- (take_pred_snoc a j) by lia.
    rewrite <- !app_assoc. cbn.
    rewrite (lookup_pred_eq_total b a i j) by (done || lia).
    split_and!; [done|done|].
    destruct i as [|i']; [lia|]. destruct j as [|j']; [lia|].
    rewrite lcs_rec_S. rewrite !Nat.sub_succ, !Nat.sub_0_r in *.
    rewrite bool_decide_eq_true_2 by done. lia.
  - destruct (IH i (j - 1) (mkTextDiff add (a !!! (j - 1)) None :: res))
      as (r & -> & Hb & Ha & Hu); [lia..|].
    exists r. split; [done|]. rewrite Hb, Ha, Hu.
    destruct (diff_cons_add (a !!! (j - 1)) None res) as (-> & -> & ->).
    rewrite <- (take_pred_snoc a j) by lia.
    rewrite <- !app_assoc. cbn.
    split_and!; [done|done|]. f_equal.
    destruct j as [|j']; [lia|]. rewrite Nat.sub_succ, Nat.sub_0_r in *.
    destruct Hc as [->|[Hne' Hle]]; [done|].
    destruct i as [|i']; [done|]. rewrite Nat.sub_succ, Nat.sub_0_r in *.
    rewrite lcs_rec_S, bool_decide_eq_false_2 by done.
    rewrite !Hok in Hle by lia. lia.
  - destruct (IH (i - 1) j (mkTextDiff remove (b !!! (i - 1)) None :: res))
      as (r & -> & Hb & Ha & Hu); [lia..|].
    exists r. split; [done|]. rewrite Hb, Ha, Hu.
    destruct (diff_cons_remove (b !!! (i - 1)) None res) as (-> & -> & ->).
    rewrite <- (take_pred_snoc b i) by lia.
    rewrite <- !app_assoc. cbn.
    split_and!; [done|done|]. f_equal.
    destruct i as [|i']; [lia|]. rewrite Nat.sub_succ, Nat.sub_0_r in *.
    destruct Hc as [->|[Hne' Hlt]]; [by rewrite lcs_rec_0_r|].
    destruct j as [|j']; [by rewrite lcs_rec_0_r|].
    rewrite Nat.sub_succ, Nat.sub_0_r in *.
    rewrite lcs_rec_S, bool_decide_eq_false_2 by done.
    rewrite !Hok in Hlt by lia. lia.
Qed.

Lemma imap_keeps_projections (g : nat -> TextDiff -> TextDiff) r :
  (forall i d, type (g i d) = type d /\ value (g i d) = value d) ->
  before_lines_of_diff (imap g r) = before_lines_of_diff r /\
  after_lines_of_diff (imap g r) = after_lines_of_diff r /\
  unchanged_count (imap g r) = unchanged_count r.
Proof.
  revert g. induction r as [|d r IH]; intros g Hg; [done|].
  destruct (IH (g ∘ S)) as (IHb & IHa & IHu); [intros i e; apply Hg|].
  destruct (Hg 0 d) as [Ht Hv].
  unfold before_lines_of_diff, after_lines_of_diff, unchanged_count in *.
  cbn [imap List.filter]. unfold in_before, in_after, is_unchanged in *.
  rewrite Ht.
  split_and!.
  - destruct (bool_decide (type d = remove) || bool_decide (type d = unchanged));
      cbn [map]; congruence.
  - destruct (bool_decide (type d = add) || bool_decide (type d = unchanged));
      cbn [map]; congruence.
  - destruct (bool_decide (type d = unchanged)); cbn [length]; congruence.
Qed.

Lemma number_lines_keeps_projections r :
  before_lines_of_diff (number_lines r) = before_lines_of_diff r /\
  after_lines_of_diff (number_lines r) = after_lines_of_diff r /\
  unchanged_count (number_lines r) = unchanged_count r.
Proof. apply imap_keeps_projections. done. Qed.

Lemma buildDiffFromLCS_spec b a :
  exists r,
    buildDiffFromLCS b a (longestCommonSubsequence b a) = Some r /\
    before_lines_of_diff r = b /\
    after_lines_of_diff r = a /\
    unchanged_count r = lcs_rec b a (length b) (length a).
Proof.
  destruct (backtrack_loop_spec b a (longestCommonSubsequence b a)
              (length b + length a) (length b) (length a) [])
    as (r & Hr & Hb & Ha & Hu);
    [apply longestCommonSubsequence_ok|lia..|].
  exists (number_lines r). unfold buildDiffFromLCS. rewrite Hr. cbn.
  destruct (number_lines_keeps_projections r) as (-> & -> & ->).
  rewrite Hb, Ha, Hu, !firstn_all. cbn. rewrite !app_nil_r. split_and!; [done..|lia].
Qed.

Lemma diffText_spec before after :
  exists r,
    diffText before after = Some r /\
    before_lines_of_diff r = lines_of before /\
    after_lines_of_diff r = lines_of after /\
    unchanged_count r =
      lcs_rec (lines_of before) (lines_of after)
        (length (lines_of before)) (length (lines_of after)).
Proof.
  unfold diffText.
  destruct (bool_decide (before = []) && bool_decide (after = [])) eqn:E.
  - apply andb_true_iff in E as [->%bool_decide_eq_true ->%bool_decide_eq_true].
    by exists [].
  - apply buildDiffFromLCS_spec.
Qed.

(** C3. For every pair of input strings [diffText] returns, and the number
    of entries of type [unchanged] in its output is the length of a longest
    common subsequence of the two line arrays (the empty string having no
    lines): some common subsequence has that length and none is longer. *)
Theorem diffText_unchanged_count_is_lcs_length (before after : jsstring) :
  exists r,
    diffText before after = Some r /\
    is_lcs_length (lines_of before) (lines_of after) (unchanged_count r).
Proof.
  destruct (diffText_spec before after) as (r & Hr & _ & _ & Hu).
  exists r. split; [done|]. rewrite Hu. apply lcs_rec_full.
Qed.

(** C9. For every pair of input strings, the [remove] and [unchanged]
    entries of the output of [diffText] carry, in order, exactly the lines
    of the before input, and the [add] and [unchanged] entries exactly the
    lines of the after input. *)
Theorem diffText_projections (before after : jsstring) :
  exists r,
    diffText before after = Some r /\
    map value (List.filter in_before r) = lines_of before /\
    map value (List.filter in_after r) = lines_of after.
Proof.
  destruct (diffText_spec before after) as (r & Hr & Hb & Ha & _).
  by exists r.
Qed.

(** ** Replacing one line *)

Lemma backtrack_loop_S fuel b a lcs i j res :
  0 < i \/ 0 < j ->
  backtrack_loop (S fuel) b a lcs (mkBacktrack i j res) =
  backtrack_loop fuel b a lcs (backtrack_step b a lcs (mkBacktrack i j res)).
Proof.
  intros H. cbn [backtrack_loop bt_i bt_j].
  destruct (Nat.ltb_spec 0 i); destruct (Nat.ltb_spec 0 j); try done; lia.
Qed.

Lemma backtrack_loop_done fuel b a lcs res :
  backtrack_loop fuel b a lcs (mkBacktrack 0 0 res) = Some res.
Proof. by destruct fuel. Qed.

Lemma backtrack_loop_unchanged_run b a lcs k f i j res :
  (forall t, t < k -> exists v, b !! (i + t) = Some v /\ a !! (j + t) = Some v) ->
  backtrack_loop (k + f) b a lcs (mkBacktrack (i + k) (j + k) res) =
  backtrack_loop f b a lcs
    (mkBacktrack i j (map unchanged_entry (take k (drop i b)) ++ res)).
Proof.
  revert res. induction k as [|k IH]; intros res H.
  { by rewrite !Nat.add_0_r, take_0. }
  destruct (H k) as (v & Hb & Ha); [lia|].
  replace (S k + f) with (S (k + f)) by lia.
  rewrite backtrack_loop_S by lia.
  destruct (backtrack_step_cases b a lcs (i + S k) (j + S k) res)
    as [(_ & _ & _ & ->)|[(_ & [?|[Hne _]] & _)|(_ & [?|[Hne _]] & _)]];
    [lia| |lia| |lia| ].
  - replace (i + S k - 1) with (i + k) by lia.
    replace (j + S k - 1) with (j + k) by lia.
    rewrite IH by (intros t Ht; apply H; lia).
    rewrite (take_S_r _ _ v) by (by rewrite lookup_drop).
    rewrite map_app, <- app_assoc. cbn [map app].
    by rewrite (list_lookup_total_correct _ _ _ Hb).
  - replace (i + S k - 1) with (i + k) in Hne by lia.
    replace (j + S k - 1) with (j + k) in Hne by lia. congruence.
  - replace (i + S k - 1) with (i + k) in Hne by lia.
    replace (j + S k - 1) with (j + k) in Hne by lia. congruence.
Qed.

Lemma lcs_rec_le b a i j :
  i <= length b -> j <= length a ->
  lcs_rec b a i j <= i /\ lcs_rec b a i j <= j.
Proof.
  intros Hi Hj.
  destruct (lcs_rec_is_lcs_length b a i j Hi Hj) as [(c & Hb & Ha & <-) _].
  apply sublist_length in Hb, Ha. rewrite length_take in Hb, Ha. lia.
Qed.

Lemma lcs_rec_common_prefix P b' a' i j :
  length P <= i <= length (P ++ b') -> length P <= j <= length (P ++ a') ->
  length P <= lcs_rec (P ++ b') (P ++ a') i j.
Proof.
  intros Hi Hj.
  destruct (lcs_rec_is_lcs_length (P ++ b') (P ++ a') i j) as [_ Hmax];
    [lia..|].
  apply Hmax.
  - rewrite take_app. apply sublist_inserts_r.
    rewrite take_ge by lia. reflexivity.
  - rewrite take_app. apply sublist_inserts_r.
    rewrite take_ge by lia. reflexivity.
Qed.

Lemma replaced_line_backtrack P x y S f :
  x <> y -> last P <> Some x ->
  let b := P ++ x :: S in
  let a := P ++ y :: S in
  backtrack_loop (length S + Datatypes.S (Datatypes.S (length P + f))) b a
    (longestCommonSubsequence b a)
    (mkBacktrack (length b) (length a) []) =
  Some (map unchanged_entry P
        ++ mkTextDiff remove x None :: mkTextDiff add y None
        :: map unchanged_entry S).
Proof.
  intros Hxy Hlast b a.
  pose proof (longestCommonSubsequence_ok b a) as Hok.
  set (lcs := longestCommonSubsequence b a) in *.
  set (p := length P). set (s := length S).
  assert (Hlb : length b = p + 1 + s).
  { unfold b, p, s. rewrite length_app. simpl. lia. }
  assert (Hla : length a = p + 1 + s).
  { unfold a, p, s. rewrite length_app. simpl. lia. }
  assert (Hbp : b !! p = Some x).
  { unfold b, p. by rewrite list_lookup_middle. }
  assert (Hap : a !! p = Some y).
  { unfold a, p. by rewrite list_lookup_middle. }
  rewrite Hlb, Hla.
  (* the common suffix *)
  rewrite (backtrack_loop_unchanged_run b a lcs s); cycle 1.
  { intros t Ht. destruct (lookup_lt_is_Some_2 S t) as [v Hv]; [done|].
    exists v. unfold b, a, p.
    rewrite !lookup_app_r by lia.
    replace (length P + 1 + t - length P) with (Datatypes.S t) by lia.
    done. }
  assert (HS : take s (drop (p + 1) b) = S).
  { unfold b, p, s. rewrite drop_app_ge by lia.
    replace (length P + 1 - length P) with 1 by lia.
    cbn [drop]. by rewrite firstn_all. }
  rewrite HS, app_nil_r.
  (* the replaced line: add first *)
  rewrite backtrack_loop_S by lia.
  assert (Hpp1 : lcs_rec b a p (p + 1) = p).
  { apply Nat.le_antisymm; [apply lcs_rec_le; lia|].
    apply lcs_rec_common_prefix; fold b a p; lia. }
  assert (Hp1p : lcs_rec b a (p + 1) p = p).
  { apply Nat.le_antisymm; [apply lcs_rec_le; lia|].
    apply lcs_rec_common_prefix; fold b a p; lia. }
  assert (Hppp : lcs_rec b a p p = p).
  { apply Nat.le_antisymm; [apply lcs_rec_le; lia|].
    apply lcs_rec_common_prefix; fold b a p; lia. }
  destruct (backtrack_step_cases b a lcs (p + 1) (p + 1)
              (map unchanged_entry S))
    as [(_ & _ & Heq & _)|[(_ & _ & ->)|(_ & [?|[_ Hlt]] & _)]]; [lia| | |lia|].
  { replace (p + 1 - 1) with p in Heq by lia. congruence. }
  2:{ replace (p + 1 - 1) with p in Hlt by lia.
      rewrite !Hok in Hlt by lia. lia. }
  replace (p + 1 - 1) with p by lia.
  rewrite (list_lookup_total_correct _ _ _ Hap).
  (* then remove *)
  rewrite backtrack_loop_S by lia.
  destruct (backtrack_step_cases b a lcs (p + 1) p
              (mkTextDiff add y None :: map unchanged_entry S))
    as [(_ & Hp0 & Heq & _)|[(Hp0 & [?|[_ Hle]] & _)|(_ & _ & ->)]]; [lia| |lia| |].
  { replace (p + 1 - 1) with p in Heq by lia. exfalso. apply Hlast.
    rewrite last_lookup. fold p. rewrite <- Nat.sub_1_r.
    rewrite Hbp in Heq. rewrite Heq. unfold a.
    by rewrite lookup_app_l by (fold p; lia). }
  { replace (p + 1 - 1) with p in Hle by lia.
    rewrite !Hok in Hle by lia.
    pose proof (lcs_rec_le b a (p + 1) (p - 1)). lia. }
  replace (p + 1 - 1) with p by lia.
  rewrite (list_lookup_total_correct _ _ _ Hbp).
  (* the common prefix *)
  rewrite (backtrack_loop_unchanged_run b a lcs p f 0 0); cycle 1.
  { intros t Ht. destruct (lookup_lt_is_Some_2 P t) as [v Hv]; [done|].
    exists v. unfold b, a. by rewrite !lookup_app_l by done. }
  rewrite backtrack_loop_done. rewrite drop_0.
  unfold b, p. by rewrite take_app_length.
Qed.

Lemma number_lines_remove_then_add r1 r2 x y :
  remove_then_add
    (number_lines (r1 ++ mkTextDiff remove x None :: mkTextDiff add y None :: r2))
    x y.
Proof.
  unfold number_lines. rewrite imap_app. cbn [imap type value].
  eexists _, _, _, _. reflexivity.
Qed.

Lemma lines_of_nonempty content l ls :
  lines_of content = l :: ls -> bool_decide (content = []) = false.
Proof.
  unfold lines_of. case_bool_decide; [done|]. done.
Qed.

(** C4 (amended). While backtracking, at a cell with both indices positive
    whose two lines differ, the [add] step is taken exactly when
    [lcs[i][j-1] >= lcs[i-1][j]], and the [remove] step otherwise.  When one
    line is replaced between two otherwise identical inputs, and the old
    line differs from the line just before it (or is the first line), the
    output is the common prefix as [unchanged] entries, the [remove] entry
    of the old line immediately followed by the [add] entry of the new one,
    and the common suffix as [unchanged] entries. *)
Theorem backtrack_tie_break_replaced_line :
  (forall (b a : list jsstring) lcs i j res,
     0 < i -> 0 < j -> b !! (i - 1) <> a !! (j - 1) ->
     backtrack_step b a lcs (mkBacktrack i j res) =
     if cell lcs (i - 1) j <=? cell lcs i (j - 1)
     then mkBacktrack i (j - 1) (mkTextDiff add (a !!! (j - 1)) None :: res)
     else mkBacktrack (i - 1) j (mkTextDiff remove (b !!! (i - 1)) None :: res))
  /\
  (forall (before after : jsstring) P x y S,
     lines_of before = P ++ x :: S ->
     lines_of after = P ++ y :: S ->
     x <> y -> last P <> Some x ->
     diffText before after =
       Some (number_lines
               (map unchanged_entry P
                ++ mkTextDiff remove x None :: mkTextDiff add y None
                :: map unchanged_entry S)) /\
     exists r, diffText before after = Some r /\ remove_then_add r x y).
Proof.
  split.
  - intros b a lcs i j res Hi Hj Hne.
    destruct (backtrack_step_cases b a lcs i j res)
      as [(_ & _ & Heq & _)|[(_ & [?|[_ Hle]] & ->)|(_ & [?|[_ Hlt]] & ->)]];
      [lia|done|lia| |lia|].
    + by rewrite (proj2 (Nat.leb_le _ _) Hle).
    + by rewrite (proj2 (Nat.leb_gt _ _) Hlt).
  - intros before after P x y S Hb Ha Hxy Hlast.
    assert (Hd : diffText before after =
       Some (number_lines
               (map unchanged_entry P
                ++ mkTextDiff remove x None :: mkTextDiff add y None
                :: map unchanged_entry S))).
    { unfold diffText.
      destruct P as [|l P']; (rewrite (lines_of_nonempty before _ _ Hb));
        cbn [andb]; rewrite Hb, Ha; unfold buildDiffFromLCS.
      - replace (length ([] ++ x :: S) + length ([] ++ y :: S))
          with (length S + Datatypes.S (Datatypes.S (length (@nil jsstring) + length S)))
          by (cbn; lia).
        by rewrite replaced_line_backtrack.
      - replace (length ((l :: P') ++ x :: S) + length ((l :: P') ++ y :: S))
          with (length S +
                Datatypes.S (Datatypes.S (length (l :: P')
                                          + (length (l :: P') + length S))))
          by (rewrite !length_app; cbn; lia).
        by rewrite replaced_line_backtrack. }
    split; [done|]. eexists. split; [exact Hd|].
    apply number_lines_remove_then_add.
Qed.

Lemma backtrack_tie_break_replaced_line_witness :
  backtrack_step (lines_of sample_before) (lines_of sample_after)
    (longestCommonSubsequence (lines_of sample_before) (lines_of sample_after))
    (mkBacktrack 2 2 [unchanged_entry (lit "line 3")]) =
  mkBacktrack 2 1
    [mkTextDiff add (lit "line 2.5") None; unchanged_entry (lit "line 3")]
  /\
  diffText sample_before sample_after =
  Some [mkTextDiff unchanged (lit "line 1") (Some 1);
        mkTextDiff remove (lit "line 2") (Some 2);
        mkTextDiff add (lit "line 2.5") (Some 3);
        mkTextDiff unchanged (lit "line 3") (Some 4)].
Proof.
  destruct backtrack_tie_break_replaced_line as [Hstep Hline]. split.
  - apply (Hstep (lines_of sample_before) (lines_of sample_after)
             (longestCommonSubsequence (lines_of sample_before)
                                       (lines_of sample_after))
             2 2 [unchanged_entry (lit "line 3")]); [lia|lia|].
    vm_compute. discriminate.
  - apply (Hline sample_before sample_after
             [lit "line 1"] (lit "line 2") (lit "line 2.5") [lit "line 3"]).
    + reflexivity.
    + reflexivity.
    + vm_compute. discriminate.
    + vm_compute. discriminate.
Defined.

(** C4, counterexample.  Replacing the second of two equal lines: the
    [remove] entry is followed by an [unchanged] entry, not by the [add]. *)
Lemma replaced_line_not_adjacent :
  lines_of repeated_before = [lit "a"] ++ lit "a" :: [] /\
  lines_of repeated_after = [lit "a"] ++ lit "y" :: [] /\
  diffText repeated_before repeated_after =
    Some [mkTextDiff remove (lit "a") (Some 1);
          mkTextDiff unchanged (lit "a") (Some 2);
          mkTextDiff add (lit "y") (Some 3)] /\
  ~ (forall r, diffText repeated_before repeated_after = Some r ->
               remove_then_add r (lit "a") (lit "y")).
Proof.
  split_and!; [reflexivity..|].
  intros H. destruct (H _ eq_refl) as (r1 & r2 & n1 & n2 & Hr).
  vm_compute in Hr.
  destruct r1 as [|e1 [|e2 [|e3 [|e4 r1]]]]; cbn in Hr; discriminate Hr.
Qed.

(** ** The classifier *)

Lemma slidesAreEqual_spec b a :
  slidesAreEqual b a = true <->
  normalizeText (content (location b)) = normalizeText (content (location a)).
Proof. unfold slidesAreEqual, normalizeSlideContent. apply bool_decide_eq_true. Qed.

(** C2. [createSlideDiff] returns for every correspondence; the status is
    [added] when only the after-slide is present, [removed] when only the
    before-slide is present, and for a matched pair it is decided by two
    facts alone, equality of the normalised contents and equality of the
    two indices: [unchanged] when both hold, [moved] when only the contents
    are equal, [modified] when the contents differ. *)
Theorem createSlideDiff_status (m : SlideMatch) :
  exists d,
    createSlideDiff m = Some d /\
    (forall a, beforeSlide m = None -> afterSlide m = Some a ->
               status d = DiffStatus.added) /\
    (forall b, beforeSlide m = Some b -> afterSlide m = None ->
               status d = DiffStatus.removed) /\
    (forall b a, beforeSlide m = Some b -> afterSlide m = Some a ->
       let contentEqual :=
         normalizeText (content (location b)) = normalizeText (content (location a)) in
       let positionEqual := beforeIndex m = afterIndex m in
       (contentEqual -> positionEqual -> status d = DiffStatus.unchanged) /\
       (contentEqual -> ~ positionEqual -> status d = DiffStatus.moved) /\
       (~ contentEqual -> status d = DiffStatus.modified)).
Proof.
  unfold createSlideDiff.
  destruct (beforeSlide m) as [b|] eqn:Eb; destruct (afterSlide m) as [a|] eqn:Ea.
  - destruct (slidesAreEqual b a) eqn:Eq.
    + eexists. split; [done|]. split_and!; [done|done|].
      intros b' a' [= <-] [= <-]. cbn. apply slidesAreEqual_spec in Eq.
      case_bool_decide; split_and!; done.
    + destruct (diffText_spec (content (location b)) (content (location a)))
        as (r & -> & _). cbn.
      eexists. split; [done|]. split_and!; [done|done|].
      intros b' a' [= <-] [= <-]. cbn.
      assert (~ normalizeText (content (location b))
                = normalizeText (content (location a))).
      { rewrite <- slidesAreEqual_spec. by rewrite Eq. }
      split_and!; done.
  - eexists. split; [done|]. split_and!; done.
  - eexists. split; [done|]. split_and!; done.
  - eexists. split; [done|]. split_and!; done.
Qed.

Lemma createSlideDiff_status_witness :
  exists d,
    createSlideDiff
      (mkSlideMatch (Some (sample_slide "Same Title" "Content 2"))
                    (Some (sample_slide "Same Title" " Content 2 "))
                    (Some 1) (Some 0) by_title) = Some d /\
    status d = DiffStatus.moved.
Proof.
  destruct (createSlideDiff_status
              (mkSlideMatch (Some (sample_slide "Same Title" "Content 2"))
                            (Some (sample_slide "Same Title" " Content 2 "))
                            (Some 1) (Some 0) by_title))
    as (d & Hd & _ & _ & Hpair).
  exists d. split; [exact Hd|].
  apply (Hpair _ _ eq_refl eq_refl); [reflexivity|discriminate].
Defined.

(** ** [matchSlides]: every index is matched exactly once *)

Lemma foldl_seq_ind {S} (P : nat -> S -> Prop) (f : S -> nat -> S) st n :
  P 0 st ->
  (forall k s, k < n -> P k s -> P (Datatypes.S k) (f s k)) ->
  P n (foldl f st (seq 0 n)).
Proof.
  intros H0 Hstep. induction n as [|n IH]; [done|].
  rewrite seq_S, foldl_app. cbn. apply Hstep; [lia|].
  apply IH. intros k s Hk. apply Hstep. lia.
Qed.

Lemma before_indices_snoc ms m :
  before_indices (ms ++ [m]) =
  before_indices ms ++ match beforeIndex m with Some i => [i] | None => [] end.
Proof. unfold before_indices. rewrite omap_app. cbn. by destruct (beforeIndex m). Qed.

Lemma after_indices_snoc ms m :
  after_indices (ms ++ [m]) =
  after_indices ms ++ match afterIndex m with Some i => [i] | None => [] end.
Proof. unfold after_indices. rewrite omap_app. cbn. by destruct (afterIndex m). Qed.

Lemma NoDup_snoc_fresh (l : list nat) i : NoDup l -> i ∉ l -> NoDup (l ++ [i]).
Proof.
  intros Hl Hi. apply NoDup_app. split_and!; [done| |apply NoDup_singleton].
  intros x Hx ->%list_elem_of_singleton. done.
Qed.

Lemma push_matched_ok nb na st m bi ai :
  indices_ok nb na st ->
  beforeIndex m = Some bi -> afterIndex m = Some ai ->
  bi ∉ matchedBeforeIndices st -> ai ∉ matchedAfterIndices st ->
  bi < nb -> ai < na ->
  indices_ok nb na (push_matched st m bi ai).
Proof.
  intros (Hnb & Hna & Hb & Ha & Hbr & Har) Hmb Hma Hbi Hai Hlb Hla.
  unfold indices_ok, push_matched. cbn [matches matchedBeforeIndices matchedAfterIndices].
  rewrite before_indices_snoc, after_indices_snoc, Hmb, Hma.
  split_and!.
  - apply NoDup_snoc_fresh; [done|]. by rewrite Hb.
  - apply NoDup_snoc_fresh; [done|]. by rewrite Ha.
  - intros i. rewrite elem_of_app, list_elem_of_singleton, Hb. set_solver.
  - intros i. rewrite elem_of_app, list_elem_of_singleton, Ha. set_solver.
  - intros i [->%elem_of_singleton|?]%elem_of_union; auto.
  - intros i [->%elem_of_singleton|?]%elem_of_union; auto.
Qed.

Section MatchSlidesProofs.

Variable toLowerCase : jsstring -> jsstring.

Local Abbreviation norm := (normalizeTitleForMatching toLowerCase).

(** What the inner loop of phase 1 does, scanning from [start]: it stops at
    the first index that is not matched yet and carries an equal
    normalised title, or leaves the state as it is when there is none. *)
Lemma phase1_scan_spec afterSlides beforeSlide bi st rest start :
  rest = drop start afterSlides ->
  let free aj := (aj ∉ matchedAfterIndices st) /\
                 (exists s, afterSlides !! aj = Some s /\
                            norm (title beforeSlide) = norm (title s)) in
  (phase1_scan toLowerCase beforeSlide bi rest start st = st /\
   forall aj, start <= aj -> ~ free aj) \/
  (exists aj s,
     start <= aj /\ afterSlides !! aj = Some s /\ free aj /\
     (forall aj', start <= aj' < aj -> ~ free aj') /\
     phase1_scan toLowerCase beforeSlide bi rest start st =
     push_matched st
       (mkSlideMatch (Some beforeSlide) (Some s) (Some bi) (Some aj) by_title)
       bi aj).
Proof.
  intros Hrest free. revert start Hrest.
  induction rest as [|s rest IH]; intros start Hrest.
  - left. split; [done|]. intros aj Hge (_ & s & Hs & _).
    apply lookup_lt_Some in Hs.
    assert (length (drop start afterSlides) = 0) as Hl by (by rewrite <- Hrest).
    rewrite length_drop in Hl. lia.
  - assert (Hs : afterSlides !! start = Some s).
    { pose proof (lookup_drop afterSlides start 0) as Hd.
      by rewrite <- Hrest, Nat.add_0_r in Hd. }
    assert (Hrest' : rest = drop (S start) afterSlides).
    { rewrite (drop_S _ _ _ Hs) in Hrest. congruence. }
    cbn [phase1_scan].
    assert (Hskip :
      ~ free start ->
      (phase1_scan toLowerCase beforeSlide bi rest (S start) st = st /\
       forall aj, start <= aj -> ~ free aj) \/
      (exists aj s0,
         start <= aj /\ afterSlides !! aj = Some s0 /\ free aj /\
         (forall aj', start <= aj' < aj -> ~ free aj') /\
         phase1_scan toLowerCase beforeSlide bi rest (S start) st =
         push_matched st
           (mkSlideMatch (Some beforeSlide) (Some s0) (Some bi) (Some aj) by_title)
           bi aj)).
    { intros Hnot. destruct (IH (S start) Hrest')
        as [[Heq Hnone]|(aj & s0 & Hge & Hs0 & Hfree & Hleast & Heq)].
      - left. split; [done|]. intros aj Hge.
        destruct (decide (aj = start)) as [->|?]; [done|]. apply Hnone. lia.
      - right. exists aj, s0. split_and!; [lia|done|done| |done].
        intros aj' Hr. destruct (decide (aj' = start)) as [->|?]; [done|].
        apply Hleast. lia. }
    case_bool_decide as Hin.
    { apply Hskip. intros [? _]. done. }
    case_bool_decide as Hnorm.
    + right. exists start, s. split_and!; [lia|done| |intros; lia|done].
      split; [done|]. eauto.
    + apply Hskip. intros (_ & s' & Hs' & Hn). congruence.
Qed.

Lemma phase1_scan_ok nb afterSlides beforeSlide bi st :
  indices_ok nb (length afterSlides) st ->
  bi ∉ matchedBeforeIndices st -> bi < nb ->
  let st' := phase1_scan toLowerCase beforeSlide bi afterSlides 0 st in
  indices_ok nb (length afterSlides) st' /\
  (forall i, i ∈ matchedBeforeIndices st' -> i ∈ matchedBeforeIndices st \/ i = bi).
Proof.
  intros Hok Hbi Hlt.
  destruct (phase1_scan_spec afterSlides beforeSlide bi st afterSlides 0)
    as [[-> _]|(aj & s & _ & Hs & [Hfree _] & _ & ->)]; [done| |].
  - cbn. auto.
  - cbn zeta. split.
    + apply push_matched_ok; try done. by apply lookup_lt_Some in Hs.
    + cbn. set_solver.
Qed.

Lemma phase1_ok (beforeSlides afterSlides : list MarkdownSlide) rest k st :
  indices_ok (length beforeSlides) (length afterSlides) st ->
  (forall i, i ∈ matchedBeforeIndices st -> i < k) ->
  k + length rest = length beforeSlides ->
  indices_ok (length beforeSlides) (length afterSlides)
    (phase1 toLowerCase rest k afterSlides st).
Proof.
  revert k st. induction rest as [|s rest IH]; intros k st Hok Hlt Hlen; [done|].
  cbn [phase1]. cbn [length] in Hlen.
  destruct (phase1_scan_ok (length beforeSlides) afterSlides s k st) as [Hok' Hsub];
    [done|intros ?%Hlt; lia|lia|].
  apply IH; [done| |lia].
  intros i [?%Hlt| ->]%Hsub; lia.
Qed.

Lemma imap_index_seq {A} (l : list A) : imap (fun i _ => i) l = seq 0 (length l).
Proof. rewrite (imap_seq_0 l (fun i => i)). apply list_fmap_id. Qed.

Lemma unmatched_indices_spec slides (matched : gset nat) :
  NoDup (unmatched_indices slides matched) /\
  forall i, i ∈ unmatched_indices slides matched <->
            i < length slides /\ i ∉ matched.
Proof.
  unfold unmatched_indices. rewrite imap_index_seq. split.
  - apply NoDup_ListNoDup, List.NoDup_filter, NoDup_ListNoDup, NoDup_seq.
  - intros i. rewrite list_elem_of_In, filter_In, <- list_elem_of_In, elem_of_seq.
    rewrite negb_true_iff, bool_decide_eq_false. split; intros [? ?]; split; (done || lia).
Qed.

Lemma phase2_ok (beforeSlides afterSlides : list MarkdownSlide) st :
  indices_ok (length beforeSlides) (length afterSlides) st ->
  indices_ok (length beforeSlides) (length afterSlides)
    (phase2 beforeSlides afterSlides st).
Proof.
  intros Hok. unfold phase2.
  destruct (unmatched_indices_spec beforeSlides (matchedBeforeIndices st))
    as [Hnb Hub].
  destruct (unmatched_indices_spec afterSlides (matchedAfterIndices st))
    as [Hna Hua].
  set (ub := unmatched_indices beforeSlides (matchedBeforeIndices st)) in *.
  set (ua := unmatched_indices afterSlides (matchedAfterIndices st)) in *.
  refine (proj1 (foldl_seq_ind
    (fun k s =>
       indices_ok (length beforeSlides) (length afterSlides) s /\
       (forall i, i ∈ matchedBeforeIndices s ->
                  i ∈ matchedBeforeIndices st \/ exists t, t < k /\ ub !! t = Some i) /\
       (forall i, i ∈ matchedAfterIndices s ->
                  i ∈ matchedAfterIndices st \/ exists t, t < k /\ ua !! t = Some i))
    _ st _ _ _)).
  { split_and!; [done|auto..]. }
  intros k s Hk (Hs & Hsb & Hsa).
  destruct (lookup_lt_is_Some_2 ub k) as [bi Hbi]; [lia|].
  destruct (lookup_lt_is_Some_2 ua k) as [ai Hai]; [lia|].
  rewrite (list_lookup_total_correct _ _ _ Hbi),
          (list_lookup_total_correct _ _ _ Hai).
  assert (Hbi' : bi ∈ ub) by (by eapply list_elem_of_lookup_2).
  assert (Hai' : ai ∈ ua) by (by eapply list_elem_of_lookup_2).
  apply Hub in Hbi' as [Hbl Hbn]. apply Hua in Hai' as [Hal Han].
  split_and!.
  - apply push_matched_ok; try done.
    + intros [?|(t & Ht & Hti)]%Hsb; [done|].
      pose proof (NoDup_lookup _ _ _ _ Hnb Hti Hbi). lia.
    + intros [?|(t & Ht & Hti)]%Hsa; [done|].
      pose proof (NoDup_lookup _ _ _ _ Hna Hti Hai). lia.
  - cbn. intros i [->%elem_of_singleton|[?|(t & Ht & Hti)]%Hsb]%elem_of_union.
    + right. exists k. split; [lia|done].
    + by left.
    + right. exists t. split; [lia|done].
  - cbn. intros i [->%elem_of_singleton|[?|(t & Ht & Hti)]%Hsa]%elem_of_union.
    + right. exists k. split; [lia|done].
    + by left.
    + right. exists t. split; [lia|done].
Qed.

End MatchSlidesProofs.

Lemma phase3_removed_spec beforeSlides st :
  NoDup (before_indices (matches st)) ->
  (forall i, i ∈ before_indices (matches st) <-> i ∈ matchedBeforeIndices st) ->
  (forall i, i ∈ matchedBeforeIndices st -> i < length beforeSlides) ->
  let st' := phase3_removed beforeSlides st in
  matchedAfterIndices st' = matchedAfterIndices st /\
  after_indices (matches st') = after_indices (matches st) /\
  NoDup (before_indices (matches st')) /\
  (forall i, i ∈ before_indices (matches st') <-> i < length beforeSlides).
Proof.
  intros Hnd Hmem Hrange. unfold phase3_removed.
  assert (H : let s := foldl
      (fun st beforeIndex =>
         if negb (bool_decide (beforeIndex ∈ matchedBeforeIndices st))
         then push_only st
                (mkSlideMatch (beforeSlides !! beforeIndex) None
                              (Some beforeIndex) None by_none)
         else st) st (seq 0 (length beforeSlides)) in
    matchedBeforeIndices s = matchedBeforeIndices st /\
    matchedAfterIndices s = matchedAfterIndices st /\
    after_indices (matches s) = after_indices (matches st) /\
    NoDup (before_indices (matches s)) /\
    (forall i, i ∈ before_indices (matches s) <->
               i ∈ matchedBeforeIndices st \/ i < length beforeSlides)).
  { apply (foldl_seq_ind (fun k s =>
      matchedBeforeIndices s = matchedBeforeIndices st /\
      matchedAfterIndices s = matchedAfterIndices st /\
      after_indices (matches s) = after_indices (matches st) /\
      NoDup (before_indices (matches s)) /\
      (forall i, i ∈ before_indices (matches s) <->
                 i ∈ matchedBeforeIndices st \/ i < k))).
    - split_and!; [done..|]. intros i. rewrite Hmem. split; [auto|]. intros [?|?]; [done|lia].
    - intros k s Hk (HB & HA & Hai & Hnd' & Hmem'). rewrite HB.
      case_bool_decide as Hin; cbn [negb].
      + split_and!; [done..|]. intros i. rewrite Hmem'.
        split; [intros [?|?]; [by left|right; lia]|].
        intros [?|?]; [by left|].
        destruct (decide (i = k)) as [->|?]; [by left|right; lia].
      + unfold push_only. cbn [matches matchedBeforeIndices matchedAfterIndices].
        rewrite before_indices_snoc, after_indices_snoc. cbn [beforeIndex afterIndex].
        rewrite app_nil_r. split_and!; [done..| |].
        * apply NoDup_snoc_fresh; [done|]. rewrite Hmem'. intros [?|?]; [done|lia].
        * intros i. rewrite elem_of_app, list_elem_of_singleton, Hmem'.
          split; [intros [[?|?]| ->]; [by left|right; lia|right; lia]|].
          intros [?|?]; [by left; left|].
          destruct (decide (i = k)) as [->|?]; [by right|left; right; lia]. }
  destruct H as (_ & HA & Hai & Hnd' & Hmem'). split_and!; [done..|].
  intros i. rewrite Hmem'. split; [intros [?%Hrange|?]; done|auto].
Qed.

Lemma phase3_added_spec afterSlides st :
  NoDup (after_indices (matches st)) ->
  (forall i, i ∈ after_indices (matches st) <-> i ∈ matchedAfterIndices st) ->
  (forall i, i ∈ matchedAfterIndices st -> i < length afterSlides) ->
  let st' := phase3_added afterSlides st in
  before_indices (matches st') = before_indices (matches st) /\
  NoDup (after_indices (matches st')) /\
  (forall i, i ∈ after_indices (matches st') <-> i < length afterSlides).
Proof.
  intros Hnd Hmem Hrange. unfold phase3_added.
  assert (H : let s := foldl
      (fun st afterIndex =>
         if negb (bool_decide (afterIndex ∈ matchedAfterIndices st))
         then push_only st
                (mkSlideMatch None (afterSlides !! afterIndex)
                              None (Some afterIndex) by_none)
         else st) st (seq 0 (length afterSlides)) in
    matchedAfterIndices s = matchedAfterIndices st /\
    before_indices (matches s) = before_indices (matches st) /\
    NoDup (after_indices (matches s)) /\
    (forall i, i ∈ after_indices (matches s) <->
               i ∈ matchedAfterIndices st \/ i < length afterSlides)).
  { apply (foldl_seq_ind (fun k s =>
      matchedAfterIndices s = matchedAfterIndices st /\
      before_indices (matches s) = before_indices (matches st) /\
      NoDup (after_indices (matches s)) /\
      (forall i, i ∈ after_indices (matches s) <->
                 i ∈ matchedAfterIndices st \/ i < k))).
    - split_and!; [done..|]. intros i. rewrite Hmem. split; [auto|]. intros [?|?]; [done|lia].
    - intros k s Hk (HA & Hbi & Hnd' & Hmem'). rewrite HA.
      case_bool_decide as Hin; cbn [negb].
      + split_and!; [done..|]. intros i. rewrite Hmem'.
        split; [intros [?|?]; [by left|right; lia]|].
        intros [?|?]; [by left|].
        destruct (decide (i = k)) as [->|?]; [by left|right; lia].
      + unfold push_only. cbn [matches matchedBeforeIndices matchedAfterIndices].
        rewrite before_indices_snoc, after_indices_snoc. cbn [beforeIndex afterIndex].
        rewrite app_nil_r. split_and!; [done..| |].
        * apply NoDup_snoc_fresh; [done|]. rewrite Hmem'. intros [?|?]; [done|lia].
        * intros i. rewrite elem_of_app, list_elem_of_singleton, Hmem'.
          split; [intros [[?|?]| ->]; [by left|right; lia|right; lia]|].
          intros [?|?]; [by left; left|].
          destruct (decide (i = k)) as [->|?]; [by right|left; right; lia]. }
  destruct H as (HA & Hbi & Hnd' & Hmem'). split_and!; [done..|].
  intros i. rewrite Hmem'. split; [intros [?%Hrange|?]; done|auto].
Qed.

Lemma sort_insert_perm x l : sort_insert x l ≡ₚ x :: l.
Proof.
  induction l as [|y l IH]; cbn; [done|].
  destruct (sort_index x <=? sort_index y); [done|].
  rewrite IH. apply Permutation_swap.
Qed.

Lemma sort_matches_perm l : sort_matches l ≡ₚ l.
Proof.
  induction l as [|x l IH]; cbn; [done|].
  by rewrite sort_insert_perm, IH.
Qed.

Lemma seq_0_characterised (l : list nat) n :
  NoDup l -> (forall i, i ∈ l <-> i < n) -> l ≡ₚ seq 0 n.
Proof.
  intros Hnd Hmem. apply NoDup_Permutation; [done|apply NoDup_seq|].
  intros i. rewrite Hmem, elem_of_seq. lia.
Qed.

Lemma matchSlides_indices toLowerCase (beforeSlides afterSlides : list MarkdownSlide) :
  before_indices (matchSlides toLowerCase beforeSlides afterSlides)
    ≡ₚ seq 0 (length beforeSlides) /\
  after_indices (matchSlides toLowerCase beforeSlides afterSlides)
    ≡ₚ seq 0 (length afterSlides).
Proof.
  unfold matchSlides.
  set (st1 := phase1 toLowerCase beforeSlides 0 afterSlides (mkMatchState [] ∅ ∅)).
  assert (H1 : indices_ok (length beforeSlides) (length afterSlides) st1).
  { apply (phase1_ok toLowerCase beforeSlides afterSlides); [|cbn; set_solver|done].
    unfold indices_ok. cbn.
    split_and!; try apply NoDup_nil_2; try set_solver. }
  pose proof (phase2_ok beforeSlides afterSlides st1 H1)
    as (Hnb & Hna & Hb & Ha & Hbr & Har).
  set (st2 := phase2 beforeSlides afterSlides st1) in *.
  destruct (phase3_removed_spec beforeSlides st2 Hnb Hb Hbr)
    as (HA3 & Hai3 & Hnd3 & Hmem3).
  set (st3 := phase3_removed beforeSlides st2) in *.
  destruct (phase3_added_spec afterSlides st3) as (Hbi4 & Hnd4 & Hmem4).
  { by rewrite Hai3. }
  { intros i. by rewrite Hai3, HA3. }
  { intros i. rewrite HA3. apply Har. }
  unfold before_indices, after_indices. rewrite !sort_matches_perm.
  split; apply seq_0_characterised; try done.
  - fold (before_indices (matches (phase3_added afterSlides st3))). by rewrite Hbi4.
  - intros i. fold (before_indices (matches (phase3_added afterSlides st3))).
    by rewrite Hbi4.
Qed.

Lemma count_status_total s d :
  summary_total (count_status s d) = summary_total s + 1.
Proof.
  destruct s. unfold count_status, summary_total.
  destruct (status d); cbn; lia.
Qed.

Lemma foldl_count_status_total l s :
  summary_total (foldl count_status s l) = summary_total s + length l.
Proof.
  revert s. induction l as [|d l IH]; intros s; cbn; [lia|].
  rewrite IH, count_status_total. lia.
Qed.

Lemma createSlideDiff_total m : is_Some (createSlideDiff m).
Proof.
  unfold createSlideDiff.
  destruct (beforeSlide m) as [b|], (afterSlide m) as [a|]; try done.
  destruct (slidesAreEqual b a); [done|].
  destruct (diffText_spec (content (location b)) (content (location a)))
    as (r & -> & _). done.
Qed.

Lemma diffPresentations_total toLowerCase before after :
  exists diff,
    diffPresentations toLowerCase before after = Some diff /\
    length (slideDiffs diff)
      = length (matchSlides toLowerCase (slides before) (slides after)) /\
    summary diff = calculateDiffSummary diff.
Proof.
  unfold diffPresentations.
  destruct (mapM_is_Some_2 createSlideDiff
              (matchSlides toLowerCase (slides before) (slides after)))
    as [ds Hds].
  { apply Forall_forall. intros m _. apply createSlideDiff_total. }
  rewrite Hds. cbn. eexists. split; [done|]. cbn.
  split; [symmetry; by eapply length_mapM|done].
Qed.

(** C1. For every pair of presentations, the before-indices that occur in
    the correspondences returned by [matchSlides] are, up to order, exactly
    [0 .. length before - 1], each once, and likewise the after-indices; the
    five status counts of [calculateDiffSummary] add up to the number of
    slide diffs, for any diff and so for the one [diffPresentations]
    returns, which has one slide diff per correspondence. *)
Theorem matchSlides_partition (toLowerCase : jsstring -> jsstring)
    (before after : MarkdownPresentation) :
  before_indices (matchSlides toLowerCase (slides before) (slides after))
    ≡ₚ seq 0 (length (slides before)) /\
  after_indices (matchSlides toLowerCase (slides before) (slides after))
    ≡ₚ seq 0 (length (slides after)) /\
  (forall diff : PresentationDiff,
     summary_total (calculateDiffSummary diff) = length (slideDiffs diff)) /\
  (exists diff,
     diffPresentations toLowerCase before after = Some diff /\
     length (slideDiffs diff)
       = length (matchSlides toLowerCase (slides before) (slides after)) /\
     summary_total (summary diff) = length (slideDiffs diff)).
Proof.
  destruct (matchSlides_indices toLowerCase (slides before) (slides after))
    as [Hb Ha].
  assert (Hsum : forall diff : PresentationDiff,
     summary_total (calculateDiffSummary diff) = length (slideDiffs diff)).
  { intros diff. unfold calculateDiffSummary.
    by rewrite foldl_count_status_total. }
  split_and!; [done|done|done|].
  destruct (diffPresentations_total toLowerCase before after)
    as (diff & Hd & Hlen & Hs).
  exists diff. split_and!; [done|done|]. rewrite Hs. apply Hsum.
Qed.

(** ** [matchSlides], phase 1: first available match by title *)

Section TitleMatchingProofs.

Variable toLowerCase : jsstring -> jsstring.
Variables beforeSlides afterSlides : list MarkdownSlide.

Local Abbreviation tpair := (title_pair beforeSlides afterSlides).
Local Abbreviation agree := (titles_agree toLowerCase beforeSlides afterSlides).
Local Abbreviation taken := (taken_earlier beforeSlides afterSlides).
Local Abbreviation ffree := (first_free toLowerCase beforeSlides afterSlides).

Lemma title_pair_snoc ms m bi aj :
  tpair (ms ++ [m]) bi aj <->
  tpair ms bi aj \/
  (matchedBy m = by_title /\ beforeIndex m = Some bi /\ afterIndex m = Some aj /\
   beforeSlide m = beforeSlides !! bi /\ afterSlide m = afterSlides !! aj).
Proof.
  unfold title_pair. split.
  - intros (m' & [Hin| ->%list_elem_of_singleton]%elem_of_app & H); [left; eauto|by right].
  - intros [(m' & Hin & H)|H].
    + exists m'. split; [apply elem_of_app; by left|done].
    + exists m. split; [apply elem_of_app; right; by apply list_elem_of_singleton|done].
Qed.

Lemma title_pair_same_titles ms ms' :
  (forall m, m ∈ ms /\ matchedBy m = by_title <->
             m ∈ ms' /\ matchedBy m = by_title) ->
  forall bi aj, tpair ms bi aj <-> tpair ms' bi aj.
Proof.
  intros H bi aj. unfold title_pair.
  split; intros (m & Hin & Ht & Hrest); exists m;
    (destruct (H m) as [H1 H2]); [destruct H1|destruct H2]; done.
Qed.

Lemma first_free_same_pairs ms ms' bi aj :
  (forall bi' aj', bi' < bi -> (tpair ms bi' aj' <-> tpair ms' bi' aj')) ->
  ffree ms bi aj <-> ffree ms' bi aj.
Proof.
  intros H.
  assert (Ht : forall aj', taken ms bi aj' <-> taken ms' bi aj').
  { intros aj'. unfold taken_earlier.
    split; intros (bi' & Hlt & Hp); exists bi'; (split; [done|]); by apply H. }
  unfold first_free. rewrite Ht.
  split; intros (Ha & Hn & Hl); (split_and!; [done|done|]);
    intros aj' Hlt Hag; apply Ht; auto.
Qed.

Lemma phase1_scan_title k st bs :
  title_inv toLowerCase beforeSlides afterSlides k st ->
  beforeSlides !! k = Some bs ->
  title_inv toLowerCase beforeSlides afterSlides (S k)
    (phase1_scan toLowerCase bs k afterSlides 0 st).
Proof.
  intros (T1 & T2 & T3) Hbs.
  assert (F1 : forall aj, taken (matches st) k aj <-> aj ∈ matchedAfterIndices st).
  { intros aj. rewrite T2. unfold taken_earlier. split.
    - intros (bi & _ & Hp). eauto.
    - intros (bi & Hp). exists bi. split; [by eapply T1|done]. }
  pose proof (phase1_scan_spec toLowerCase afterSlides bs k st afterSlides 0
                (eq_sym (drop_0 _))) as Hscan.
  cbn zeta in Hscan.
  assert (F2 : forall aj,
    ((aj ∉ matchedAfterIndices st) /\
     (exists s, afterSlides !! aj = Some s /\
                normalizeTitleForMatching toLowerCase (title bs)
                = normalizeTitleForMatching toLowerCase (title s))) <->
    agree k aj /\ aj ∉ matchedAfterIndices st).
  { intros aj. unfold titles_agree. rewrite Hbs. split.
    - intros (Hn & s & Hs & He). split; [|done]. eauto.
    - intros ((b0 & a0 & [= <-] & Ha0 & He) & Hn). split; [done|]. eauto. }
  destruct Hscan as [[-> Hnone]|(ajs & s & _ & Hs & Hfree & Hleast & ->)].
  - (* no after-slide is free: nothing is pushed *)
    split_and!.
    + intros bi aj Hp. apply T1 in Hp. lia.
    + done.
    + intros bi aj Hlt. destruct (decide (bi = k)) as [->|Hne]; [|apply T3; lia].
      split.
      * intros Hp. apply T1 in Hp. lia.
      * intros (Hag & Hnt & _). exfalso. apply (Hnone aj); [lia|].
        apply F2. split; [done|]. by rewrite <- F1.
  - (* the pair (k, ajs) is pushed *)
    set (ms := matches st) in *.
    assert (P : forall bi aj,
      tpair (ms ++ [mkSlideMatch (Some bs) (Some s) (Some k) (Some ajs) by_title])
            bi aj <->
      tpair ms bi aj \/ (bi = k /\ aj = ajs)).
    { intros bi aj. rewrite title_pair_snoc. cbn. split.
      - intros [?|(_ & [= <-] & [= <-] & _)]; auto.
      - intros [?|[-> ->]]; [by left|right]. by rewrite Hbs, Hs. }
    unfold title_inv, push_matched.
    cbn [matches matchedBeforeIndices matchedAfterIndices]. fold ms.
    apply F2 in Hfree as [Hag Hnin].
    split_and!.
    + intros bi aj [Hp|[-> _]]%P; [apply T1 in Hp; lia|lia].
    + intros aj. rewrite elem_of_union, elem_of_singleton, T2. split.
      * intros [->|(bi & Hp)]; [exists k; apply P; by right|].
        exists bi. apply P. by left.
      * intros (bi & [Hp|[_ ->]]%P); [right; eauto|by left].
    + intros bi aj Hlt.
      rewrite <- (first_free_same_pairs ms); cycle 1.
      { intros bi' aj' Hlt'. rewrite P. split; [auto|]. intros [?|[? _]]; [done|lia]. }
      rewrite P. destruct (decide (bi = k)) as [->|Hne].
      * split.
        -- intros [Hp|[_ ->]]; [apply T1 in Hp; lia|].
           split_and!; [done|by rewrite F1|].
           intros aj' Hlt' Hag'. apply F1.
           destruct (decide (aj' ∈ matchedAfterIndices st)) as [|Hn]; [done|].
           exfalso. apply (Hleast aj'); [lia|]. by apply F2.
        -- intros (Hag' & Hnt & Hl). right. split; [done|].
           rewrite F1 in Hnt.
           destruct (Nat.lt_total aj ajs) as [Hc|[->|Hc]]; [|done|].
           ++ exfalso. apply (Hleast aj); [lia|]. by apply F2.
           ++ exfalso. apply Hnin, F1, Hl; done.
      * rewrite <- T3 by lia. split; [|auto]. intros [?|[? _]]; done.
Qed.

Lemma phase1_title rest k st :
  title_inv toLowerCase beforeSlides afterSlides k st ->
  rest = drop k beforeSlides ->
  title_inv toLowerCase beforeSlides afterSlides (k + length rest)
    (phase1 toLowerCase rest k afterSlides st).
Proof.
  revert k st. induction rest as [|bs rest IH]; intros k st Hinv Hrest.
  - by rewrite Nat.add_0_r.
  - assert (Hbs : beforeSlides !! k = Some bs).
    { pose proof (lookup_drop beforeSlides k 0) as Hd.
      by rewrite <- Hrest, Nat.add_0_r in Hd. }
    cbn [phase1 length]. replace (k + S (length rest)) with (S k + length rest) by lia.
    apply IH; [by apply phase1_scan_title|].
    rewrite (drop_S _ _ _ Hbs) in Hrest. congruence.
Qed.

Lemma phase1_first_free bi aj :
  let ms := matches (phase1 toLowerCase beforeSlides 0 afterSlides
                       (mkMatchState [] ∅ ∅)) in
  tpair ms bi aj <-> ffree ms bi aj.
Proof.
  destruct (phase1_title beforeSlides 0 (mkMatchState [] ∅ ∅))
    as (T1 & T2 & T3).
  { unfold title_inv. cbn. split_and!.
    - intros ? ? (m & ?%elem_of_nil & _). done.
    - intros aj'. split; [set_solver|]. intros (? & m & ?%elem_of_nil & _). done.
    - intros; lia. }
  { by rewrite drop_0. }
  cbn zeta. cbn [Nat.add] in *.
  destruct (decide (bi < length beforeSlides)) as [Hlt|Hge]; [by apply T3|].
  split.
  - intros Hp%T1. lia.
  - intros ((b0 & a0 & Hb0%lookup_lt_Some & _) & _). lia.
Qed.

End TitleMatchingProofs.

(** Phases 2 and 3 and the final sort add no match by title and drop none. *)

Lemma snoc_other_keeps_titles ms m' :
  matchedBy m' <> by_title ->
  forall m, m ∈ ms ++ [m'] /\ matchedBy m = by_title <->
            m ∈ ms /\ matchedBy m = by_title.
Proof.
  intros Hne m. rewrite elem_of_app, list_elem_of_singleton.
  split; [|intros [? ?]; auto]. intros [[?| ->] ?]; done.
Qed.

Lemma phase2_titles beforeSlides afterSlides st m :
  m ∈ matches (phase2 beforeSlides afterSlides st) /\ matchedBy m = by_title <->
  m ∈ matches st /\ matchedBy m = by_title.
Proof.
  unfold phase2. revert m.
  apply (foldl_seq_ind (fun _ s =>
    forall m, m ∈ matches s /\ matchedBy m = by_title <->
              m ∈ matches st /\ matchedBy m = by_title)); [done|].
  intros k s _ IH m. unfold push_matched. cbn [matches].
  by rewrite snoc_other_keeps_titles.
Qed.

Lemma phase3_removed_titles beforeSlides st m :
  m ∈ matches (phase3_removed beforeSlides st) /\ matchedBy m = by_title <->
  m ∈ matches st /\ matchedBy m = by_title.
Proof.
  unfold phase3_removed. revert m.
  apply (foldl_seq_ind (fun _ s =>
    forall m, m ∈ matches s /\ matchedBy m = by_title <->
              m ∈ matches st /\ matchedBy m = by_title)); [done|].
  intros k s _ IH m.
  destruct (negb (bool_decide (k ∈ matchedBeforeIndices s))); [|done].
  unfold push_only. cbn [matches]. by rewrite snoc_other_keeps_titles.
Qed.

Lemma phase3_added_titles afterSlides st m :
  m ∈ matches (phase3_added afterSlides st) /\ matchedBy m = by_title <->
  m ∈ matches st /\ matchedBy m = by_title.
Proof.
  unfold phase3_added. revert m.
  apply (foldl_seq_ind (fun _ s =>
    forall m, m ∈ matches s /\ matchedBy m = by_title <->
              m ∈ matches st /\ matchedBy m = by_title)); [done|].
  intros k s _ IH m.
  destruct (negb (bool_decide (k ∈ matchedAfterIndices s))); [|done].
  unfold push_only. cbn [matches]. by rewrite snoc_other_keeps_titles.
Qed.

Lemma matchSlides_titles toLowerCase beforeSlides afterSlides m :
  m ∈ matchSlides toLowerCase beforeSlides afterSlides /\ matchedBy m = by_title <->
  m ∈ matches (phase1 toLowerCase beforeSlides 0 afterSlides (mkMatchState [] ∅ ∅))
  /\ matchedBy m = by_title.
Proof.
  unfold matchSlides. rewrite sort_matches_perm.
  by rewrite phase3_added_titles, phase3_removed_titles, phase2_titles.
Qed.

(** [matchSlides] uses [toLowerCase] only to compare normalised titles. *)

Lemma phase1_scan_ext f g bs bi rest start st :
  (forall s, s ∈ rest ->
     normalizeTitleForMatching f (title bs) = normalizeTitleForMatching f (title s) <->
     normalizeTitleForMatching g (title bs) = normalizeTitleForMatching g (title s)) ->
  phase1_scan f bs bi rest start st = phase1_scan g bs bi rest start st.
Proof.
  revert start. induction rest as [|s rest IH]; intros start H; [done|].
  cbn [phase1_scan].
  rewrite (bool_decide_ext _ _ (H s (list_elem_of_here _ _))).
  rewrite IH by (intros s' Hs'; apply H; by right). done.
Qed.

Lemma phase1_ext f g rest k afterSlides st :
  (forall b a, b ∈ rest -> a ∈ afterSlides ->
     normalizeTitleForMatching f (title b) = normalizeTitleForMatching f (title a) <->
     normalizeTitleForMatching g (title b) = normalizeTitleForMatching g (title a)) ->
  phase1 f rest k afterSlides st = phase1 g rest k afterSlides st.
Proof.
  revert k st. induction rest as [|b rest IH]; intros k st H; [done|].
  cbn [phase1].
  rewrite (phase1_scan_ext f g) by (intros a Ha; apply H; [left|done]).
  apply IH. intros b' a' Hb' Ha'. apply H; [by right|done].
Qed.

Lemma matchSlides_ext f g beforeSlides afterSlides :
  (forall b a, b ∈ beforeSlides -> a ∈ afterSlides ->
     normalizeTitleForMatching f (title b) = normalizeTitleForMatching f (title a) <->
     normalizeTitleForMatching g (title b) = normalizeTitleForMatching g (title a)) ->
  matchSlides f beforeSlides afterSlides = matchSlides g beforeSlides afterSlides.
Proof. intros H. unfold matchSlides. by rewrite (phase1_ext f g). Qed.

Lemma dup_titles_agree (f g : jsstring -> jsstring) b a :
  b ∈ slides dup_before -> a ∈ slides dup_after ->
  normalizeTitleForMatching f (title b) = normalizeTitleForMatching f (title a) <->
  normalizeTitleForMatching g (title b) = normalizeTitleForMatching g (title a).
Proof.
  cbn [slides dup_before dup_after].
  intros Hb Ha.
  assert (Htb : title b = lit "Same Title").
  { repeat (apply elem_of_cons in Hb as [->|Hb]; [done|]). by apply elem_of_nil in Hb. }
  assert (Hta : title a = lit "Same Title").
  { repeat (apply elem_of_cons in Ha as [->|Ha]; [done|]). by apply elem_of_nil in Ha. }
  rewrite Htb, Hta. done.
Qed.

(** C5. The correspondences by title returned by [matchSlides] are exactly
    these: before-slide [bi] is paired with after-slide [aj] when [aj] is
    the lowest-indexed after-slide whose normalised title equals that of
    [bi] among those not paired with a before-slide of lower index (and
    with none when there is no such slide).  In the duplicate-titles
    scenario the first slide diff is [modified] and the second
    [unchanged], whatever [toLowerCase] is. *)
Theorem matchSlides_first_available_title (toLowerCase : jsstring -> jsstring) :
  (forall (beforeSlides afterSlides : list MarkdownSlide) (bi aj : nat),
     let ms := matchSlides toLowerCase beforeSlides afterSlides in
     title_pair beforeSlides afterSlides ms bi aj <->
     first_free toLowerCase beforeSlides afterSlides ms bi aj) /\
  (exists diff,
     diffPresentations toLowerCase dup_before dup_after = Some diff /\
     map status (slideDiffs diff) = [DiffStatus.modified; DiffStatus.unchanged]).
Proof.
  split.
  - intros beforeSlides afterSlides bi aj ms.
    pose proof (title_pair_same_titles beforeSlides afterSlides _ _
                  (matchSlides_titles toLowerCase beforeSlides afterSlides)) as Hp.
    fold ms in Hp.
    rewrite (first_free_same_pairs toLowerCase beforeSlides afterSlides ms _ bi aj
               (fun bi' aj' _ => Hp bi' aj')).
    rewrite Hp. apply phase1_first_free.
  - unfold diffPresentations.
    rewrite (matchSlides_ext toLowerCase (fun s => s))
      by apply dup_titles_agree.
    eexists. split; [vm_compute; reflexivity|]. reflexivity.
Qed.

(** ** Title changes *)

(** C6 (amended). For every matched correspondence whose titles differ as
    exact strings, [titleChanged] is set and the status is [modified]
    exactly when the normalised contents differ; when they are equal the
    pair is [unchanged] (equal indices) or [moved] (different indices). *)
Theorem title_change_status (m : SlideMatch) (b a : MarkdownSlide) :
  beforeSlide m = Some b -> afterSlide m = Some a ->
  title b <> title a ->
  exists d,
    createSlideDiff m = Some d /\
    titleChanged d = true /\
    (status d = DiffStatus.modified <->
     normalizeText (content (location b)) <> normalizeText (content (location a))) /\
    (normalizeText (content (location b)) = normalizeText (content (location a)) ->
     status d = if bool_decide (beforeIndex m = afterIndex m)
                then DiffStatus.unchanged else DiffStatus.moved).
Proof.
  intros Hb Ha Ht. unfold createSlideDiff. rewrite Hb, Ha.
  rewrite (bool_decide_eq_false_2 _ Ht). cbn [negb].
  destruct (slidesAreEqual b a) eqn:Eq.
  - apply slidesAreEqual_spec in Eq.
    eexists. split; [done|]. cbn. split_and!; [done| |].
    + split; [|done]. by case_bool_decide.
    + intros _. by case_bool_decide.
  - assert (Hne : normalizeText (content (location b))
                  <> normalizeText (content (location a))).
    { rewrite <- slidesAreEqual_spec. by rewrite Eq. }
    destruct (diffText_spec (content (location b)) (content (location a)))
      as (r & -> & _). cbn.
    eexists. split; [done|]. cbn. split_and!; done.
Qed.

Lemma title_change_status_witness :
  exists d,
    createSlideDiff indented_match = Some d /\
    titleChanged d = true /\
    status d = DiffStatus.unchanged.
Proof.
  destruct (title_change_status indented_match indented_slide plain_slide
              eq_refl eq_refl)
    as (d & Hd & Ht & _ & Hs).
  { vm_compute. discriminate. }
  exists d. split_and!; [exact Hd|exact Ht|].
  apply Hs. reflexivity.
Defined.

(** C6, counterexample.  The documents [" Hello"] and ["Hello"] give slides
    whose titles differ and whose normalised contents are equal: they are
    matched by title and classified [unchanged], with [titleChanged]. *)
Lemma title_change_not_modified :
  title indented_slide = extractSlideTitle (content (location indented_slide)) /\
  title plain_slide = extractSlideTitle (content (location plain_slide)) /\
  title indented_slide <> title plain_slide /\
  matchSlides toLowerCaseASCII [indented_slide] [plain_slide] = [indented_match] /\
  createSlideDiff indented_match =
    Some (mkSlideDiff DiffStatus.unchanged (Some indented_slide) (Some plain_slide)
            (Some 0) (Some 0) None true) /\
  ~ (forall m b a d,
       beforeSlide m = Some b -> afterSlide m = Some a -> title b <> title a ->
       createSlideDiff m = Some d -> status d = DiffStatus.modified).
Proof.
  assert (Hne : title indented_slide <> title plain_slide).
  { vm_compute. discriminate. }
  split_and!; [reflexivity|reflexivity|exact Hne|vm_compute; reflexivity|reflexivity|].
  intros H.
  specialize (H indented_match indented_slide plain_slide _ eq_refl eq_refl Hne eq_refl).
  discriminate H.
Qed.

(** ** [updatePresentationSlide] *)

Section UpdateProofs.

Variable CustomParser : Type.
Variable parseMarkdownChunks :
  jsstring -> jsstring -> option (list CustomParser) -> list BaseChunk.

Local Abbreviation update := (updatePresentationSlide CustomParser parseMarkdownChunks).

Lemma update_out_of_range h p slideIndex newContent customParsers slides :
  h !! obj_slides p = Some slides ->
  (slideIndex < 0 \/ Z.of_nat (length slides) <= slideIndex)%Z ->
  update h p slideIndex newContent customParsers =
  (h, inl (Error (lit "Invalid slide index"))).
Proof.
  intros Hs Hr. unfold updatePresentationSlide. rewrite Hs.
  destruct (Z.ltb_spec slideIndex 0); [done|].
  destruct (Z.leb_spec (Z.of_nat (length slides)) slideIndex); [done|]. lia.
Qed.

Lemma update_in_range h p slideIndex newContent customParsers slides :
  h !! obj_slides p = Some slides ->
  (0 <= slideIndex < Z.of_nat (length slides))%Z ->
  exists slide,
    slides !! Z.to_nat slideIndex = Some slide /\
    let slide' :=
      mkSlide (slide_id slide) (extractSlideTitle newContent)
        (mkLocation (startLine (location slide)) (endLine (location slide))
                    newContent)
        (parseMarkdownChunks newContent (slide_id slide) customParsers) in
    let contents := <[Z.to_nat slideIndex := slide']> slides in
    update h p slideIndex newContent customParsers =
    (<[fresh (dom h) := contents]> h,
     inr (mkPresentationObject (obj_source p) (fresh (dom h))
            (serializePresentationToMarkdown contents) (obj_repositoryInfo p))).
Proof.
  intros Hs Hr. unfold updatePresentationSlide. rewrite Hs.
  destruct (Z.ltb_spec slideIndex 0); [lia|].
  destruct (Z.leb_spec (Z.of_nat (length slides)) slideIndex); [lia|].
  cbn [orb].
  destruct (lookup_lt_is_Some_2 slides (Z.to_nat slideIndex)) as [slide Hslide];
    [lia|].
  exists slide. split; [done|]. rewrite Hslide. cbn zeta.
  by rewrite insert_insert_eq.
Qed.

End UpdateProofs.

(** C8. On a presentation whose slides are [slides], [updatePresentationSlide]
    throws the error "Invalid slide index" if and only if
    [slideIndex < 0] or [slideIndex >= slides.length]; when it does, the
    store is left as it was, so the presentation passed in has the value it
    had, and no presentation is returned. *)
Theorem updatePresentationSlide_invalid_index
    (CustomParser : Type)
    (parseMarkdownChunks :
       jsstring -> jsstring -> option (list CustomParser) -> list BaseChunk)
    (h : gmap loc (list MarkdownSlide)) (p : PresentationObject)
    (slideIndex : Z) (newContent : jsstring)
    (customParsers : option (list CustomParser))
    (slides : list MarkdownSlide) :
  h !! obj_slides p = Some slides ->
  let r := updatePresentationSlide CustomParser parseMarkdownChunks
             h p slideIndex newContent customParsers in
  (r.2 = inl (Error (lit "Invalid slide index")) <->
   (slideIndex < 0 \/ Z.of_nat (length slides) <= slideIndex)%Z) /\
  (r.2 = inl (Error (lit "Invalid slide index")) ->
   r.1 = h /\ presentation_value r.1 p = presentation_value h p).
Proof.
  intros Hs r.
  assert (Hiff : r.2 = inl (Error (lit "Invalid slide index")) <->
                 (slideIndex < 0 \/ Z.of_nat (length slides) <= slideIndex)%Z).
  { split.
    - intros Hr.
      destruct (decide (slideIndex < 0 \/ Z.of_nat (length slides) <= slideIndex)%Z)
        as [|Hin]; [done|].
      destruct (update_in_range CustomParser parseMarkdownChunks h p slideIndex
                  newContent customParsers slides Hs) as (slide & _ & Heq); [lia|].
      cbn zeta in Heq. subst r. rewrite Heq in Hr. discriminate Hr.
    - intros Hr. subst r. by rewrite (update_out_of_range _ _ _ _ _ _ _ slides). }
  split; [done|].
  intros Hr%Hiff. subst r.
  by rewrite (update_out_of_range _ _ _ _ _ _ _ slides).
Qed.

Lemma updatePresentationSlide_invalid_index_witness :
  (updatePresentationSlide unit no_chunks sample_store sample_object 2
     (lit "# New") None).2 = inl (Error (lit "Invalid slide index")) /\
  (updatePresentationSlide unit no_chunks sample_store sample_object 2
     (lit "# New") None).1 = sample_store.
Proof.
  destruct (updatePresentationSlide_invalid_index unit no_chunks
              sample_store sample_object 2 (lit "# New") None
              [sample_slide "Slide 1" "# Slide 1"; sample_slide "Slide 2" "# Slide 2"]
              eq_refl) as [Hiff Hsame].
  assert (Hr : (updatePresentationSlide unit no_chunks sample_store sample_object 2
                  (lit "# New") None).2 = inl (Error (lit "Invalid slide index"))).
  { apply Hiff. right. cbn. lia. }
  split; [exact Hr|]. apply Hsame, Hr.
Defined.

(** C10. For every valid [slideIndex], [updatePresentationSlide] returns a
    presentation whose slides array has the length of the input's and the
    same slide at every other index; the slide at [slideIndex] keeps its
    [id], [startLine] and [endLine], and gets the new content, the title
    extracted from it and the chunks parsed from it.  The array of the
    input is left as it was. *)
Theorem updatePresentationSlide_frame
    (CustomParser : Type)
    (parseMarkdownChunks :
       jsstring -> jsstring -> option (list CustomParser) -> list BaseChunk)
    (h : gmap loc (list MarkdownSlide)) (p : PresentationObject)
    (slideIndex : Z) (newContent : jsstring)
    (customParsers : option (list CustomParser))
    (slides : list MarkdownSlide) :
  h !! obj_slides p = Some slides ->
  (0 <= slideIndex < Z.of_nat (length slides))%Z ->
  exists h' p' slides' slide slide',
    updatePresentationSlide CustomParser parseMarkdownChunks
      h p slideIndex newContent customParsers = (h', inr p') /\
    h' !! obj_slides p = Some slides /\
    h' !! obj_slides p' = Some slides' /\
    length slides' = length slides /\
    (forall j, j <> Z.to_nat slideIndex -> slides' !! j = slides !! j) /\
    slides !! Z.to_nat slideIndex = Some slide /\
    slides' !! Z.to_nat slideIndex = Some slide' /\
    slide_id slide' = slide_id slide /\
    startLine (location slide') = startLine (location slide) /\
    endLine (location slide') = endLine (location slide) /\
    content (location slide') = newContent /\
    title slide' = extractSlideTitle newContent /\
    chunks slide' = parseMarkdownChunks newContent (slide_id slide) customParsers.
Proof.
  intros Hs Hr.
  destruct (update_in_range CustomParser parseMarkdownChunks h p slideIndex
              newContent customParsers slides Hs Hr) as (slide & Hslide & Heq).
  cbn zeta in Heq. rewrite Heq.
  set (slide' := mkSlide (slide_id slide) (extractSlideTitle newContent)
        (mkLocation (startLine (location slide)) (endLine (location slide))
                    newContent)
        (parseMarkdownChunks newContent (slide_id slide) customParsers)).
  exists (<[fresh (dom h) := <[Z.to_nat slideIndex := slide']> slides]> h).
  eexists.
  exists (<[Z.to_nat slideIndex := slide']> slides), slide, slide'.
  split; [reflexivity|].
  cbn [obj_slides]. rewrite lookup_insert_eq.
  split_and!; try done.
  - rewrite lookup_insert_ne; [done|].
    intros Heq'. apply (is_fresh (dom h)). rewrite Heq'.
    apply elem_of_dom. by rewrite Hs.
  - apply length_insert.
  - intros j Hj. by apply list_lookup_insert_ne.
  - apply list_lookup_insert_eq. lia.
Qed.

Lemma updatePresentationSlide_frame_witness :
  exists h' p' slides',
    updatePresentationSlide unit no_chunks sample_store sample_object 1
      (lit "# New") None = (h', inr p') /\
    h' !! obj_slides p' = Some slides' /\
    slides' !! 0 = Some (sample_slide "Slide 1" "# Slide 1") /\
    (title <$> slides' !! 1) = Some (lit "New").
Proof.
  destruct (updatePresentationSlide_frame unit no_chunks
              sample_store sample_object 1 (lit "# New") None
              [sample_slide "Slide 1" "# Slide 1"; sample_slide "Slide 2" "# Slide 2"]
              eq_refl)
    as (h' & p' & slides' & slide & slide' & Heq & _ & Hh & _ & Hother & _ & Hat
        & _ & _ & _ & _ & Ht & _).
  { cbn. lia. }
  exists h', p', slides'. split_and!; [exact Heq|exact Hh| |].
  - rewrite (Hother 0); [reflexivity|]. cbn. lia.
  - change (Z.to_nat 1) with 1 in Hat. rewrite Hat. cbn. by rewrite Ht.
Defined.

(** ** The embedding on the cases of the repository's test suite *)

Example diffText_additions :
  diffText (join LF [lit "line 1"; lit "line 2"]) (join LF [lit "line 1"; lit "line 2"; lit "line 3"]) =
  Some [mkTextDiff unchanged (lit "line 1") (Some 1);
        mkTextDiff unchanged (lit "line 2") (Some 2);
        mkTextDiff add (lit "line 3") (Some 3)].
Proof. reflexivity. Qed.

Example diffText_deletions :
  diffText (join LF [lit "line 1"; lit "line 2"; lit "line 3"]) (join LF [lit "line 1"; lit "line 3"]) =
  Some [mkTextDiff unchanged (lit "line 1") (Some 1);
        mkTextDiff remove (lit "line 2") (Some 2);
        mkTextDiff unchanged (lit "line 3") (Some 3)].
Proof. reflexivity. Qed.

Example diffText_multi_line :
  diffText (join LF [lit "A"; lit "B"; lit "C"; lit "D"; lit "E"]) (join LF [lit "A"; lit "X"; lit "C"; lit "Y"; lit "E"]) =
  Some [mkTextDiff unchanged (lit "A") (Some 1);
        mkTextDiff remove (lit "B") (Some 2);
        mkTextDiff add (lit "X") (Some 3);
        mkTextDiff unchanged (lit "C") (Some 4);
        mkTextDiff remove (lit "D") (Some 5);
        mkTextDiff add (lit "Y") (Some 6);
        mkTextDiff unchanged (lit "E") (Some 7)].
Proof. reflexivity. Qed.

Example diffText_empty : diffText [] [] = Some [].
Proof. reflexivity. Qed.

Example diffText_add_to_empty :
  diffText [] (lit "new line") = Some [mkTextDiff add (lit "new line") (Some 1)].
Proof. reflexivity. Qed.

Example diffText_remove_all :
  diffText (lit "old line") [] = Some [mkTextDiff remove (lit "old line") (Some 1)].
Proof. reflexivity. Qed.

Example normalizeText_line_endings :
  normalizeText (lit "line1" ++ [CR; LF] ++ lit "line2" ++ [CR; LF] ++ lit "line3")
  = join LF [lit "line1"; lit "line2"; lit "line3"].
Proof. reflexivity. Qed.

Example normalizeText_trailing :
  normalizeText (join LF [lit "line1  "; lit "line2   "]) = join LF [lit "line1"; lit "line2"].
Proof. reflexivity. Qed.

Example normalizeText_only_white_space :
  normalizeText (join LF [lit "   "; lit "  "; lit "   "]) = [].
Proof. reflexivity. Qed.

Example normalizeText_internal_spacing :
  normalizeText (lit "hello  world") = lit "hello  world".
Proof. reflexivity. Qed.

Example extractSlideTitle_heading :
  extractSlideTitle (join LF [lit "# My Title"; []; lit "Some content"]) = lit "My Title".
Proof. reflexivity. Qed.

Example extractSlideTitle_first_line :
  extractSlideTitle (join LF [lit "This is the first line"; lit "Second line"])
  = lit "This is the first line".
Proof. reflexivity. Qed.

Example extractSlideTitle_truncated :
  extractSlideTitle (replicate 60 65%N) = replicate 47 65%N ++ lit "...".
Proof. reflexivity. Qed.

Example extractSlideTitle_empty : extractSlideTitle [] = lit "Untitled Slide".
Proof. reflexivity. Qed.

Example diffPresentations_pure_addition :
  (fun d => (map status (slideDiffs d), summary d)) <$>
  diffPresentations toLowerCaseASCII
    (one_slide "Slide 1" "# Slide 1")
    (mkPresentation None
       [sample_slide "Slide 1" "# Slide 1"; sample_slide "Slide 2" "# Slide 2"]
       [] None)
  = Some ([DiffStatus.unchanged; DiffStatus.added],
          DiffSummary.mk 1 2 1 0 0 1 0).
Proof. vm_compute. reflexivity. Qed.

Example diffPresentations_reordering :
  (fun d => (map status (slideDiffs d), summary d)) <$>
  diffPresentations toLowerCaseASCII
    (mkPresentation None
       [sample_slide "Slide A" "# Slide A"; sample_slide "Slide B" "# Slide B"]
       [] None)
    (mkPresentation None
       [sample_slide "Slide B" "# Slide B"; sample_slide "Slide A" "# Slide A"]
       [] None)
  = Some ([DiffStatus.moved; DiffStatus.moved],
          DiffSummary.mk 2 2 0 0 0 0 2).
Proof. vm_compute. reflexivity. Qed.

Example diffPresentations_mixed :
  map status <$> (slideDiffs <$>
  diffPresentations toLowerCaseASCII
    (mkPresentation None
       [sample_slide "Slide 1" "Content 1"; sample_slide "Slide 2" "Content 2";
        sample_slide "Slide 3" "Content 3"] [] None)
    (mkPresentation None
       [sample_slide "Slide 1" "Content 1 Modified"; sample_slide "Slide 3" "Content 3";
        sample_slide "Slide 4" "Content 4"] [] None))
  = Some [DiffStatus.modified; DiffStatus.modified; DiffStatus.moved].
Proof. vm_compute. reflexivity. Qed.

Example normalizeTitleForMatching_sample :
  normalizeTitleForMatching toLowerCaseASCII
    (lit "  Same " ++ [9%N; LF] ++ lit "  TITLE ") = lit "same title".
Proof. reflexivity. Qed.

(** * Further properties of the line differ *)

Lemma projections_length (r : list TextDiff) :
  length (before_lines_of_diff r) + length (after_lines_of_diff r)
  = length r + unchanged_count r.
Proof.
  induction r as [|[[] v n] r IH]; [done| | |].
  - destruct (diff_cons_add v n r) as (-> & -> & ->). cbn [length]. lia.
  - destruct (diff_cons_remove v n r) as (-> & -> & ->). cbn [length]. lia.
  - destruct (diff_cons_unchanged v n r) as (-> & -> & ->). cbn [length]. lia.
Qed.

Lemma number_lines_lookup r k d :
  number_lines r !! k = Some d -> lineNumber d = Some (k + 1).
Proof.
  unfold number_lines. rewrite list_lookup_imap.
  destruct (r !! k); [|done]. cbn. by intros [= <-].
Qed.

(** X1. The diff is a shortest edit script: with [n] the length of a longest
    common subsequence of the two line arrays, [diffText] returns
    [|before| + |after| - n] entries, and the entry at position [k] carries
    the line number [k + 1]. *)
Theorem diffText_length_and_numbering (before after : jsstring) :
  exists r n,
    diffText before after = Some r /\
    is_lcs_length (lines_of before) (lines_of after) n /\
    length r + n = length (lines_of before) + length (lines_of after) /\
    forall k d, r !! k = Some d -> lineNumber d = Some (k + 1).
Proof.
  destruct (diffText_spec before after) as (r & Hr & Hb & Ha & Hu).
  exists r, (unchanged_count r). split_and!; [done| | |].
  - rewrite Hu. apply lcs_rec_full.
  - by rewrite <- projections_length, Hb, Ha.
  - unfold diffText in Hr.
    destruct (bool_decide (before = []) && bool_decide (after = [])).
    { injection Hr as <-. intros k d Hk. done. }
    unfold buildDiffFromLCS in Hr.
    destruct (backtrack_loop _ _ _ _ _) as [res|]; [|done].
    cbn in Hr. injection Hr as <-. apply number_lines_lookup.
Qed.

(** X2. Diffing a text against itself yields one [unchanged] entry per line. *)
Theorem diffText_same (s : jsstring) :
  diffText s s = Some (number_lines (map unchanged_entry (lines_of s))).
Proof.
  unfold diffText. destruct (bool_decide (s = [])) eqn:E.
  { apply bool_decide_eq_true in E as ->. done. }
  cbn [andb]. unfold buildDiffFromLCS.
  set (b := lines_of s).
  pose proof (backtrack_loop_unchanged_run b b (longestCommonSubsequence b b)
                (length b) (length b) 0 0 []) as Hrun.
  cbn [Nat.add] in Hrun. rewrite Hrun.
  - rewrite backtrack_loop_done. cbn. rewrite drop_0, firstn_all, app_nil_r. done.
  - intros t Ht. destruct (lookup_lt_is_Some_2 b t) as [v Hv]; [done|]. eauto.
Qed.

Lemma backtrack_loop_add_run b a lcs i k f res :
  k <= length a ->
  (forall t, t < k ->
     i = 0 \/ (b !! (i - 1) <> a !! t /\ cell lcs (i - 1) (S t) <= cell lcs i t)) ->
  backtrack_loop (k + f) b a lcs (mkBacktrack i k res) =
  backtrack_loop f b a lcs (mkBacktrack i 0 (map add_entry (take k a) ++ res)).
Proof.
  revert res. induction k as [|k IH]; intros res Hk H; [done|].
  replace (S k + f) with (S (k + f)) by lia.
  rewrite backtrack_loop_S by lia.
  destruct (lookup_lt_is_Some_2 a k) as [v Hv]; [lia|].
  destruct (backtrack_step_cases b a lcs i (S k) res)
    as [(Hi & _ & Heq & _)|[(_ & _ & ->)|(Hi & [?|[_ Hlt]] & _)]]; [lia| | |lia|].
  - rewrite Nat.sub_succ, Nat.sub_0_r in Heq.
    destruct (H k) as [?|[Hne _]]; [lia|lia|done].
  - rewrite Nat.sub_succ, Nat.sub_0_r.
    rewrite IH by (lia || (intros t Ht; apply H; lia)).
    rewrite (take_S_r _ _ _ Hv), map_app, <- app_assoc. cbn [map app].
    by rewrite (list_lookup_total_correct _ _ _ Hv).
  - rewrite Nat.sub_succ, Nat.sub_0_r in Hlt.
    destruct (H k) as [?|[_ Hle]]; lia.
Qed.

Lemma backtrack_loop_remove_run b a lcs k f res :
  k <= length b ->
  backtrack_loop (k + f) b a lcs (mkBacktrack k 0 res) =
  backtrack_loop f b a lcs (mkBacktrack 0 0 (map remove_entry (take k b) ++ res)).
Proof.
  revert res. induction k as [|k IH]; intros res Hk; [done|].
  replace (S k + f) with (S (k + f)) by lia.
  rewrite backtrack_loop_S by lia.
  destruct (lookup_lt_is_Some_2 b k) as [v Hv]; [lia|].
  destruct (backtrack_step_cases b a lcs (S k) 0 res)
    as [(_ & ? & _)|[(? & _)|(_ & _ & ->)]]; [lia|lia|lia|].
  rewrite Nat.sub_succ, Nat.sub_0_r, IH by lia.
  rewrite (take_S_r _ _ _ Hv), map_app, <- app_assoc. cbn [map app].
  by rewrite (list_lookup_total_correct _ _ _ Hv).
Qed.

Lemma lcs_rec_disjoint (b a : list jsstring) i j :
  (forall x, x ∈ b -> x ∉ a) ->
  i <= length b -> j <= length a -> lcs_rec b a i j = 0.
Proof.
  intros Hd Hi Hj.
  destruct (lcs_rec_is_lcs_length b a i j Hi Hj) as [(c & Hb & Ha & <-) _].
  destruct c as [|x c]; [done|]. exfalso. apply (Hd x).
  - eapply elem_of_sublist; [apply list_elem_of_here|].
    etrans; [exact Hb|apply sublist_take].
  - eapply elem_of_sublist; [apply list_elem_of_here|].
    etrans; [exact Ha|apply sublist_take].
Qed.

(** X3. When the two texts share no line, the diff is every line of the first
    as [remove] entries followed by every line of the second as [add]
    entries; in particular an empty first text gives only [add] entries and
    an empty second text only [remove] entries. *)
Theorem diffText_disjoint (before after : jsstring) :
  (forall x, x ∈ lines_of before -> x ∉ lines_of after) ->
  diffText before after =
  Some (number_lines (map remove_entry (lines_of before)
                      ++ map add_entry (lines_of after))).
Proof.
  intros Hd. unfold diffText.
  destruct (bool_decide (before = []) && bool_decide (after = [])) eqn:E.
  { apply andb_true_iff in E as [->%bool_decide_eq_true ->%bool_decide_eq_true].
    done. }
  unfold buildDiffFromLCS.
  set (b := lines_of before) in *. set (a := lines_of after) in *.
  pose proof (longestCommonSubsequence_ok b a) as Hok.
  rewrite (Nat.add_comm (length b) (length a)).
  rewrite (backtrack_loop_add_run b a _ (length b) (length a)); [|done|].
  - rewrite <- (Nat.add_0_r (length b)) at 1.
    rewrite backtrack_loop_remove_run by done.
    rewrite backtrack_loop_done. cbn. by rewrite !firstn_all, app_nil_r.
  - intros t Ht.
    destruct (decide (length b = 0)) as [?|Hne]; [by left|right].
    destruct (lookup_lt_is_Some_2 b (length b - 1)) as [x Hx]; [lia|].
    destruct (lookup_lt_is_Some_2 a t) as [y Hy]; [lia|].
    split.
    + rewrite Hx, Hy. intros [= ->].
      apply (Hd y); by eapply list_elem_of_lookup_2.
    + rewrite !Hok by lia. rewrite !lcs_rec_disjoint by (done || lia). done.
Qed.

Lemma diffText_disjoint_witness :
  diffText (join LF [lit "a"; lit "b"]) (lit "c") =
  Some [mkTextDiff remove (lit "a") (Some 1);
        mkTextDiff remove (lit "b") (Some 2);
        mkTextDiff add (lit "c") (Some 3)].
Proof.
  apply (diffText_disjoint (join LF [lit "a"; lit "b"]) (lit "c")).
  intros x Hx Hc. vm_compute in Hx, Hc.
  apply list_elem_of_singleton in Hc. subst x.
  apply elem_of_cons in Hx as [Hx|Hx]; [discriminate Hx|].
  apply list_elem_of_singleton in Hx. discriminate Hx.
Defined.

(** * Further properties of [normalizeText] *)

Lemma non_white_space_app s t :
  non_white_space (s ++ t) = non_white_space s ++ non_white_space t.
Proof. apply List.filter_app. Qed.

Lemma non_white_space_replaceCRLF s :
  non_white_space (replaceCRLF s) = non_white_space s.
Proof.
  assert (H : forall s,
    non_white_space (replaceCRLF s) = non_white_space s /\
    forall c, non_white_space (replaceCRLF (c :: s)) = non_white_space (c :: s)).
  { clear s. induction s as [|d s [IH1 IH2]].
    - split; [done|]. intros c. done.
    - split; [apply IH2|]. intros c.
      change (replaceCRLF (c :: d :: s)) with
        (if (c =? CR)%N && (d =? LF)%N
         then LF :: replaceCRLF s else c :: replaceCRLF (d :: s)).
      destruct ((c =? CR)%N && (d =? LF)%N) eqn:E.
      + apply andb_true_iff in E as [->%N.eqb_eq ->%N.eqb_eq].
        unfold non_white_space in *. cbn. exact IH1.
      + unfold non_white_space in *. cbn [List.filter].
        by rewrite (IH2 d). }
  apply H.
Qed.

Lemma non_white_space_trimEnd s :
  non_white_space (trimEnd s) = non_white_space s.
Proof.
  unfold non_white_space.
  induction s as [|c s IH]; [done|]. cbn [trimEnd].
  destruct (trimEnd s) as [|e u].
  - cbn [List.filter] in *. rewrite <- IH.
    by destruct (isWhiteSpace c) eqn:W; cbn; rewrite ?W.
  - cbn [List.filter] in *. by rewrite IH.
Qed.

Lemma non_white_space_trimStart s :
  non_white_space (trimStart s) = non_white_space s.
Proof.
  unfold non_white_space, trimStart.
  induction s as [|c s IH]; [done|]. cbn.
  destruct (isWhiteSpace c) eqn:W; cbn; [done|]. by rewrite W.
Qed.

Lemma non_white_space_lines ls :
  non_white_space (join LF (map trimEnd ls)) = non_white_space (join LF ls).
Proof.
  induction ls as [|l ls IH]; [done|].
  destruct ls as [|l' ls].
  - cbn. apply non_white_space_trimEnd.
  - change (join LF (map trimEnd (l :: l' :: ls))) with
      (trimEnd l ++ LF :: join LF (map trimEnd (l' :: ls))).
    change (join LF (l :: l' :: ls)) with (l ++ LF :: join LF (l' :: ls)).
    rewrite !non_white_space_app, non_white_space_trimEnd.
    f_equal. unfold non_white_space in *. cbn [List.filter].
    rewrite isWhiteSpace_LF. cbn. exact IH.
Qed.

Lemma non_white_space_nil_iff s :
  non_white_space s = [] <-> forallb isWhiteSpace s = true.
Proof.
  unfold non_white_space. induction s as [|c s IH]; [done|]. cbn.
  destruct (isWhiteSpace c); cbn; [done|]. split; discriminate.
Qed.

(** X4. [normalizeText] touches white space only: the code units that are not
    white space are kept, all of them and in order.  So the result is the
    empty string exactly when the text is made of white space. *)
Theorem normalizeText_keeps_non_white_space (s : jsstring) :
  non_white_space (normalizeText s) = non_white_space s /\
  (normalizeText s = [] <-> forallb isWhiteSpace s = true).
Proof.
  assert (H : non_white_space (normalizeText s) = non_white_space s).
  { unfold normalizeText, trim.
    rewrite non_white_space_trimEnd, non_white_space_trimStart,
            non_white_space_lines, join_split.
    apply non_white_space_replaceCRLF. }
  split; [done|]. rewrite <- non_white_space_nil_iff, <- H. split.
  - by intros ->.
  - intros Hn.
    assert (Hs : trimStart (normalizeText s) = normalizeText s).
    { unfold normalizeText, trim. apply trimEnd_trimStart_fix, trimStart_idem. }
    destruct (normalizeText s) as [|c t]; [done|].
    apply drop_while_fix_cons in Hs.
    unfold non_white_space in Hn. cbn in Hn. by rewrite Hs in Hn.
Qed.

(** X5. The result of [normalizeText] has no line that ends in white space,
    neither starts nor ends with white space, and holds no CR LF pair. *)
Theorem normalizeText_shape (s : jsstring) :
  let t := normalizeText s in
  Forall (fun l => trimEnd l = l) (split LF t) /\
  trimStart t = t /\ trimEnd t = t /\
  (forall u v, t <> u ++ CR :: LF :: v).
Proof.
  cbn zeta. pose proof (tidy_normalizeText s) as Ht. split_and!.
  - exact Ht.
  - unfold normalizeText, trim. apply trimEnd_trimStart_fix, trimStart_idem.
  - unfold normalizeText, trim. apply trimEnd_idem.
  - intros u v Heq. rewrite Heq in Ht. clear Heq.
    induction u as [|c u IH].
    + unfold tidy in Ht. cbn in Ht. by inversion Ht.
    + apply IH. by eapply tidy_cons_inv.
Qed.

(** * Further properties of [matchSlides] *)

Lemma sort_insert_sorted x l :
  StronglySorted sort_le l -> StronglySorted sort_le (sort_insert x l).
Proof.
  induction 1 as [|y l Hl IH Hy]; cbn.
  - repeat constructor.
  - destruct (Nat.leb_spec (sort_index x) (sort_index y)) as [Hle|Hlt].
    + constructor; [by constructor|]. constructor; [done|].
      eapply Forall_impl; [exact Hy|]. unfold sort_le. intros z Hz. lia.
    + constructor; [done|]. rewrite sort_insert_perm.
      constructor; [unfold sort_le; lia|done].
Qed.

Lemma sort_matches_sorted l : StronglySorted sort_le (sort_matches l).
Proof.
  induction l as [|x l IH]; cbn; [constructor|]. by apply sort_insert_sorted.
Qed.

Lemma sort_matches_of_sorted l :
  StronglySorted sort_le l -> sort_matches l = l.
Proof.
  induction 1 as [|x l Hl IH Hx]; [done|].
  change (sort_insert x (sort_matches l) = x :: l). rewrite IH.
  destruct l as [|y l]; [done|]. cbn.
  inversion Hx as [|? ? Hxy _]; subst. unfold sort_le in Hxy.
  by rewrite (proj2 (Nat.leb_le _ _) Hxy).
Qed.

(** X6. The correspondences are returned in ascending order of
    [beforeIndex ?? afterIndex ?? 0]. *)
Theorem matchSlides_sorted (toLowerCase : jsstring -> jsstring)
    (beforeSlides afterSlides : list MarkdownSlide) :
  StronglySorted (fun m1 m2 => sort_index m1 <= sort_index m2)
    (matchSlides toLowerCase beforeSlides afterSlides).
Proof. unfold matchSlides. apply sort_matches_sorted. Qed.

Section MatchSlidesShape.

Variable toLowerCase : jsstring -> jsstring.
Variables beforeSlides afterSlides : list MarkdownSlide.

Local Abbreviation wf := (match_wf beforeSlides afterSlides).

Lemma phase1_scan_wf bs k st :
  beforeSlides !! k = Some bs ->
  Forall wf (matches st) -> Forall paired (matches st) ->
  let st' := phase1_scan toLowerCase bs k afterSlides 0 st in
  Forall wf (matches st') /\ Forall paired (matches st').
Proof.
  intros Hbs Hwf Hp.
  destruct (phase1_scan_spec toLowerCase afterSlides bs k st afterSlides 0
              (eq_sym (drop_0 _)))
    as [[-> _]|(aj & s & _ & Hs & _ & _ & ->)]; [done|].
  cbn zeta. unfold push_matched. cbn [matches].
  split; apply Forall_app; (split; [done|]); (constructor; [|done]).
  - unfold match_wf. cbn. rewrite Hbs, Hs.
    apply lookup_lt_Some in Hbs, Hs. split_and!; auto.
  - split; cbn; eauto.
Qed.

Lemma phase1_wf rest k st :
  rest = drop k beforeSlides ->
  Forall wf (matches st) -> Forall paired (matches st) ->
  let st' := phase1 toLowerCase rest k afterSlides st in
  Forall wf (matches st') /\ Forall paired (matches st').
Proof.
  revert k st. induction rest as [|bs rest IH]; intros k st Hrest Hwf Hp; [done|].
  assert (Hbs : beforeSlides !! k = Some bs).
  { pose proof (lookup_drop beforeSlides k 0) as Hd.
    by rewrite <- Hrest, Nat.add_0_r in Hd. }
  cbn [phase1].
  destruct (phase1_scan_wf bs k st Hbs Hwf Hp) as [Hwf' Hp'].
  apply IH; [|done|done].
  rewrite (drop_S _ _ _ Hbs) in Hrest. congruence.
Qed.

(** Phase 2 pairs the leftovers index for index, and exhausts one side. *)
Lemma phase2_wf st :
  Forall wf (matches st) -> Forall paired (matches st) ->
  let st' := phase2 beforeSlides afterSlides st in
  Forall wf (matches st') /\ Forall paired (matches st') /\
  ((forall i, i < length beforeSlides -> i ∈ matchedBeforeIndices st') \/
   (forall j, j < length afterSlides -> j ∈ matchedAfterIndices st')).
Proof.
  intros Hwf Hp. unfold phase2.
  destruct (unmatched_indices_spec beforeSlides (matchedBeforeIndices st))
    as [_ Hub].
  destruct (unmatched_indices_spec afterSlides (matchedAfterIndices st))
    as [_ Hua].
  set (ub := unmatched_indices beforeSlides (matchedBeforeIndices st)) in *.
  set (ua := unmatched_indices afterSlides (matchedAfterIndices st)) in *.
  set (n := Nat.min (length ub) (length ua)).
  assert (H : let s := foldl (fun st i =>
                 push_matched st
                   (mkSlideMatch (beforeSlides !! (ub !!! i))
                      (afterSlides !! (ua !!! i))
                      (Some (ub !!! i)) (Some (ua !!! i)) by_position)
                   (ub !!! i) (ua !!! i)) st (seq 0 n) in
    Forall wf (matches s) /\ Forall paired (matches s) /\
    (forall i, i ∈ matchedBeforeIndices st -> i ∈ matchedBeforeIndices s) /\
    (forall j, j ∈ matchedAfterIndices st -> j ∈ matchedAfterIndices s) /\
    (forall t i, t < n -> ub !! t = Some i -> i ∈ matchedBeforeIndices s) /\
    (forall t j, t < n -> ua !! t = Some j -> j ∈ matchedAfterIndices s)).
  { apply (foldl_seq_ind (fun k s =>
      Forall wf (matches s) /\ Forall paired (matches s) /\
      (forall i, i ∈ matchedBeforeIndices st -> i ∈ matchedBeforeIndices s) /\
      (forall j, j ∈ matchedAfterIndices st -> j ∈ matchedAfterIndices s) /\
      (forall t i, t < k -> ub !! t = Some i -> i ∈ matchedBeforeIndices s) /\
      (forall t j, t < k -> ua !! t = Some j -> j ∈ matchedAfterIndices s))).
    - split_and!; try done; intros; lia.
    - intros k s Hk (Hw & Hq & Hb & Ha & Hbt & Hat).
      destruct (lookup_lt_is_Some_2 ub k) as [bi Hbi]; [lia|].
      destruct (lookup_lt_is_Some_2 ua k) as [ai Hai]; [lia|].
      rewrite (list_lookup_total_correct _ _ _ Hbi),
              (list_lookup_total_correct _ _ _ Hai).
      assert (Hbi' : bi ∈ ub) by (by eapply list_elem_of_lookup_2).
      assert (Hai' : ai ∈ ua) by (by eapply list_elem_of_lookup_2).
      apply Hub in Hbi' as [Hbl _]. apply Hua in Hai' as [Hal _].
      unfold push_matched. cbn [matches matchedBeforeIndices matchedAfterIndices].
      split_and!.
      + apply Forall_app. split; [done|]. constructor; [|done].
        unfold match_wf. cbn. split_and!; auto.
      + apply Forall_app. split; [done|]. constructor; [|done].
        split; cbn; eauto.
      + intros i Hi. apply elem_of_union. right. auto.
      + intros j Hj. apply elem_of_union. right. auto.
      + intros t i Ht Hti. apply elem_of_union.
        destruct (decide (t = k)) as [->|?].
        * left. apply elem_of_singleton. congruence.
        * right. apply (Hbt t); [lia|done].
      + intros t j Ht Htj. apply elem_of_union.
        destruct (decide (t = k)) as [->|?].
        * left. apply elem_of_singleton. congruence.
        * right. apply (Hat t); [lia|done]. }
  cbn zeta in H. destruct H as (Hw & Hq & Hb & Ha & Hbt & Hat).
  split_and!; [done|done|].
  destruct (Nat.min_spec (length ub) (length ua)) as [[_ Hn]|[_ Hn]]; fold n in Hn.
  - left. intros i Hi.
    destruct (decide (i ∈ matchedBeforeIndices st)) as [|Hni]; [auto|].
    assert (Hin : i ∈ ub) by (by apply Hub).
    apply list_elem_of_lookup in Hin as [t Ht].
    apply (Hbt t); [|done]. apply lookup_lt_Some in Ht. lia.
  - right. intros j Hj.
    destruct (decide (j ∈ matchedAfterIndices st)) as [|Hnj]; [auto|].
    assert (Hin : j ∈ ua) by (by apply Hua).
    apply list_elem_of_lookup in Hin as [t Ht].
    apply (Hat t); [|done]. apply lookup_lt_Some in Ht. lia.
Qed.

Lemma phase3_removed_wf st :
  Forall wf (matches st) ->
  Forall wf (matches (phase3_removed beforeSlides st)).
Proof.
  intros Hwf. unfold phase3_removed.
  apply (foldl_seq_ind (fun _ s => Forall wf (matches s))); [done|].
  intros k s Hk Hs.
  destruct (negb (bool_decide (k ∈ matchedBeforeIndices s))); [|done].
  unfold push_only. cbn [matches]. apply Forall_app. split; [done|].
  constructor; [|done]. unfold match_wf. cbn. auto.
Qed.

Lemma phase3_added_wf st :
  Forall wf (matches st) ->
  Forall wf (matches (phase3_added afterSlides st)).
Proof.
  intros Hwf. unfold phase3_added.
  apply (foldl_seq_ind (fun _ s => Forall wf (matches s))); [done|].
  intros k s Hk Hs.
  destruct (negb (bool_decide (k ∈ matchedAfterIndices s))); [|done].
  unfold push_only. cbn [matches]. apply Forall_app. split; [done|].
  constructor; [|done]. unfold match_wf. cbn. auto.
Qed.

Lemma phase3_removed_none st :
  (forall i, i < length beforeSlides -> i ∈ matchedBeforeIndices st) ->
  phase3_removed beforeSlides st = st.
Proof.
  intros H. unfold phase3_removed.
  apply (foldl_seq_ind (fun _ s => s = st)); [done|].
  intros k s Hk ->. by rewrite bool_decide_eq_true_2 by auto.
Qed.

Lemma phase3_added_none st :
  (forall j, j < length afterSlides -> j ∈ matchedAfterIndices st) ->
  phase3_added afterSlides st = st.
Proof.
  intros H. unfold phase3_added.
  apply (foldl_seq_ind (fun _ s => s = st)); [done|].
  intros k s Hk ->. by rewrite bool_decide_eq_true_2 by auto.
Qed.

Lemma phase3_removed_has_before st :
  Forall (fun m => is_Some (beforeIndex m)) (matches st) ->
  Forall (fun m => is_Some (beforeIndex m))
    (matches (phase3_removed beforeSlides st)) /\
  matchedAfterIndices (phase3_removed beforeSlides st) = matchedAfterIndices st.
Proof.
  intros H. unfold phase3_removed.
  apply (foldl_seq_ind (fun _ s =>
    Forall (fun m => is_Some (beforeIndex m)) (matches s) /\
    matchedAfterIndices s = matchedAfterIndices st)); [done|].
  intros k s Hk [Hs Ha].
  destruct (negb (bool_decide (k ∈ matchedBeforeIndices s))); [|done].
  unfold push_only. cbn [matches matchedAfterIndices]. split; [|done].
  apply Forall_app. split; [done|]. constructor; [|done]. cbn. eauto.
Qed.

Lemma phase3_added_has_after st :
  Forall (fun m => is_Some (afterIndex m)) (matches st) ->
  Forall (fun m => is_Some (afterIndex m))
    (matches (phase3_added afterSlides st)).
Proof.
  intros H. unfold phase3_added.
  apply (foldl_seq_ind (fun _ s =>
    Forall (fun m => is_Some (afterIndex m)) (matches s))); [done|].
  intros k s Hk Hs.
  destruct (negb (bool_decide (k ∈ matchedAfterIndices s))); [|done].
  unfold push_only. cbn [matches]. apply Forall_app. split; [done|].
  constructor; [|done]. cbn. eauto.
Qed.

Lemma matchSlides_wf :
  Forall wf (matchSlides toLowerCase beforeSlides afterSlides).
Proof.
  unfold matchSlides. rewrite sort_matches_perm.
  apply phase3_added_wf, phase3_removed_wf.
  destruct (phase1_wf beforeSlides 0 (mkMatchState [] ∅ ∅)) as [Hw Hp];
    [by rewrite drop_0|done|done|].
  by apply phase2_wf.
Qed.

Lemma matchSlides_one_sided :
  let ms := matchSlides toLowerCase beforeSlides afterSlides in
  Forall (fun m => is_Some (beforeIndex m)) ms \/
  Forall (fun m => is_Some (afterIndex m)) ms.
Proof.
  cbn zeta. unfold matchSlides.
  destruct (phase1_wf beforeSlides 0 (mkMatchState [] ∅ ∅)) as [Hw Hp];
    [by rewrite drop_0|done|done|].
  destruct (phase2_wf _ Hw Hp) as (_ & Hp2 & [Hall|Hall]).
  - right. rewrite sort_matches_perm.
    rewrite (phase3_removed_none _ Hall).
    apply phase3_added_has_after.
    eapply Forall_impl; [exact Hp2|]. by intros m [_ ?].
  - left. rewrite sort_matches_perm.
    destruct (phase3_removed_has_before
                (phase2 beforeSlides afterSlides
                   (phase1 toLowerCase beforeSlides 0 afterSlides
                      (mkMatchState [] ∅ ∅)))) as [Hb Ha].
    { eapply Forall_impl; [exact Hp2|]. by intros m [? _]. }
    rewrite phase3_added_none; [done|].
    intros j Hj. rewrite Ha. auto.
Qed.

End MatchSlidesShape.

Lemma omap_length_le {A B} (f : A -> option B) l : length (omap f l) <= length l.
Proof. induction l as [|x l IH]; cbn; [lia|]. destruct (f x); cbn; lia. Qed.

Lemma omap_length_total {A B} (f : A -> option B) l :
  Forall (fun x => is_Some (f x)) l -> length (omap f l) = length l.
Proof.
  induction 1 as [|x l [y Hy] _ IH]; cbn; [done|]. rewrite Hy. cbn. lia.
Qed.

(** X7. Every correspondence returned by [matchSlides] is well formed: its
    indices lie within the arrays, the slides stored are the slides at
    those indices, at least one side is present (the branch of
    [createSlideDiff] for a correspondence without slides is never taken),
    and [matchedBy] is ['none'] exactly for the one-sided ones. *)
Theorem matchSlides_well_formed (toLowerCase : jsstring -> jsstring)
    (beforeSlides afterSlides : list MarkdownSlide) :
  Forall (match_wf beforeSlides afterSlides)
    (matchSlides toLowerCase beforeSlides afterSlides).
Proof. apply matchSlides_wf. Qed.

Lemma matchSlides_length_max (toLowerCase : jsstring -> jsstring)
    (beforeSlides afterSlides : list MarkdownSlide) :
  let ms := matchSlides toLowerCase beforeSlides afterSlides in
  length ms = Nat.max (length beforeSlides) (length afterSlides) /\
  (Forall (fun m => is_Some (beforeIndex m)) ms \/
   Forall (fun m => is_Some (afterIndex m)) ms).
Proof.
  cbn zeta.
  destruct (matchSlides_indices toLowerCase beforeSlides afterSlides) as [Hb Ha].
  pose proof (matchSlides_one_sided toLowerCase beforeSlides afterSlides) as Hone.
  cbn zeta in Hone. split; [|done].
  apply Permutation_length in Hb, Ha. rewrite length_seq in Hb, Ha.
  pose proof (omap_length_le beforeIndex
                (matchSlides toLowerCase beforeSlides afterSlides)) as Hlb.
  pose proof (omap_length_le afterIndex
                (matchSlides toLowerCase beforeSlides afterSlides)) as Hla.
  unfold before_indices, after_indices in *.
  destruct Hone as [H|H]; apply omap_length_total in H; lia.
Qed.

(** X8. [matchSlides] returns [max(before.length, after.length)]
    correspondences, and never a removed-only one together with an
    added-only one: either every correspondence has a before-index or every
    one has an after-index. *)
Theorem matchSlides_length (toLowerCase : jsstring -> jsstring)
    (beforeSlides afterSlides : list MarkdownSlide) :
  let ms := matchSlides toLowerCase beforeSlides afterSlides in
  length ms = Nat.max (length beforeSlides) (length afterSlides) /\
  (Forall (fun m => is_Some (beforeIndex m)) ms \/
   Forall (fun m => is_Some (afterIndex m)) ms).
Proof. apply matchSlides_length_max. Qed.

(** ** Identical and empty arrays of slides *)

Lemma sorted_map_seq (f : nat -> SlideMatch) k n :
  (forall i, sort_index (f i) = i) ->
  StronglySorted sort_le (map f (seq k n)).
Proof.
  intros Hf. revert k. induction n as [|n IH]; intros k; cbn; [constructor|].
  constructor; [apply IH|].
  apply Forall_forall. intros x Hx.
  apply list_elem_of_fmap in Hx as (j & -> & Hj%elem_of_seq).
  unfold sort_le. rewrite !Hf. lia.
Qed.

Lemma unmatched_indices_nil slides (matched : gset nat) :
  (forall i, i < length slides -> i ∈ matched) ->
  unmatched_indices slides matched = [].
Proof.
  intros H. destruct (unmatched_indices_spec slides matched) as [_ Hm].
  destruct (unmatched_indices slides matched) as [|i u]; [done|].
  destruct (proj1 (Hm i) (list_elem_of_here _ _)) as [Hi Hn].
  destruct Hn. auto.
Qed.

Lemma phase2_none_before beforeSlides afterSlides st :
  (forall i, i < length beforeSlides -> i ∈ matchedBeforeIndices st) ->
  phase2 beforeSlides afterSlides st = st.
Proof. intros H. unfold phase2. by rewrite (unmatched_indices_nil _ _ H). Qed.

Lemma phase2_none_after beforeSlides afterSlides st :
  (forall j, j < length afterSlides -> j ∈ matchedAfterIndices st) ->
  phase2 beforeSlides afterSlides st = st.
Proof.
  intros H. unfold phase2.
  by rewrite (unmatched_indices_nil afterSlides _ H), Nat.min_0_r.
Qed.

Lemma phase3_removed_all beforeSlides st :
  (forall i, i < length beforeSlides -> i ∉ matchedBeforeIndices st) ->
  phase3_removed beforeSlides st =
  mkMatchState
    (matches st ++ map (removed_match beforeSlides) (seq 0 (length beforeSlides)))
    (matchedBeforeIndices st) (matchedAfterIndices st).
Proof.
  intros H. unfold phase3_removed.
  apply (foldl_seq_ind (fun k s =>
    s = mkMatchState (matches st ++ map (removed_match beforeSlides) (seq 0 k))
          (matchedBeforeIndices st) (matchedAfterIndices st))).
  - cbn. rewrite app_nil_r. by destruct st.
  - intros k s Hk ->. cbn [matchedBeforeIndices].
    rewrite bool_decide_eq_false_2 by auto. cbn [negb].
    unfold push_only. cbn [matches matchedBeforeIndices matchedAfterIndices].
    by rewrite seq_S, map_app, app_assoc.
Qed.

Lemma phase3_added_all afterSlides st :
  (forall j, j < length afterSlides -> j ∉ matchedAfterIndices st) ->
  phase3_added afterSlides st =
  mkMatchState
    (matches st ++ map (added_match afterSlides) (seq 0 (length afterSlides)))
    (matchedBeforeIndices st) (matchedAfterIndices st).
Proof.
  intros H. unfold phase3_added.
  apply (foldl_seq_ind (fun k s =>
    s = mkMatchState (matches st ++ map (added_match afterSlides) (seq 0 k))
          (matchedBeforeIndices st) (matchedAfterIndices st))).
  - cbn. rewrite app_nil_r. by destruct st.
  - intros k s Hk ->. cbn [matchedAfterIndices].
    rewrite bool_decide_eq_false_2 by auto. cbn [negb].
    unfold push_only. cbn [matches matchedBeforeIndices matchedAfterIndices].
    by rewrite seq_S, map_app, app_assoc.
Qed.

Lemma phase1_no_after toLowerCase rest k st :
  phase1 toLowerCase rest k [] st = st.
Proof. revert k st. induction rest as [|b rest IH]; intros k st; [done|]. apply IH. Qed.

(** X9. With no before-slide every after-slide is an added-only
    correspondence, in order; with no after-slide every before-slide is a
    removed-only one. *)
Theorem matchSlides_empty (toLowerCase : jsstring -> jsstring)
    (slides : list MarkdownSlide) :
  matchSlides toLowerCase [] slides
    = map (added_match slides) (seq 0 (length slides)) /\
  matchSlides toLowerCase slides []
    = map (removed_match slides) (seq 0 (length slides)).
Proof.
  split; unfold matchSlides.
  - cbn [phase1].
    rewrite phase2_none_before by (cbn; lia).
    rewrite (phase3_removed_all []) by (cbn; lia).
    rewrite phase3_added_all by (cbn; set_solver).
    cbn. apply sort_matches_of_sorted, sorted_map_seq. done.
  - rewrite phase1_no_after.
    rewrite phase2_none_after by (cbn; lia).
    rewrite phase3_removed_all by (cbn; set_solver).
    rewrite (phase3_added_all []) by (cbn; lia).
    cbn. rewrite app_nil_r. apply sort_matches_of_sorted, sorted_map_seq. done.
Qed.

Lemma phase1_same toLowerCase (slides : list MarkdownSlide) rest k st :
  rest = drop k slides -> k <= length slides ->
  matches st = map (same_match slides) (seq 0 k) ->
  (forall i, i ∈ matchedBeforeIndices st <-> i < k) ->
  (forall i, i ∈ matchedAfterIndices st <-> i < k) ->
  let st' := phase1 toLowerCase rest k slides st in
  matches st' = map (same_match slides) (seq 0 (length slides)) /\
  (forall i, i ∈ matchedBeforeIndices st' <-> i < length slides) /\
  (forall i, i ∈ matchedAfterIndices st' <-> i < length slides).
Proof.
  revert k st. induction rest as [|bs rest IH]; intros k st Hrest Hk Hm Hb Ha.
  - assert (Hl : length (drop k slides) = 0) by (by rewrite <- Hrest).
    rewrite length_drop in Hl.
    assert (k = length slides) as -> by lia. done.
  - assert (Hbs : slides !! k = Some bs).
    { pose proof (lookup_drop slides k 0) as Hd.
      by rewrite <- Hrest, Nat.add_0_r in Hd. }
    assert (Hfree : k ∉ matchedAfterIndices st) by (rewrite Ha; lia).
    cbn [phase1].
    assert (Hscan : phase1_scan toLowerCase bs k slides 0 st =
                    push_matched st (same_match slides k) k k).
    { destruct (phase1_scan_spec toLowerCase slides bs k st slides 0
                  (eq_sym (drop_0 _)))
        as [[_ Hnone]|(aj & s & _ & Hs & [Hnin _] & Hleast & ->)].
      - exfalso. apply (Hnone k); [lia|]. split; [done|]. eauto.
      - assert (Hge : ~ aj < k) by (by rewrite <- Ha).
        destruct (decide (aj = k)) as [->|Hne].
        + unfold same_match. rewrite Hbs. congruence.
        + exfalso. apply (Hleast k); [lia|]. split; [done|]. eauto. }
    rewrite Hscan. apply IH.
    + rewrite (drop_S _ _ _ Hbs) in Hrest. congruence.
    + apply lookup_lt_Some in Hbs. lia.
    + unfold push_matched. cbn [matches]. by rewrite Hm, seq_S, map_app.
    + intros i. unfold push_matched. cbn [matchedBeforeIndices].
      rewrite elem_of_union, elem_of_singleton, Hb. lia.
    + intros i. unfold push_matched. cbn [matchedAfterIndices].
      rewrite elem_of_union, elem_of_singleton, Ha. lia.
Qed.

Lemma matchSlides_same_pairs (toLowerCase : jsstring -> jsstring)
    (slides : list MarkdownSlide) :
  matchSlides toLowerCase slides slides
  = map (same_match slides) (seq 0 (length slides)).
Proof.
  unfold matchSlides.
  destruct (phase1_same toLowerCase slides slides 0 (mkMatchState [] ∅ ∅))
    as (Hm & Hb & Ha).
  { by rewrite drop_0. }
  { lia. }
  { done. }
  { cbn. intros i. split; [set_solver|lia]. }
  { cbn. intros i. split; [set_solver|lia]. }
  cbn zeta in *.
  rewrite phase2_none_before by (intros i Hi; by apply Hb).
  rewrite phase3_removed_none by (intros i Hi; by apply Hb).
  rewrite phase3_added_none by (intros i Hi; by apply Ha).
  rewrite Hm. apply sort_matches_of_sorted, sorted_map_seq. done.
Qed.

(** X10. Matching an array of slides against itself pairs every slide with
    itself, by title. *)
Theorem matchSlides_same (toLowerCase : jsstring -> jsstring)
    (slides : list MarkdownSlide) :
  matchSlides toLowerCase slides slides
  = map (same_match slides) (seq 0 (length slides)).
Proof. apply matchSlides_same_pairs. Qed.

(** * Summaries *)

Lemma foldl_count_status_counts ds tb ta a r mo u mv :
  foldl count_status (DiffSummary.mk tb ta a r mo u mv) ds =
  DiffSummary.mk tb ta
    (a + status_count DiffStatus.added ds)
    (r + status_count DiffStatus.removed ds)
    (mo + status_count DiffStatus.modified ds)
    (u + status_count DiffStatus.unchanged ds)
    (mv + status_count DiffStatus.moved ds).
Proof.
  revert a r mo u mv. unfold status_count.
  induction ds as [|d ds IH]; intros a r mo u mv.
  - cbn. by rewrite !Nat.add_0_r.
  - cbn [foldl List.filter]. unfold count_status at 2.
    destruct (status d); rewrite IH; f_equal;
      repeat case_bool_decide; try done; cbn [length]; lia.
Qed.

(** X11. [calculateDiffSummary] counts: each of the five counters is the number
    of slide diffs of that status, and the two totals are the numbers of
    slides of the two presentations. *)
Theorem calculateDiffSummary_counts (diff : PresentationDiff) :
  calculateDiffSummary diff =
  DiffSummary.mk
    (length (slides (before diff))) (length (slides (after diff)))
    (status_count DiffStatus.added (slideDiffs diff))
    (status_count DiffStatus.removed (slideDiffs diff))
    (status_count DiffStatus.modified (slideDiffs diff))
    (status_count DiffStatus.unchanged (slideDiffs diff))
    (status_count DiffStatus.moved (slideDiffs diff)).
Proof. unfold calculateDiffSummary. by rewrite foldl_count_status_counts. Qed.

Lemma decimal_head n : exists c t, decimal n = c :: t /\ (48 <= c <= 57)%N.
Proof.
  unfold decimal, NilZero.string_of_uint.
  destruct (Nat.to_uint n); cbn; eexists _, _; (split; [reflexivity|lia]).
Qed.

Lemma join_with_head sep p ps c t :
  p = c :: t -> exists t', join_with sep (p :: ps) = c :: t'.
Proof. intros ->. destruct ps; cbn; eauto. Qed.

(** X12. [hasChanges] holds exactly when [getTotalChangedSlides] is positive,
    and [formatDiffSummary] answers "No changes" exactly when [hasChanges]
    does not hold. *)
Theorem formatDiffSummary_no_changes (diff : PresentationDiff) :
  (hasChanges diff = true <-> 0 < getTotalChangedSlides (summary diff)) /\
  (formatDiffSummary (summary diff) = lit "No changes" <->
   hasChanges diff = false).
Proof.
  unfold hasChanges, getTotalChangedSlides, formatDiffSummary.
  destruct (summary diff) as [tb ta a r mo u mv]. cbn [DiffSummary.added
    DiffSummary.removed DiffSummary.modified DiffSummary.moved].
  split.
  - rewrite !orb_true_iff, !Nat.ltb_lt. lia.
  - assert (Hhead : forall n (w : jsstring) ps,
      join_with (lit ", ") ((decimal n ++ w) :: ps) <> lit "No changes").
    { intros n w ps Heq. destruct (decimal_head n) as (c & t & Hd & Hc).
      destruct (join_with_head (lit ", ") (decimal n ++ w) ps c (t ++ w))
        as [t' Ht']; [by rewrite Hd|].
      rewrite Ht' in Heq. injection Heq as -> _. lia. }
    destruct (Nat.ltb_spec 0 a); [split; [intros []%Hhead|done]|].
    destruct (Nat.ltb_spec 0 r); [split; [intros []%Hhead|done]|].
    destruct (Nat.ltb_spec 0 mo); [split; [intros []%Hhead|done]|].
    destruct (Nat.ltb_spec 0 mv); [split; [intros []%Hhead|done]|].
    done.
Qed.

(** * [diffPresentations] *)

Lemma diffPresentations_inv toLowerCase (pb pa : MarkdownPresentation) diff :
  diffPresentations toLowerCase pb pa = Some diff ->
  before diff = pb /\ after diff = pa /\
  Forall2 (fun m d => createSlideDiff m = Some d)
    (matchSlides toLowerCase (slides pb) (slides pa)) (slideDiffs diff) /\
  summary diff = calculateDiffSummary diff.
Proof.
  unfold diffPresentations.
  destruct (mapM createSlideDiff _) as [ds|] eqn:E; [|done].
  cbn. intros [= <-]. cbn. split_and!; try done. by apply mapM_Some_1.
Qed.

Lemma createSlideDiff_wf beforeSlides afterSlides m d :
  match_wf beforeSlides afterSlides m ->
  createSlideDiff m = Some d ->
  slide_diff_wf d /\
  (status d = DiffStatus.added <-> beforeIndex m = None) /\
  (status d = DiffStatus.removed <-> afterIndex m = None).
Proof.
  intros (Hb & Ha & Hm). unfold createSlideDiff.
  destruct (beforeIndex m) as [i|] eqn:Ei; destruct (afterIndex m) as [j|] eqn:Ej;
    try done.
  - destruct Hb as [Hi Hb], Ha as [Hj Ha].
    destruct (lookup_lt_is_Some_2 beforeSlides i Hi) as [b Hbi].
    destruct (lookup_lt_is_Some_2 afterSlides j Hj) as [a Haj].
    rewrite Hb, Ha, Hbi, Haj.
    destruct (slidesAreEqual b a).
    + intros [= <-]. unfold slide_diff_wf. cbn.
      destruct (negb (bool_decide (Some i = Some j)));
        (split_and!; try done; try (split; [by intros [? ?]|done])).
    + destruct (diffText (content (location b)) (content (location a)))
        as [r|] eqn:Er; [|done].
      cbn. intros [= <-]. unfold slide_diff_wf. cbn.
      split_and!; done.
  - destruct Hb as [Hi Hb].
    destruct (lookup_lt_is_Some_2 beforeSlides i Hi) as [b Hbi].
    rewrite Hb, Ha, Hbi. intros [= <-]. unfold slide_diff_wf. cbn.
    split_and!; try done; try (split; [by intros [? ?]|done]).
  - destruct Ha as [Hj Ha].
    destruct (lookup_lt_is_Some_2 afterSlides j Hj) as [a Haj].
    rewrite Hb, Ha, Haj. intros [= <-]. unfold slide_diff_wf. cbn.
    split_and!; try done; try (split; [by intros [? ?]|done]).
Qed.

Lemma slide_diffs_wf toLowerCase (pb pa : MarkdownPresentation) diff :
  diffPresentations toLowerCase pb pa = Some diff ->
  Forall slide_diff_wf (slideDiffs diff) /\
  status_count DiffStatus.added (slideDiffs diff)
    + length (before_indices (matchSlides toLowerCase (slides pb) (slides pa)))
    = length (slideDiffs diff) /\
  status_count DiffStatus.removed (slideDiffs diff)
    + length (after_indices (matchSlides toLowerCase (slides pb) (slides pa)))
    = length (slideDiffs diff).
Proof.
  intros Hd. destruct (diffPresentations_inv _ _ _ _ Hd) as (_ & _ & H2 & _).
  pose proof (matchSlides_wf toLowerCase (slides pb) (slides pa)) as Hwf.
  unfold status_count, before_indices, after_indices.
  induction H2 as [|m d ms ds Hmd _ IH]; [done|].
  inversion Hwf as [|? ? Hm Hms]; subst.
  destruct (IH Hms) as (IH1 & IH2 & IH3).
  destruct (createSlideDiff_wf _ _ _ _ Hm Hmd) as (Hd1 & Hadd & Hrem).
  split_and!.
  - by constructor.
  - change (omap beforeIndex (m :: ms)) with
      (match beforeIndex m with
       | Some y => y :: omap beforeIndex ms
       | None => omap beforeIndex ms
       end).
    cbn [List.filter length].
    case_bool_decide as Hs.
    + apply Hadd in Hs. rewrite Hs. cbn [length]. lia.
    + destruct (beforeIndex m) eqn:E; [cbn [length]; lia|].
      destruct Hs. by apply Hadd.
  - change (omap afterIndex (m :: ms)) with
      (match afterIndex m with
       | Some y => y :: omap afterIndex ms
       | None => omap afterIndex ms
       end).
    cbn [List.filter length].
    case_bool_decide as Hs.
    + apply Hrem in Hs. rewrite Hs. cbn [length]. lia.
    + destruct (afterIndex m) eqn:E; [cbn [length]; lia|].
      destruct Hs. by apply Hrem.
Qed.

(** X13. Every slide diff returned by [diffPresentations] is consistent: its
    status is [added] exactly when it has no before-slide and [removed]
    exactly when it has no after-slide; [contentChanges] is present exactly
    when the status is [modified], and is then the line diff of the two raw
    contents; [titleChanged] compares the two titles of a matched pair and
    is false otherwise. *)
Theorem diffPresentations_slide_diffs (toLowerCase : jsstring -> jsstring)
    (pb pa : MarkdownPresentation) :
  exists diff,
    diffPresentations toLowerCase pb pa = Some diff /\
    before diff = pb /\ after diff = pa /\
    Forall slide_diff_wf (slideDiffs diff).
Proof.
  destruct (diffPresentations_total toLowerCase pb pa) as (diff & Hd & _).
  exists diff. destruct (diffPresentations_inv _ _ _ _ Hd) as (? & ? & _).
  split_and!; try done. by eapply slide_diffs_wf.
Qed.

(** X14. The summary of [diffPresentations] carries the two slide counts; slides
    are never reported as added and removed together: [added] is
    [after - before] when positive, [removed] is [before - after] when
    positive, and the other three counters share [min(before, after)]. *)
Theorem diffPresentations_summary (toLowerCase : jsstring -> jsstring)
    (pb pa : MarkdownPresentation) :
  exists diff,
    diffPresentations toLowerCase pb pa = Some diff /\
    DiffSummary.totalSlidesBefore (summary diff) = length (slides pb) /\
    DiffSummary.totalSlidesAfter (summary diff) = length (slides pa) /\
    DiffSummary.added (summary diff) = length (slides pa) - length (slides pb) /\
    DiffSummary.removed (summary diff) = length (slides pb) - length (slides pa) /\
    DiffSummary.modified (summary diff) + DiffSummary.unchanged (summary diff)
      + DiffSummary.moved (summary diff)
      = Nat.min (length (slides pb)) (length (slides pa)).
Proof.
  destruct (diffPresentations_total toLowerCase pb pa) as (diff & Hd & Hlen & _).
  exists diff. split; [done|].
  destruct (diffPresentations_inv _ _ _ _ Hd) as (Hb & Ha & _ & Hs).
  destruct (slide_diffs_wf _ _ _ _ Hd) as (_ & Hadd & Hrem).
  destruct (matchSlides_indices toLowerCase (slides pb) (slides pa)) as [Hpb Hpa].
  apply Permutation_length in Hpb, Hpa. rewrite length_seq in Hpb, Hpa.
  destruct (matchSlides_length_max toLowerCase (slides pb) (slides pa)) as [Hmax _].
  pose proof (foldl_count_status_total (slideDiffs diff)
                (DiffSummary.mk (length (slides (before diff)))
                   (length (slides (after diff))) 0 0 0 0 0)) as Htot.
  rewrite Hs. unfold calculateDiffSummary in *.
  rewrite foldl_count_status_counts in *. unfold summary_total in Htot.
  cbn in *. rewrite Hb, Ha. split_and!; try done; lia.
Qed.

Lemma createSlideDiff_same (slides : list MarkdownSlide) i :
  i < length slides ->
  createSlideDiff (same_match slides i) = Some (same_diff slides i).
Proof.
  intros Hi. destruct (lookup_lt_is_Some_2 slides i Hi) as [s Hs].
  unfold createSlideDiff, same_match, same_diff. cbn. rewrite Hs.
  unfold slidesAreEqual. rewrite !bool_decide_eq_true_2 by done. done.
Qed.

Lemma status_count_same slides l :
  status_count DiffStatus.unchanged (map (same_diff slides) l) = length l /\
  status_count DiffStatus.added (map (same_diff slides) l) = 0 /\
  status_count DiffStatus.removed (map (same_diff slides) l) = 0 /\
  status_count DiffStatus.modified (map (same_diff slides) l) = 0 /\
  status_count DiffStatus.moved (map (same_diff slides) l) = 0.
Proof.
  unfold status_count. induction l as [|i l (I1 & I2 & I3 & I4 & I5)]; [done|].
  cbn [map List.filter same_diff status].
  repeat case_bool_decide; try done. cbn [length].
  rewrite I1. done.
Qed.

(** X15. Diffing a presentation against itself reports every slide as
    [unchanged], paired with itself, and [hasChanges] is false. *)
Theorem diffPresentations_same (toLowerCase : jsstring -> jsstring)
    (p : MarkdownPresentation) :
  let n := length (slides p) in
  let diff :=
    mkPresentationDiff p p (map (same_diff (slides p)) (seq 0 n))
      (DiffSummary.mk n n 0 0 0 n 0) in
  diffPresentations toLowerCase p p = Some diff /\ hasChanges diff = false.
Proof.
  cbn zeta. split; [|done].
  unfold diffPresentations. rewrite matchSlides_same_pairs.
  assert (Hm : mapM createSlideDiff (map (same_match (slides p))
                                         (seq 0 (length (slides p))))
               = Some (map (same_diff (slides p)) (seq 0 (length (slides p))))).
  { apply mapM_Some_2, Forall2_fmap, Forall2_same_length_lookup.
    split; [done|]. intros i x y Hx Hy. rewrite Hx in Hy. injection Hy as <-.
    apply createSlideDiff_same. apply lookup_seq in Hx. lia. }
  rewrite Hm. cbn. unfold calculateDiffSummary. cbn.
  rewrite foldl_count_status_counts.
  destruct (status_count_same (slides p) (seq 0 (length (slides p))))
    as (-> & -> & -> & -> & ->).
  by rewrite length_seq.
Qed.

(** * Parsing a document into slides *)

(** ** Numbers in identifiers *)

Lemma digit36_value_digit36 d : (d < 36)%N -> digit36_value (digit36 d) = d.
Proof.
  intros Hd. unfold digit36, digit36_value.
  destruct (N.ltb_spec d 10).
  - destruct (N.ltb_spec (48 + d) 58); lia.
  - destruct (N.ltb_spec (87 + d) 58); lia.
Qed.

Lemma radix36_value_from v s :
  foldl (fun v c => (36 * v + digit36_value c)%N) v s
  = (v * 36 ^ N.of_nat (length s) + radix36_value s)%N.
Proof.
  unfold radix36_value. revert v. induction s as [|c s IH]; intros v.
  - cbn. lia.
  - cbn [foldl length]. rewrite IH, (IH (36 * 0 + digit36_value c)%N).
    rewrite Nat2N.inj_succ, N.pow_succ_r'. lia.
Qed.

Lemma radix36_digits_value fuel n acc :
  (N.to_nat (N.log2 n) < fuel)%nat ->
  radix36_value (radix36_digits fuel n acc)
  = (n * 36 ^ N.of_nat (length acc) + radix36_value acc)%N.
Proof.
  revert n acc. induction fuel as [|fuel IH]; intros n acc Hf; [lia|].
  cbn [radix36_digits].
  assert (Hmod : (n mod 36 < 36)%N) by (apply N.mod_lt; lia).
  pose proof (N.div_mod n 36 ltac:(lia)) as Hdm.
  assert (Hv : radix36_value (digit36 (n mod 36) :: acc)
               = ((n mod 36) * 36 ^ N.of_nat (length acc) + radix36_value acc)%N).
  { unfold radix36_value at 1. cbn [foldl].
    rewrite radix36_value_from, digit36_value_digit36 by done. lia. }
  destruct (N.eqb_spec (n / 36) 0) as [H0|Hn0].
  - rewrite Hv. rewrite H0 in Hdm. f_equal. f_equal. lia.
  - rewrite IH.
    + rewrite Hv. cbn [length]. rewrite Nat2N.inj_succ, N.pow_succ_r'. nia.
    + assert (Hle : (n / 36 <= N.shiftr n 1)%N).
      { rewrite N.shiftr_div_pow2. change (2 ^ 1)%N with 2%N.
        apply N.div_le_compat_l. lia. }
      apply N.log2_le_mono in Hle. rewrite N.log2_shiftr in Hle.
      assert (0 < N.log2 n)%N.
      { apply N.log2_pos. destruct (N.ltb_spec n 36) as [Hlt|]; [|lia].
        rewrite N.div_small in Hn0 by done. done. }
      lia.
Qed.

(** The digits of [toString36] denote the number: the bound on the number
    of digits is never reached. *)
Lemma toString36_value n : radix36_value (toString36 n) = n.
Proof.
  unfold toString36. rewrite radix36_digits_value by lia. cbn. lia.
Qed.

Lemma lit_inj s1 s2 : lit s1 = lit s2 -> s1 = s2.
Proof.
  unfold lit. intros H.
  rewrite <- (string_of_list_ascii_of_string s1),
          <- (string_of_list_ascii_of_string s2).
  f_equal. revert H.
  generalize (list_ascii_of_string s1) (list_ascii_of_string s2).
  induction l as [|a l IH]; intros [|a' l']; cbn; try done.
  intros [= Ha Hl]. f_equal; [|by apply IH].
  by rewrite <- (ascii_N_embedding a), <- (ascii_N_embedding a'), Ha.
Qed.

Lemma to_uint_nonnil n : Nat.to_uint n <> Decimal.Nil.
Proof.
  rewrite <- (Unsigned.of_to n) at 1. rewrite Unsigned.to_of.
  apply unorm_nonnil.
Qed.

Lemma decimal_inj n1 n2 : decimal n1 = decimal n2 -> n1 = n2.
Proof.
  unfold decimal. intros H%lit_inj.
  apply Unsigned.to_uint_inj.
  pose proof (NilZero.usu _ (to_uint_nonnil n1)) as H1.
  pose proof (NilZero.usu _ (to_uint_nonnil n2)) as H2.
  rewrite H in H1. congruence.
Qed.

Lemma decimal_digits n : Forall (fun c => (48 <= c <= 57)%N) (decimal n).
Proof.
  unfold decimal, NilZero.string_of_uint.
  assert (H : forall d,
    Forall (fun c => (48 <= c <= 57)%N) (lit (NilEmpty.string_of_uint d))).
  { induction d; cbn; constructor; (lia || done). }
  destruct (Nat.to_uint n); try apply H. cbn. constructor; [lia|constructor].
Qed.

Lemma digits_prefix_inj (d1 d2 r1 r2 : jsstring) :
  Forall (fun c => (48 <= c <= 57)%N) d1 ->
  Forall (fun c => (48 <= c <= 57)%N) d2 ->
  d1 ++ 45%N :: r1 = d2 ++ 45%N :: r2 -> d1 = d2.
Proof.
  intros H1. revert d2. induction H1 as [|c d1 Hc _ IH]; intros d2 H2 Heq.
  - destruct H2 as [|c' d2 Hc' _]; [done|]. cbn in Heq. injection Heq as <- _. lia.
  - destruct H2 as [|c' d2 Hc' H2]; cbn in Heq.
    + injection Heq as -> _. lia.
    + injection Heq as -> Heq. f_equal. by eapply IH.
Qed.

(** ** The slides tile the lines of the document *)

Lemma join_app_nonempty sep (l1 l2 : list jsstring) :
  l1 <> [] -> l2 <> [] ->
  join sep (l1 ++ l2) = join sep l1 ++ sep :: join sep l2.
Proof.
  intros H1 H2. induction l1 as [|x l1 IH]; [done|].
  destruct l1 as [|y l1].
  - destruct l2; [done|]. done.
  - change (join sep ((x :: y :: l1) ++ l2))
      with (x ++ sep :: join sep ((y :: l1) ++ l2)).
    rewrite IH by done.
    change (join sep (x :: y :: l1)) with (x ++ sep :: join sep (y :: l1)).
    by rewrite <- app_assoc.
Qed.

Lemma join_concat sep (groups : list (list jsstring)) :
  Forall (fun g => g <> []) groups ->
  join sep (map (join sep) groups) = join sep (concat groups).
Proof.
  induction 1 as [|g groups Hg Hgs IH]; [done|].
  destruct groups as [|g' groups].
  - cbn. by rewrite app_nil_r.
  - change (join sep (map (join sep) (g :: g' :: groups)))
      with (join sep g ++ sep :: join sep (map (join sep) (g' :: groups))).
    rewrite IH.
    change (concat (g :: g' :: groups)) with (g ++ concat (g' :: groups)).
    rewrite join_app_nonempty; [done|done|].
    cbn. inversion Hgs; subst. by destruct g'.
Qed.

Section ParseProofs.

Variable CustomParser : Type.
Variable parseMarkdownChunks :
  jsstring -> jsstring -> option (list CustomParser) -> list BaseChunk.
Variable customParsers : option (list CustomParser).

Local Abbreviation mk_slide :=
  (make_slide CustomParser parseMarkdownChunks customParsers).
Local Abbreviation of_groups :=
  (slides_of_groups CustomParser parseMarkdownChunks customParsers).
Local Abbreviation pstep :=
  (parse_step CustomParser parseMarkdownChunks customParsers).
Local Abbreviation ploop :=
  (parse_loop CustomParser parseMarkdownChunks customParsers).
Local Abbreviation parse :=
  (parseMarkdownIntoPresentation CustomParser parseMarkdownChunks customParsers).

Lemma slides_of_groups_length index start groups :
  length (of_groups index start groups) = length groups.
Proof.
  revert index start. induction groups as [|g gs IH]; intros index start; [done|].
  cbn. by rewrite IH.
Qed.

Lemma slides_of_groups_snoc index start groups g :
  of_groups index start (groups ++ [g]) =
  of_groups index start groups ++
  [mk_slide (index + length groups) g
     (Z.of_nat (start + length (concat groups)))
     (Z.of_nat (start + length (concat groups) + length g) - 1)].
Proof.
  revert index start. induction groups as [|g' gs IH]; intros index start.
  - cbn. by rewrite !Nat.add_0_r.
  - cbn [app slides_of_groups concat length]. rewrite IH.
    rewrite length_app.
    replace (S index + length gs) with (index + S (length gs)) by lia.
    replace (start + length g' + length (concat gs))
      with (start + (length g' + length (concat gs))) by lia.
    done.
Qed.

Lemma slides_of_groups_contents index start groups :
  map (fun s => content (location s)) (of_groups index start groups)
  = map (join LF) groups.
Proof.
  revert index start. induction groups as [|g gs IH]; intros index start; [done|].
  cbn. by rewrite IH.
Qed.

Lemma slides_of_groups_lookup index start groups k g :
  groups !! k = Some g ->
  of_groups index start groups !! k =
  Some (mk_slide (index + k) g
          (Z.of_nat (start + length (concat (take k groups))))
          (Z.of_nat (start + length (concat (take k groups)) + length g) - 1)).
Proof.
  revert index start k. induction groups as [|g' gs IH]; intros index start k Hk.
  - done.
  - destruct k as [|k].
    + injection Hk as ->. cbn. by rewrite !Nat.add_0_r.
    + cbn in Hk. cbn [slides_of_groups lookup list_lookup take concat].
      change ((?x :: ?l) !! S ?n) with (l !! n).
      rewrite (IH _ _ _ Hk), length_app.
      replace (S index + k) with (index + S k) by lia.
      replace (start + length g' + length (concat (take k gs)))
        with (start + (length g' + length (concat (take k gs)))) by lia.
      done.
Qed.

Lemma slides_of_groups_lookup_inv index start groups k s :
  of_groups index start groups !! k = Some s ->
  exists g, groups !! k = Some g /\
    s = mk_slide (index + k) g
          (Z.of_nat (start + length (concat (take k groups))))
          (Z.of_nat (start + length (concat (take k groups)) + length g) - 1).
Proof.
  intros Hs.
  destruct (lookup_lt_is_Some_2 groups k) as [g Hg].
  { apply lookup_lt_Some in Hs. by rewrite slides_of_groups_length in Hs. }
  exists g. split; [done|].
  rewrite (slides_of_groups_lookup _ _ _ _ _ Hg) in Hs. by injection Hs.
Qed.

(** Invariant of the loop when the first [i] lines are done. *)
Lemma parse_step_groups (lines : list jsstring) i line st groups :
  lines !! i = Some line ->
  Forall (fun g => g <> []) groups ->
  concat groups ++ ps_currentSlideLines st = take i lines ->
  ps_slides st = of_groups 0 0 groups ->
  ps_currentSlideStartLine st = Z.of_nat (length (concat groups)) ->
  Forall starts_with_header (tail (groups ++ [ps_currentSlideLines st])) ->
  exists groups',
    Forall (fun g => g <> []) groups' /\
    concat groups' ++ ps_currentSlideLines (pstep line i st) = take (S i) lines /\
    ps_slides (pstep line i st) = of_groups 0 0 groups' /\
    ps_currentSlideStartLine (pstep line i st)
      = Z.of_nat (length (concat groups')) /\
    ps_currentSlideLines (pstep line i st) <> [] /\
    Forall starts_with_header
      (tail (groups' ++ [ps_currentSlideLines (pstep line i st)])).
Proof.
  intros Hline Hne Hcat Hslides Hstart Hhd.
  assert (Hi : length (concat groups) + length (ps_currentSlideLines st) = i).
  { rewrite <- length_app, Hcat, length_take.
    apply lookup_lt_Some in Hline. lia. }
  unfold parse_step.
  destruct (negb (fst (fence_step line (ps_fence st))) && is_header_line line
            && (0 <? length (ps_currentSlideLines st))) eqn:E.
  - apply andb_true_iff in E as [[_ Hh]%andb_true_iff Hpos%Nat.ltb_lt].
    exists (groups ++ [ps_currentSlideLines st]). cbn. split_and!.
    + apply Forall_app. split; [done|]. constructor; [|done].
      intros Hnil. rewrite Hnil in Hpos. cbn in Hpos. lia.
    + rewrite concat_app. cbn. rewrite app_nil_r, Hcat.
      by rewrite (take_S_r _ _ _ Hline).
    + rewrite slides_of_groups_snoc, Hslides, slides_of_groups_length, Hstart.
      cbn [Nat.add]. do 3 f_equal. lia.
    + rewrite concat_app, length_app. cbn [concat]. rewrite app_nil_r. lia.
    + done.
    + destruct (groups ++ [ps_currentSlideLines st]) as [|g0 gs] eqn:Eg.
      { by destruct groups. }
      cbn [app tail] in *. apply Forall_app. split; [done|].
      by constructor.
  - exists groups. cbn. split_and!; [done| |done|done| |].
    + by rewrite app_assoc, Hcat, (take_S_r _ _ _ Hline).
    + by destruct (ps_currentSlideLines st).
    + destruct groups as [|g0 gs]; [done|]. cbn [app tail] in *.
      apply Forall_app in Hhd as [Hgs Hcur]. apply Forall_app. split; [done|].
      inversion Hcur as [|? ? Hc _]; subst. constructor; [|done].
      by destruct (ps_currentSlideLines st).
Qed.

Lemma parse_loop_groups (lines : list jsstring) rest i st groups :
  rest = drop i lines ->
  Forall (fun g => g <> []) groups ->
  concat groups ++ ps_currentSlideLines st = take i lines ->
  ps_slides st = of_groups 0 0 groups ->
  ps_currentSlideStartLine st = Z.of_nat (length (concat groups)) ->
  (0 < i -> ps_currentSlideLines st <> []) ->
  Forall starts_with_header (tail (groups ++ [ps_currentSlideLines st])) ->
  exists groups',
    Forall (fun g => g <> []) groups' /\
    concat groups' ++ ps_currentSlideLines (ploop rest i st) = lines /\
    ps_slides (ploop rest i st) = of_groups 0 0 groups' /\
    ps_currentSlideStartLine (ploop rest i st)
      = Z.of_nat (length (concat groups')) /\
    (0 < length lines -> ps_currentSlideLines (ploop rest i st) <> []) /\
    Forall starts_with_header
      (tail (groups' ++ [ps_currentSlideLines (ploop rest i st)])).
Proof.
  revert i st groups.
  induction rest as [|line rest IH];
    intros i st groups Hrest Hne Hcat Hs Hst Hcur Hhd.
  - assert (Hl : length (drop i lines) = 0) by (by rewrite <- Hrest).
    rewrite length_drop in Hl.
    exists groups. cbn. rewrite take_ge in Hcat by lia.
    split_and!; try done. intros Hpos.
    destruct (decide (i = 0)) as [->|]; [lia|]. apply Hcur. lia.
  - assert (Hline : lines !! i = Some line).
    { pose proof (lookup_drop lines i 0) as Hd.
      by rewrite <- Hrest, Nat.add_0_r in Hd. }
    destruct (parse_step_groups lines i line st groups Hline Hne Hcat Hs Hst Hhd)
      as (groups' & Hne' & Hcat' & Hs' & Hst' & Hcur' & Hhd').
    cbn [parse_loop]. apply (IH (S i) _ groups'); try done.
    rewrite (drop_S _ _ _ Hline) in Hrest. congruence.
Qed.

(** The slides are those of consecutive non-empty groups of the lines of
    the document, each group after the first starting with a header. *)
Lemma parse_groups markdownContent repositoryInfo :
  exists groups,
    groups <> [] /\
    Forall (fun g => g <> []) groups /\
    concat groups = split LF markdownContent /\
    Forall starts_with_header (tail groups) /\
    parse markdownContent repositoryInfo =
    mkPresentation None (of_groups 0 0 groups) markdownContent repositoryInfo.
Proof.
  unfold parseMarkdownIntoPresentation.
  pose proof (split_nonempty LF markdownContent) as Hlines.
  destruct (negb (detectMultipleHeaders markdownContent)).
  - exists [split LF markdownContent]. split_and!.
    + done.
    + by constructor.
    + cbn. by rewrite app_nil_r.
    + done.
    + cbn. unfold make_slide. by rewrite join_split.
  - destruct (parse_loop_groups (split LF markdownContent)
                (split LF markdownContent) 0 (mkParseState [] [] 0 (false, [])) [])
      as (groups & Hne & Hcat & Hs & Hst & Hcur & Hhd);
      [by rewrite drop_0|done|done|done|done|lia|done|].
    set (st := parse_loop _ _ _ _ _ _) in *.
    assert (Hpos : 0 < length (split LF markdownContent)).
    { destruct (split LF markdownContent); [done|cbn; lia]. }
    specialize (Hcur Hpos).
    exists (groups ++ [ps_currentSlideLines st]).
    assert (Hlen : 0 < length (ps_currentSlideLines st)).
    { destruct (ps_currentSlideLines st); [done|cbn; lia]. }
    rewrite (proj2 (Nat.ltb_lt _ _) Hlen). split_and!.
    + by destruct groups.
    + apply Forall_app. split; [done|]. by constructor.
    + rewrite concat_app. cbn. by rewrite app_nil_r.
    + done.
    + rewrite slides_of_groups_snoc, Hs, slides_of_groups_length, Hst.
      cbn [Nat.add]. do 4 f_equal.
      rewrite <- Hcat at 1. rewrite length_app. lia.
Qed.

Local Abbreviation parse_source :=
  (parseMarkdownIntoPresentationFromSource CustomParser parseMarkdownChunks
     customParsers).

Lemma parse_serialize markdownContent repositoryInfo :
  serializePresentationToMarkdown (slides (parse markdownContent repositoryInfo))
  = markdownContent.
Proof.
  destruct (parse_groups markdownContent repositoryInfo)
    as (groups & _ & Hne & Hcat & _ & ->).
  unfold serializePresentationToMarkdown. cbn [slides].
  by rewrite slides_of_groups_contents, join_concat, Hcat, join_split.
Qed.

Lemma parse_slide_fields markdownContent repositoryInfo k s :
  slides (parse markdownContent repositoryInfo) !! k = Some s ->
  slide_id s = lit "slide-" ++ decimal k ++ lit "-"
               ++ hashMarkdownString (content (location s)) /\
  title s = extractSlideTitle (content (location s)) /\
  chunks s = parseMarkdownChunks (content (location s)) (slide_id s)
                                 customParsers.
Proof.
  destruct (parse_groups markdownContent repositoryInfo)
    as (groups & _ & _ & _ & _ & ->).
  cbn [slides]. intros (g & _ & ->)%slides_of_groups_lookup_inv. done.
Qed.

(** X16. Parsing and serialising give back the document, and the document is
    also kept as [originalContent]. *)
Theorem parseMarkdownIntoPresentation_round_trip markdownContent repositoryInfo :
  serializePresentationToMarkdown (slides (parse markdownContent repositoryInfo))
  = markdownContent /\
  originalContent (parse markdownContent repositoryInfo) = markdownContent.
Proof.
  split; [apply parse_serialize|].
  unfold parseMarkdownIntoPresentation. by destruct (negb _).
Qed.

(** X17. Parsing from a source attaches the source to the presentation of its
    content: the slides serialise to the content of the source, and the
    repository is the one of the source. *)
Theorem parseMarkdownIntoPresentationFromSource_round_trip src :
  source (parse_source src) = Some src /\
  slides (parse_source src)
    = slides (parse (source_content src) (source_repositoryInfo src)) /\
  serializePresentationToMarkdown (slides (parse_source src))
    = source_content src /\
  originalContent (parse_source src) = source_content src /\
  repositoryInfo (parse_source src) = source_repositoryInfo src.
Proof.
  unfold parseMarkdownIntoPresentationFromSource. cbn.
  split_and!; [done|done|apply parse_serialize| |];
    unfold parseMarkdownIntoPresentation; by destruct (negb _).
Qed.

(** X18. The slide at index [k] has the id [slide-k-hash] for the hash of its
    content, the title extracted from its content and the chunks parsed
    from its content under its id. *)
Theorem parseMarkdownIntoPresentation_slide_fields
    markdownContent repositoryInfo k s :
  slides (parse markdownContent repositoryInfo) !! k = Some s ->
  slide_id s = lit "slide-" ++ decimal k ++ lit "-"
               ++ hashMarkdownString (content (location s)) /\
  title s = extractSlideTitle (content (location s)) /\
  chunks s = parseMarkdownChunks (content (location s)) (slide_id s)
                                 customParsers.
Proof. apply parse_slide_fields. Qed.

(** X19. No two slides of a parsed presentation have the same id. *)
Theorem parseMarkdownIntoPresentation_ids_distinct markdownContent repositoryInfo :
  NoDup (map slide_id
           (slides (parseMarkdownIntoPresentation CustomParser parseMarkdownChunks
                      customParsers markdownContent repositoryInfo))).
Proof.
  apply NoDup_alt. intros i j x Hi Hj.
  apply list_lookup_fmap_Some in Hi as (si & -> & Hi).
  apply list_lookup_fmap_Some in Hj as (sj & Heq & Hj).
  apply parse_slide_fields in Hi as (Hidi & _).
  apply parse_slide_fields in Hj as (Hidj & _).
  rewrite Hidi, Hidj in Heq.
  apply app_inv_head in Heq.
  apply digits_prefix_inj in Heq; [|apply decimal_digits..].
  by apply decimal_inj.
Qed.

(** X20. The slides tile the lines of the document: slide [k] covers the lines
    [startLine] to [endLine], which are in range, its content is these
    lines joined, the first slide starts at line 0, each next slide starts
    right after the previous one, and the last slide ends at the last
    line. *)
Theorem parseMarkdownIntoPresentation_line_ranges
    markdownContent repositoryInfo k s :
  slides (parse markdownContent repositoryInfo) !! k = Some s ->
  exists a b : nat,
    startLine (location s) = Z.of_nat a /\
    endLine (location s) = Z.of_nat b /\
    a <= b < length (split LF markdownContent) /\
    content (location s)
      = join LF (take (S b - a) (drop a (split LF markdownContent))) /\
    (k = 0 -> a = 0) /\
    (forall s', slides (parse markdownContent repositoryInfo) !! S k = Some s' ->
                startLine (location s') = Z.of_nat (S b)) /\
    (slides (parse markdownContent repositoryInfo) !! S k = None ->
     S b = length (split LF markdownContent)).
Proof.
  destruct (parse_groups markdownContent repositoryInfo)
    as (groups & _ & Hne & Hcat & _ & ->).
  cbn [slides]. intros (g & Hg & ->)%slides_of_groups_lookup_inv.
  assert (Hgne : 0 < length g).
  { rewrite Forall_lookup in Hne. specialize (Hne _ _ Hg).
    destruct g; [done|cbn; lia]. }
  assert (Hsplit : concat groups
                   = concat (take k groups) ++ g ++ concat (drop (S k) groups)).
  { rewrite <- (take_drop_middle _ _ _ Hg) at 1.
    by rewrite concat_app. }
  exists (length (concat (take k groups))),
         (length (concat (take k groups)) + length g - 1).
  cbn [location startLine endLine content make_slide slide_of_content Nat.add].
  split_and!.
  - done.
  - lia.
  - lia.
  - rewrite <- Hcat, Hsplit, !length_app. lia.
  - rewrite <- Hcat, Hsplit. rewrite drop_app_length.
    replace (S (length (concat (take k groups)) + length g - 1)
             - length (concat (take k groups))) with (length g) by lia.
    by rewrite take_app_length.
  - by intros ->.
  - intros s' (g' & Hg' & ->)%slides_of_groups_lookup_inv.
    cbn [location startLine make_slide slide_of_content Nat.add].
    rewrite (take_S_r _ _ _ Hg), concat_app, length_app. cbn [concat].
    rewrite app_nil_r. lia.
  - intros Hnone. apply lookup_ge_None in Hnone.
    rewrite slides_of_groups_length in Hnone.
    rewrite <- Hcat, Hsplit, !length_app.
    rewrite (drop_ge groups (S k)) by done. cbn. lia.
Qed.

(** X21. Every slide but the first starts at a [#] or [##] header line. *)
Theorem parseMarkdownIntoPresentation_starts_at_header
    markdownContent repositoryInfo k s :
  slides (parse markdownContent repositoryInfo) !! S k = Some s ->
  exists line,
    split LF markdownContent !! Z.to_nat (startLine (location s)) = Some line /\
    is_header_line line = true.
Proof.
  destruct (parse_groups markdownContent repositoryInfo)
    as (groups & _ & Hne & Hcat & Hhd & ->).
  cbn [slides]. intros (g & Hg & ->)%slides_of_groups_lookup_inv.
  cbn [location startLine make_slide slide_of_content Nat.add].
  rewrite Nat2Z.id, <- Hcat.
  assert (Hsplit : concat groups
                   = concat (take (S k) groups) ++ g ++ concat (drop (S (S k)) groups)).
  { rewrite <- (take_drop_middle _ _ _ Hg) at 1.
    by rewrite concat_app. }
  rewrite Forall_lookup in Hhd. specialize (Hhd k g).
  rewrite lookup_tail in Hhd. specialize (Hhd Hg).
  destruct g as [|line g]; [done|]. exists line. split; [|done].
  rewrite Hsplit. by rewrite lookup_app_r, Nat.sub_diag by lia.
Qed.

(** *** The number of slides *)

Lemma fence_step_header line fence :
  is_header_line line = true -> fence_step line fence = fence.
Proof.
  unfold is_header_line, fence_step.
  intros [H%bool_decide_eq_true _]%andb_true_iff.
  destruct fence as [inCodeBlock delimiter].
  destruct (trim line) as [|c t]; [done|].
  change (lit "#") with [35%N] in H. cbn [length take] in H. injection H as ->.
  assert (H1 : startsWith (35%N :: t) (lit "```") = false).
  { apply bool_decide_eq_false_2. cbn. intros [=]. }
  assert (H2 : startsWith (35%N :: t) (lit "~~~") = false).
  { apply bool_decide_eq_false_2. cbn. intros [=]. }
  by rewrite H1, H2.
Qed.

Lemma detect_count lines h1 h2 fence a b fence' :
  foldl detect_step (h1, h2, fence) lines = (a, b, fence') ->
  a + b = h1 + h2 + header_count fence lines.
Proof.
  revert h1 h2 fence.
  induction lines as [|line lines IH]; intros h1 h2 fence H.
  - cbn in H. injection H as <- <- _. cbn. lia.
  - cbn [foldl] in H. cbn [header_count].
    destruct (detect_step (h1, h2, fence) line) as [[h1' h2'] fence1] eqn:E.
    apply IH in H. rewrite H. clear H IH.
    unfold detect_step in E.
    destruct (negb (fst (fence_step line fence))); cbn [andb].
    + destruct (is_header_line line).
      * destruct (negb (startsWith (trim line) (lit "##")));
          injection E as <- <- <-; lia.
      * injection E as <- <- <-; lia.
    + injection E as <- <- <-; lia.
Qed.

Lemma detectMultipleHeaders_count markdownContent :
  detectMultipleHeaders markdownContent
  = (1 <? header_count (false, []) (split LF markdownContent)).
Proof.
  unfold detectMultipleHeaders.
  destruct (foldl detect_step (0, 0, (false, [])) (split LF markdownContent))
    as [[a b] fence'] eqn:E.
  apply detect_count in E. by rewrite E.
Qed.

Lemma parse_loop_count rest i st :
  ps_currentSlideLines st <> [] ->
  length (ps_slides (ploop rest i st))
    = length (ps_slides st) + header_count (ps_fence st) rest /\
  ps_currentSlideLines (ploop rest i st) <> [].
Proof.
  revert i st. induction rest as [|line rest IH]; intros i st Hcur.
  - cbn. split; [lia|done].
  - cbn [parse_loop header_count].
    assert (Hpos : (0 <? length (ps_currentSlideLines st)) = true).
    { apply Nat.ltb_lt. destruct (ps_currentSlideLines st); [done|cbn; lia]. }
    destruct (IH (S i) (pstep line i st)) as [Hlen Hcur'].
    { unfold parse_step. destruct (_ && _); cbn; [done|].
      by destruct (ps_currentSlideLines st). }
    split; [|done]. rewrite Hlen. unfold parse_step. rewrite Hpos, andb_true_r.
    destruct (negb (fst (fence_step line (ps_fence st))) && is_header_line line);
      cbn; [rewrite length_app; cbn|]; lia.
Qed.

Lemma parse_count markdownContent repositoryInfo :
  length (slides (parse markdownContent repositoryInfo)) =
  if 1 <? header_count (false, []) (split LF markdownContent)
  then match split LF markdownContent with
       | line :: _ =>
           if is_header_line line
           then header_count (false, []) (split LF markdownContent)
           else S (header_count (false, []) (split LF markdownContent))
       | [] => 1
       end
  else 1.
Proof.
  unfold parseMarkdownIntoPresentation.
  rewrite detectMultipleHeaders_count.
  pose proof (split_nonempty LF markdownContent) as Hlines.
  destruct (split LF markdownContent) as [|line rest]; [done|].
  destruct (1 <? header_count _ _); [|done]. cbn [negb].
  cbn [parse_loop header_count].
  set (st := pstep line 0 _).
  assert (Hst : st = mkParseState [] [line] 0 (fence_step line (false, []))).
  { subst st. unfold parse_step. cbn. by rewrite andb_false_r. }
  destruct (parse_loop_count rest 1 st) as [Hlen Hcur]; [by rewrite Hst|].
  destruct (ps_currentSlideLines (ploop rest 1 st)) as [|l0 ls] eqn:Ecur; [done|].
  cbn [length Nat.ltb Nat.leb slides]. rewrite length_app, Hlen, Hst.
  cbn [ps_slides ps_fence length].
  destruct (is_header_line line) eqn:Eh.
  - rewrite (fence_step_header _ _ Eh). cbn [fst negb andb]. lia.
  - rewrite andb_false_r. lia.
Qed.

(** X22. [detectMultipleHeaders] tells whether more than one [#] or [##] header
    line lies outside code blocks.  A document without multiple headers is
    one slide; otherwise there is one slide for each such header, and one
    more for the lines before the first header if the document does not
    start with a header.  So there is always a slide, and exactly one only
    without multiple headers. *)
Theorem parseMarkdownIntoPresentation_slide_count markdownContent repositoryInfo :
  let lines := split LF markdownContent in
  let n := header_count (false, []) lines in
  detectMultipleHeaders markdownContent = (1 <? n) /\
  length (slides (parse markdownContent repositoryInfo)) =
    (if 1 <? n
     then match lines with
          | line :: _ => if is_header_line line then n else S n
          | [] => 1
          end
     else 1) /\
  1 <= length (slides (parse markdownContent repositoryInfo)) /\
  (length (slides (parse markdownContent repositoryInfo)) = 1
   <-> detectMultipleHeaders markdownContent = false).
Proof.
  intros lines n. subst lines n.
  rewrite detectMultipleHeaders_count, parse_count.
  split; [done|]. split; [done|].
  destruct (Nat.ltb_spec 1 (header_count (false, []) (split LF markdownContent)))
    as [Hn|Hn]; [|split; [lia|done]].
  set (n := header_count _ _) in *.
  pose proof (split_nonempty LF markdownContent) as Hlines.
  destruct (split LF markdownContent) as [|line rest]; [done|].
  destruct (is_header_line line); (split; [lia|]); split; (lia || done).
Qed.

End ParseProofs.

(** ** [hashMarkdownString] *)

Lemma to_int32_range z : (-2147483648 <= to_int32 z < 2147483648)%Z.
Proof.
  unfold to_int32.
  pose proof (Z.mod_pos_bound (z + 2147483648) 4294967296 eq_refl). lia.
Qed.

Lemma to_int32_wrap z : exists q, to_int32 z = (z + q * 4294967296)%Z.
Proof.
  unfold to_int32. exists (- ((z + 2147483648) / 4294967296))%Z.
  pose proof (Z.div_mod (z + 2147483648) 4294967296). lia.
Qed.

Lemma to_int32_congr a q : to_int32 (a + q * 4294967296) = to_int32 a.
Proof.
  unfold to_int32.
  replace (a + q * 4294967296 + 2147483648)%Z
    with (a + 2147483648 + q * 4294967296)%Z by lia.
  by rewrite Z_mod_plus_full.
Qed.

Lemma hash_step_polynomial h c :
  hash_step (to_int32 h) c = to_int32 (31 * h + Z.of_N c).
Proof.
  unfold hash_step. rewrite Z.shiftl_mul_pow2 by lia.
  destruct (to_int32_wrap h) as [q1 ->].
  destruct (to_int32_wrap ((h + q1 * 4294967296) * 2 ^ 5)) as [q2 ->].
  rewrite <- (to_int32_congr (31 * h + Z.of_N c) (31 * q1 + q2)).
  f_equal. lia.
Qed.

Lemma foldl_hash_step_polynomial str h :
  foldl hash_step (to_int32 h) str
  = to_int32 (foldl (fun h c => (31 * h + Z.of_N c)%Z) h str).
Proof.
  revert h. induction str as [|c str IH]; intros h; [done|].
  cbn [foldl]. by rewrite hash_step_polynomial, IH.
Qed.

Lemma digit36_range d :
  (d < 36)%N ->
  (48 <= digit36 d <= 57)%N \/ (97 <= digit36 d <= 122)%N.
Proof. unfold digit36. intros Hd. destruct (N.ltb_spec d 10); lia. Qed.

Lemma radix36_digits_range fuel n acc :
  Forall (fun c => (48 <= c <= 57)%N \/ (97 <= c <= 122)%N) acc ->
  Forall (fun c => (48 <= c <= 57)%N \/ (97 <= c <= 122)%N)
         (radix36_digits fuel n acc).
Proof.
  revert n acc. induction fuel as [|fuel IH]; intros n acc Hacc; [done|].
  cbn [radix36_digits].
  assert (Hd : Forall (fun c => (48 <= c <= 57)%N \/ (97 <= c <= 122)%N)
                 (digit36 (n mod 36) :: acc)).
  { constructor; [|done]. apply digit36_range. by apply N.mod_lt. }
  destruct (n / 36 =? 0)%N; [done|]. by apply IH.
Qed.

Lemma radix36_digits_nonempty fuel n acc :
  radix36_digits (S fuel) n acc <> [].
Proof.
  revert n acc. induction fuel as [|fuel IH]; intros n acc.
  - cbn. by destruct (n / 36 =? 0)%N.
  - change (radix36_digits (S (S fuel)) n acc)
      with (if (n / 36 =? 0)%N then digit36 (n mod 36) :: acc
            else radix36_digits (S fuel) (n / 36)%N (digit36 (n mod 36) :: acc)).
    destruct (n / 36 =? 0)%N; [done|apply IH].
Qed.

(** X23. The hash of a string is the polynomial of its code units with base 31
    wrapped to 32 bits, without its sign, written in base 36: at least
    one digit, only digits and lower-case letters, and a number of at most
    2^31. *)
Theorem hashMarkdownString_polynomial str :
  hashMarkdownString str
    = toString36 (Z.to_N (Z.abs (to_int32 (polynomial_hash str)))) /\
  hashMarkdownString str <> [] /\
  Forall (fun c => (48 <= c <= 57)%N \/ (97 <= c <= 122)%N)
         (hashMarkdownString str) /\
  (radix36_value (hashMarkdownString str) <= 2147483648)%N.
Proof.
  unfold hashMarkdownString, polynomial_hash. split_and!.
  - f_equal. f_equal. f_equal.
    change 0%Z with (to_int32 0) at 1. apply foldl_hash_step_polynomial.
  - apply radix36_digits_nonempty.
  - by apply radix36_digits_range.
  - rewrite toString36_value.
    change 0%Z with (to_int32 0) at 1. rewrite foldl_hash_step_polynomial.
    pose proof (to_int32_range
                  (foldl (fun h c => (31 * h + Z.of_N c)%Z) 0%Z str)). lia.
Qed.

(** ** [extractSlideTitle] *)

Lemma split_Forall (P : N -> Prop) sep s :
  Forall P s -> Forall (Forall P) (split sep s).
Proof.
  induction 1 as [|c s Hc Hs IH]; [by repeat constructor|].
  cbn [split]. destruct (c =? sep)%N; [by constructor|].
  destruct (split sep s) as [|l ls]; [by repeat constructor|].
  inversion IH; subst. constructor; [by constructor|done].
Qed.

Lemma drop_while_elem {A} (p : A -> bool) l x : x ∈ drop_while p l -> x ∈ l.
Proof.
  induction l as [|y l IH]; [done|]. cbn.
  destruct (p y); [|done]. intros H. right. by apply IH.
Qed.

Lemma trim_elem s c : c ∈ trim s -> c ∈ s.
Proof. intros H%trimEnd_elem. by apply drop_while_elem in H. Qed.

Lemma trim_blank s : Forall (fun c => isWhiteSpace c = true) s -> trim s = [].
Proof.
  unfold trim, trimStart. induction 1 as [|c s Hc _ IH]; [done|].
  cbn. by rewrite Hc.
Qed.

Lemma headingMatch_no_terminator line text :
  headingMatch line = Some text ->
  Forall (fun c => isLineTerminator c = false) text.
Proof.
  unfold headingMatch.
  destruct (bool_decide _ || bool_decide _); [done|].
  destruct (forallb _ _) eqn:E; cbn [negb]; [|done].
  destruct (drop_while isWhiteSpace _) as [|c t] eqn:Et.
  - destruct (rev _) as [|c [|? ?]]; try done.
    destruct (isLineTerminator c) eqn:Ec; [done|].
    intros [= <-]. by repeat constructor.
  - intros [= <-]. apply Forall_forall. intros x Hx.
    rewrite forallb_forall in E. apply negb_true_iff, E.
    by apply list_elem_of_In.
Qed.

Lemma headingMatch_no_hash line : HASH ∉ line -> headingMatch line = None.
Proof.
  intros Hh. unfold headingMatch.
  destruct line as [|c line]; [done|]. cbn [take_while].
  destruct (N.eqb_spec HASH c) as [<-|_]; [|done].
  exfalso. apply Hh. by left.
Qed.

Lemma first_heading_no_terminator lines t :
  first_heading lines = Some t ->
  Forall (fun c => isLineTerminator c = false) t.
Proof.
  induction lines as [|line lines IH]; [done|]. cbn.
  destruct (headingMatch line) as [text|] eqn:E; [|done].
  intros [= <-]. apply headingMatch_no_terminator in E.
  rewrite Forall_forall in E. apply Forall_forall.
  intros x Hx%trim_elem. by apply E.
Qed.

Lemma first_heading_no_hash lines :
  Forall (fun line => HASH ∉ line) lines -> first_heading lines = None.
Proof.
  induction 1 as [|line lines Hl _ IH]; [done|]. cbn.
  by rewrite (headingMatch_no_hash _ Hl).
Qed.

(** X24. A title never has a line feed in it. *)
Theorem extractSlideTitle_single_line content :
  LF ∉ extractSlideTitle content.
Proof.
  unfold extractSlideTitle.
  set (lines := List.filter _ _).
  destruct (first_heading lines) as [t|] eqn:E.
  - apply first_heading_no_terminator in E. rewrite Forall_forall in E.
    intros H%E. done.
  - destruct lines as [|firstLine rest] eqn:El.
    + apply (bool_decide_unpack _). by vm_compute.
    + assert (Hin : firstLine ∈ split LF content).
      { assert (Hf : In firstLine lines) by (rewrite El; by left).
        subst lines. apply filter_In in Hf as [Hf _]. by apply list_elem_of_In. }
      pose proof (split_no_sep LF content) as Hno. rewrite Forall_forall in Hno.
      specialize (Hno _ Hin).
      destruct (50 <? length firstLine); [|done].
      intros [H|H]%elem_of_app.
      * apply Hno. eapply elem_of_sublist; [exact H|apply sublist_take].
      * revert H. apply (bool_decide_unpack _). by vm_compute.
Qed.

(** X25. Content of white space only has the title "Untitled Slide". *)
Theorem extractSlideTitle_blank content :
  Forall (fun c => isWhiteSpace c = true) content ->
  extractSlideTitle content = lit "Untitled Slide".
Proof.
  intros Hws. unfold extractSlideTitle.
  assert (Hnil : List.filter (fun line => negb (bool_decide (trim line = [])))
                   (split LF content) = []).
  { pose proof (split_Forall _ LF _ Hws) as Hl.
    induction Hl as [|line lines Hline _ IH]; [done|]. cbn.
    by rewrite (trim_blank _ Hline), bool_decide_eq_true_2. }
  by rewrite Hnil.
Qed.

Lemma extractSlideTitle_blank_witness :
  Forall (fun c => isWhiteSpace c = true) blank_document /\
  extractSlideTitle blank_document = lit "Untitled Slide".
Proof.
  assert (H : Forall (fun c => isWhiteSpace c = true) blank_document).
  { vm_compute. repeat constructor. }
  split; [exact H|]. exact (extractSlideTitle_blank blank_document H).
Defined.

(** X26. Without a [#] in the content no line is a heading, and the title is
    made of the first line that is not blank: it has at most 50 code
    units. *)
Theorem extractSlideTitle_fallback_length content :
  HASH ∉ content -> length (extractSlideTitle content) <= 50.
Proof.
  intros Hh. unfold extractSlideTitle.
  set (lines := List.filter _ _).
  assert (Hnone : first_heading lines = None).
  { apply first_heading_no_hash. apply Forall_forall. intros line Hl.
    subst lines. apply list_elem_of_In, filter_In in Hl as [Hl _].
    apply list_elem_of_In in Hl.
    assert (Hc : Forall (fun c => c <> HASH) content).
    { apply Forall_forall. intros c Hc ->. done. }
    pose proof (split_Forall _ LF _ Hc) as Hs. rewrite Forall_forall in Hs.
    specialize (Hs _ Hl). rewrite Forall_forall in Hs.
    intros Hin. by apply (Hs _ Hin). }
  rewrite Hnone. destruct lines as [|firstLine rest]; [cbn; lia|].
  destruct (Nat.ltb_spec 50 (length firstLine)); [|lia].
  rewrite length_app, length_take. change (length (lit "...")) with 3. lia.
Qed.

Lemma extractSlideTitle_fallback_length_witness :
  (HASH ∉ plain_document) /\ length (extractSlideTitle plain_document) = 50.
Proof.
  assert (H : HASH ∉ plain_document).
  { apply (bool_decide_unpack _). by vm_compute. }
  split; [exact H|].
  pose proof (extractSlideTitle_fallback_length plain_document H) as Hle.
  assert (Hge : 50 <= length (extractSlideTitle plain_document)).
  { vm_compute. repeat constructor. }
  exact (Nat.le_antisymm _ _ Hle Hge).
Defined.

(** ** Parsed presentations, by example *)

Lemma parseMarkdownIntoPresentation_slide_fields_witness :
  exists s,
    slides (parseMarkdownIntoPresentation unit no_chunks None two_sections None) !! 1
      = Some s /\
    slide_id s = lit "slide-" ++ decimal 1 ++ lit "-"
                 ++ hashMarkdownString (content (location s)) /\
    title s = lit "Two".
Proof.
  eexists. split; [vm_compute; reflexivity|].
  split; [|vm_compute; reflexivity].
  eapply (parseMarkdownIntoPresentation_slide_fields unit no_chunks None
            two_sections None 1).
  vm_compute. reflexivity.
Defined.

Lemma parseMarkdownIntoPresentation_line_ranges_witness :
  exists s,
    slides (parseMarkdownIntoPresentation unit no_chunks None two_sections None) !! 1
      = Some s /\
    exists a b : nat,
      startLine (location s) = Z.of_nat a /\
      endLine (location s) = Z.of_nat b /\
      a <= b < length (split LF two_sections).
Proof.
  eexists. split; [vm_compute; reflexivity|].
  edestruct (parseMarkdownIntoPresentation_line_ranges unit no_chunks None
               two_sections None 1) as (a & b & Ha & Hb & Hab & _).
  { vm_compute. reflexivity. }
  exists a, b. split; [exact Ha|]. split; [exact Hb|exact Hab].
Defined.

Lemma parseMarkdownIntoPresentation_starts_at_header_witness :
  exists s line,
    slides (parseMarkdownIntoPresentation unit no_chunks None two_sections None) !! 1
      = Some s /\
    split LF two_sections !! Z.to_nat (startLine (location s)) = Some line /\
    is_header_line line = true.
Proof.
  edestruct (parseMarkdownIntoPresentation_starts_at_header unit no_chunks None
               two_sections None 0) as (line & Hline & Hh).
  { vm_compute. reflexivity. }
  eexists _, line. split; [vm_compute; reflexivity|]. split; [exact Hline|exact Hh].
Defined.

(** ** [updatePresentationSlide], composed *)

Section UpdateComposed.

Variable CustomParser : Type.
Variable parseMarkdownChunks :
  jsstring -> jsstring -> option (list CustomParser) -> list BaseChunk.
Variable customParsers : option (list CustomParser).

Local Abbreviation update := (updatePresentationSlide CustomParser parseMarkdownChunks).
Local Abbreviation parse :=
  (parseMarkdownIntoPresentation CustomParser parseMarkdownChunks customParsers).

(** X27. Updating a slide twice gives the presentation that the second update
    alone gives: the same slides, serialised content, source and
    repository. *)
Theorem updatePresentationSlide_twice h p slideIndex content1 content2 slides :
  h !! obj_slides p = Some slides ->
  (0 <= slideIndex < Z.of_nat (length slides))%Z ->
  exists h1 p1 h2 p2 h3 p3 v,
    update h p slideIndex content1 customParsers = (h1, inr p1) /\
    update h1 p1 slideIndex content2 customParsers = (h2, inr p2) /\
    update h p slideIndex content2 customParsers = (h3, inr p3) /\
    presentation_value h2 p2 = Some v /\
    presentation_value h3 p3 = Some v.
Proof.
  intros Hs Hr.
  destruct (update_in_range CustomParser parseMarkdownChunks h p slideIndex
              content1 customParsers slides Hs Hr) as (slide & Hslide & Heq1).
  destruct (update_in_range CustomParser parseMarkdownChunks h p slideIndex
              content2 customParsers slides Hs Hr) as (slide' & Hslide' & Heq3).
  cbn zeta in Heq1, Heq3. rewrite Hslide in Hslide'. injection Hslide' as <-.
  set (slide1 := mkSlide _ (extractSlideTitle content1) _ _) in Heq1.
  set (slide2 := mkSlide _ (extractSlideTitle content2) _ _) in Heq3.
  set (h1 := <[fresh (dom h) := <[Z.to_nat slideIndex := slide1]> slides]> h) in *.
  set (p1 := mkPresentationObject _ _ _ _) in Heq1.
  destruct (update_in_range CustomParser parseMarkdownChunks h1 p1 slideIndex
              content2 customParsers (<[Z.to_nat slideIndex := slide1]> slides))
    as (slide'' & Hslide'' & Heq2).
  { subst h1 p1. cbn. by rewrite lookup_insert_eq. }
  { by rewrite length_insert. }
  cbn zeta in Heq2.
  rewrite list_lookup_insert_eq in Hslide'' by (apply lookup_lt_Some in Hslide; lia).
  injection Hslide'' as <-.
  rewrite list_insert_insert_eq in Heq2.
  change (mkSlide (slide_id slide1) (extractSlideTitle content2)
            (mkLocation (startLine (location slide1)) (endLine (location slide1))
               content2)
            (parseMarkdownChunks content2 (slide_id slide1) customParsers))
    with slide2 in Heq2.
  eexists _, _, _, _, _, _, _.
  split; [exact Heq1|]. split; [exact Heq2|]. split; [exact Heq3|].
  unfold presentation_value. cbn [obj_slides obj_source obj_originalContent
                                  obj_repositoryInfo].
  rewrite !lookup_insert_eq. done.
Qed.

(** X28. Writing back to a slide of a parsed presentation the content it has
    gives the presentation again: the update computes the same title and
    chunks, and serialising the slides gives the document that was
    parsed. *)
Theorem updatePresentationSlide_same_content
    h p markdownContent repositoryInfo k s :
  h !! obj_slides p = Some (slides (parse markdownContent repositoryInfo)) ->
  obj_originalContent p = markdownContent ->
  slides (parse markdownContent repositoryInfo) !! k = Some s ->
  exists h' p' v,
    update h p (Z.of_nat k) (content (location s)) customParsers = (h', inr p') /\
    presentation_value h' p' = Some v /\
    presentation_value h p = Some v.
Proof.
  intros Hs Horig Hk.
  destruct (update_in_range CustomParser parseMarkdownChunks h p (Z.of_nat k)
              (content (location s)) customParsers _ Hs) as (slide & Hslide & Heq).
  { apply lookup_lt_Some in Hk. lia. }
  cbn zeta in Heq. rewrite Nat2Z.id in Hslide, Heq.
  rewrite Hk in Hslide. injection Hslide as <-.
  destruct (parse_slide_fields CustomParser parseMarkdownChunks customParsers
              _ _ _ _ Hk) as (_ & Htitle & Hchunks).
  rewrite <- Htitle, <- Hchunks in Heq.
  assert (Hsame : mkSlide (slide_id s) (title s)
                    (mkLocation (startLine (location s)) (endLine (location s))
                                (content (location s))) (chunks s) = s).
  { by destruct s as [? ? [? ? ?] ?]. }
  rewrite Hsame, (list_insert_id _ _ _ Hk) in Heq.
  rewrite (parse_serialize CustomParser parseMarkdownChunks customParsers) in Heq.
  eexists _, _, _. split; [exact Heq|].
  unfold presentation_value. cbn [obj_slides obj_source obj_originalContent
                                  obj_repositoryInfo].
  rewrite lookup_insert_eq, Hs, Horig. done.
Qed.

End UpdateComposed.

Lemma updatePresentationSlide_twice_witness :
  exists h1 p1 h2 p2 h3 p3 v,
    updatePresentationSlide unit no_chunks sample_store sample_object 1
      (lit "# A") None = (h1, inr p1) /\
    updatePresentationSlide unit no_chunks h1 p1 1 (lit "# B") None = (h2, inr p2) /\
    updatePresentationSlide unit no_chunks sample_store sample_object 1
      (lit "# B") None = (h3, inr p3) /\
    presentation_value h2 p2 = Some v /\
    presentation_value h3 p3 = Some v.
Proof.
  apply (updatePresentationSlide_twice unit no_chunks None sample_store
           sample_object 1 (lit "# A") (lit "# B")
           [sample_slide "Slide 1" "# Slide 1"; sample_slide "Slide 2" "# Slide 2"]
           eq_refl).
  cbn. lia.
Defined.

Lemma updatePresentationSlide_same_content_witness :
  exists s h' p' v,
    slides (parseMarkdownIntoPresentation unit no_chunks None two_sections None) !! 1
      = Some s /\
    updatePresentationSlide unit no_chunks parsed_store parsed_object 1
      (content (location s)) None = (h', inr p') /\
    presentation_value h' p' = Some v /\
    presentation_value parsed_store parsed_object = Some v.
Proof.
  edestruct (updatePresentationSlide_same_content unit no_chunks None
               parsed_store parsed_object two_sections None 1)
    as (h' & p' & v & Hupd & Hv' & Hv).
  { reflexivity. }
  { reflexivity. }
  { vm_compute. reflexivity. }
  eexists _, h', p', v. split; [vm_compute; reflexivity|].
  split; [exact Hupd|]. split; [exact Hv'|exact Hv].
Defined.

(** ** Equal slides and modified slides *)

Lemma lines_of_inj s1 s2 : lines_of s1 = lines_of s2 -> s1 = s2.
Proof.
  unfold lines_of. repeat case_bool_decide; subst; try done.
  - intros Heq. symmetry in Heq. by apply split_nonempty in Heq.
  - intros Heq. by apply split_nonempty in Heq.
  - intros Heq. by rewrite <- (join_split LF s1), Heq, join_split.
Qed.

Lemma all_unchanged_projections r :
  Forall (fun e => type e = unchanged) r ->
  before_lines_of_diff r = after_lines_of_diff r.
Proof.
  intros H. unfold before_lines_of_diff, after_lines_of_diff. f_equal.
  induction H as [|e r He _ IH]; [done|]. cbn [List.filter].
  assert (in_before e = true /\ in_after e = true) as [-> ->].
  { unfold in_before, in_after. rewrite He.
    split; repeat case_bool_decide; done. }
  by rewrite IH.
Qed.

Lemma diffText_changes content1 content2 r :
  content1 <> content2 ->
  diffText content1 content2 = Some r ->
  Exists (fun e => type e <> unchanged) r.
Proof.
  intros Hne Hr.
  destruct (diffText_spec content1 content2) as (r' & Hr' & Hb & Ha & _).
  rewrite Hr in Hr'. injection Hr' as <-.
  destruct (decide (Exists (fun e => type e <> unchanged) r)) as [|Hno]; [done|].
  exfalso. apply Hne, lines_of_inj. rewrite <- Hb, <- Ha.
  apply all_unchanged_projections.
  apply Forall_forall. intros e He.
  destruct (decide (type e = unchanged)) as [|Hn]; [done|].
  exfalso. apply Hno, Exists_exists. eauto.
Qed.

(** X29. A slide diff of status [modified] carries a line diff that has at
    least one added or removed line. *)
Theorem createSlideDiff_modified_has_change m d :
  createSlideDiff m = Some d ->
  status d = DiffStatus.modified ->
  exists r, contentChanges d = Some r /\
            Exists (fun e => type e <> unchanged) r.
Proof.
  unfold createSlideDiff.
  destruct (beforeSlide m) as [b|], (afterSlide m) as [a|];
    try (intros [= <-]; done).
  destruct (slidesAreEqual b a) eqn:E.
  - intros [= <-]. cbn. by destruct (negb _).
  - destruct (diffText _ _) as [r|] eqn:Er; [|done].
    cbn. intros [= <-] _. exists r. split; [done|].
    apply (diffText_changes (content (location b)) (content (location a)));
      [|done].
    intros Heq. apply not_true_iff_false in E.
    apply E, slidesAreEqual_spec. by rewrite Heq.
Qed.

Lemma createSlideDiff_modified_has_change_witness :
  exists d r,
    createSlideDiff edited_match = Some d /\
    status d = DiffStatus.modified /\
    contentChanges d = Some r /\
    Exists (fun e => type e <> unchanged) r.
Proof.
  assert (Hd : exists d, createSlideDiff edited_match = Some d /\
                         status d = DiffStatus.modified).
  { eexists. split; [vm_compute; reflexivity|reflexivity]. }
  destruct Hd as (d & Hd & Hs).
  destruct (createSlideDiff_modified_has_change edited_match d Hd Hs)
    as (r & Hr & Hex).
  exists d, r. split; [exact Hd|]. split; [exact Hs|]. split; [exact Hr|exact Hex].
Defined.

(** X30. [slidesAreEqual] compares the contents alone, as [normalizedTextEquals]
    does; it is an equivalence, and a slide is equal to the slide that
    holds its normalised content. *)
Theorem slidesAreEqual_equivalence (s1 s2 s3 : MarkdownSlide) :
  slidesAreEqual s1 s2
    = normalizedTextEquals (content (location s1)) (content (location s2)) /\
  slidesAreEqual s1 s1 = true /\
  slidesAreEqual s1 s2 = slidesAreEqual s2 s1 /\
  implb (slidesAreEqual s1 s2 && slidesAreEqual s2 s3) (slidesAreEqual s1 s3)
    = true /\
  normalizedTextEquals (content (location s1))
                       (normalizeText (content (location s1))) = true.
Proof.
  unfold slidesAreEqual, normalizedTextEquals, normalizeSlideContent.
  split_and!.
  - done.
  - by apply bool_decide_eq_true_2.
  - apply bool_decide_ext. naive_solver.
  - repeat case_bool_decide; try done. congruence.
  - apply bool_decide_eq_true_2.
    pose proof (tidy_normalizeText (content (location s1))) as H.
    unfold normalizeText at 2.
    rewrite (tidy_replaceCRLF _ H), (tidy_lines_id _ H).
    unfold normalizeText. by rewrite trim_idem.
Qed.
